(** * go-structform: the incremental JSON and CBOR decoders

    A shallow embedding of [json/parse.go] (package [json]) and of the CBOR
    parser (package [cborl]) together with the properties of their fragment
    feed loops.

    Conventions used throughout:
    - a Go byte slice is a [list byte]; [b[i:]] is [skipn i b], [b[:i]] is
      [firstn i b], and a [nil] slice is the empty list (the code only ever
      takes [len] of such slices, except where a [nil] result is tested, in
      which case an [option] is used);
    - the visitor is an external collaborator: it is a function from the
      events delivered so far and the current event to an optional error, and
      every parser carries the list of events delivered so far ([trace]);
    - a run-time panic of the Go code (slice index out of range) is the
      outcome [Panic]; loops are run with fuel and [OutOfFuel] marks a loop
      that did not finish within it. *)

From Stdlib Require Import String.
From Stdlib.Strings Require Import Byte.
From Stdlib Require Import ZArith List Bool Lia.
Import ListNotations.
Open Scope Z_scope.

(** ** Bytes *)

Definition byteZ (c : byte) : Z := Z.of_N (Byte.to_N c).

Definition bytes (s : string) : list byte := list_byte_of_string s.

(** The double quote and the backslash, which cannot be written inside a
    string literal conveniently. *)
Definition dquote : byte := x22.
Definition backslash : byte := x5c.

(** ** The visitor interface ([structform.Visitor]) *)

Inductive BaseType := AnyType | ByteType.

(** One constructor per visitor method used by the two parsers.  Floating
    point payloads are carried as their IEEE-754 bit patterns. *)
Inductive event :=
| OnObjectStart (len : Z) (ty : BaseType)
| OnObjectFinished
| OnKey (s : list byte)
| OnKeyRef (s : list byte)
| OnArrayStart (len : Z) (ty : BaseType)
| OnArrayFinished
| OnNil
| OnBool (v : bool)
| OnString (s : list byte)
| OnStringRef (s : list byte)
| OnByte (c : byte)
| OnInt8 (v : Z)
| OnInt16 (v : Z)
| OnInt32 (v : Z)
| OnInt64 (v : Z)
| OnUint8 (v : Z)
| OnUint16 (v : Z)
| OnUint32 (v : Z)
| OnUint64 (v : Z)
| OnFloat32 (bits : Z)
| OnFloat64 (bits : Z).

(** The error values: the sentinels of package [json], the sentinels of
    package [cborl], the errors of the conversion primitives and the errors
    raised by a visitor. *)
Inductive error :=
| errFailing
| errIncomplete
| errUnknownChar
| errQuoteMissing
| errExpectColon
| errUnexpectedDictClose
| errUnexpectedArrClose
| errExpectedDigit
| errExpectedObject
| errExpectedArray
| errExpectedFieldName
| errExpectedInteger
| errExpectedNull
| errExpectedFalse
| errExpectedTrue
| errExpectedArrayField
| errTODO
| errIndefByteSeq
| errInvalidCode
| errTextKeyRequired
| errNumSyntax (lit : list byte)
| errNumRange (lit : list byte)
| errConversion (lit : list byte)
| errConsumer (code : nat).

Definition Visitor := list event -> event -> option error.

(** The visitor that accepts every event. *)
Definition accept_all : Visitor := fun _ _ => None.

(** ** Outcomes of a call *)

Inductive outcome (A : Type) :=
| Done (a : A)
| Panic
| OutOfFuel.
Arguments Done {A} a.
Arguments Panic {A}.
Arguments OutOfFuel {A}.

Definition bind {A B} (m : outcome A) (k : A -> outcome B) : outcome B :=
  match m with
  | Done a => k a
  | Panic => Panic
  | OutOfFuel => OutOfFuel
  end.

Notation "x <- m ;; k" := (bind m (fun x => k))
  (at level 61, m at next level, right associativity).
Notation "' pat <- m ;; k" := (bind m (fun x => match x with pat => k end))
  (at level 61, pat pattern, m at next level, right associativity).

(** [bytes.HasPrefix] *)
Fixpoint hasPrefix (b s : list byte) : bool :=
  match s, b with
  | [], _ => true
  | _ :: _, [] => false
  | x :: s', y :: b' => Byte.eqb x y && hasPrefix b' s'
  end.

(** ** Conversion primitive [strconv.ParseInt(s, 10, 64)] *)

Definition isDigit (c : byte) : bool :=
  (48 <=? byteZ c) && (byteZ c <=? 57).

(** [strconv.ParseUint(s, 10, 64)] on a non-empty digit run: [None] is a
    syntax error, [Some None] a range error. *)
Fixpoint parseUint (acc : Z) (s : list byte) : option (option Z) :=
  match s with
  | [] => Some (Some acc)
  | c :: s' =>
      if isDigit c then
        let n1 := 10 * acc + (byteZ c - 48) in
        if 2 ^ 64 <=? n1 then Some None else parseUint n1 s'
      else None
  end.

(** The number written by a run of decimal digits. *)
Definition digitsValue (ds : list byte) : Z :=
  fold_left (fun acc c => 10 * acc + (byteZ c - 48)) ds 0.

Definition ParseInt (s : list byte) : Z + error :=
  match s with
  | [] => inr (errNumSyntax s)
  | c :: s' =>
      let '(neg, ds) :=
        if Byte.eqb c "+"%byte then (false, s')
        else if Byte.eqb c "-"%byte then (true, s')
        else (false, s) in
      match ds with
      | [] => inr (errNumSyntax s)
      | _ =>
          match parseUint 0 ds with
          | None => inr (errNumSyntax s)
          | Some None => inr (errNumRange s)
          | Some (Some un) =>
              if neg then
                if 2 ^ 63 <? un then inr (errNumRange s) else inl (- un)
              else
                if 2 ^ 63 <=? un then inr (errNumRange s) else inl un
          end
      end
  end.

(** * The text decoder (package [json]) *)

Module Json.

Inductive state :=
| failedState
| startState
| arrState
| arrStateValue
| arrStateNext
| dictState
| dictFieldState
| dictNextFieldState
| dictFieldValue
| dictFieldValueSep
| dictFieldStateEnd
| nullState
| trueState
| falseState
| stringState
| numberState.

Definition state_eqb (a b : state) : bool :=
  match a, b with
  | failedState, failedState | startState, startState
  | arrState, arrState | arrStateValue, arrStateValue
  | arrStateNext, arrStateNext | dictState, dictState
  | dictFieldState, dictFieldState
  | dictNextFieldState, dictNextFieldState
  | dictFieldValue, dictFieldValue
  | dictFieldValueSep, dictFieldValueSep
  | dictFieldStateEnd, dictFieldStateEnd
  | nullState, nullState | trueState, trueState
  | falseState, falseState | stringState, stringState
  | numberState, numberState => true
  | _, _ => false
  end.

(** The parser.  [states] is the frame stack with its top at the head of the
    list; [required] is never negative in the code (it is assigned 3, 4 or a
    positive difference), hence a [nat]; [trace] records the events
    delivered to the visitor so far.  The backing arrays [statesBuf] and
    [literalBuffer0] only provide storage. *)
Record Parser := mkParser {
  err : option error;
  states : list state;
  currentState : state;
  literalBuffer : list byte;
  isDouble : bool;
  inEscape : bool;
  required : nat;
  trace : list event
}.

Definition set_err (e : option error) (p : Parser) : Parser :=
  mkParser e (states p) (currentState p) (literalBuffer p) (isDouble p)
    (inEscape p) (required p) (trace p).
Definition set_states (s : list state) (p : Parser) : Parser :=
  mkParser (err p) s (currentState p) (literalBuffer p) (isDouble p)
    (inEscape p) (required p) (trace p).
Definition set_currentState (s : state) (p : Parser) : Parser :=
  mkParser (err p) (states p) s (literalBuffer p) (isDouble p)
    (inEscape p) (required p) (trace p).
Definition set_literalBuffer (l : list byte) (p : Parser) : Parser :=
  mkParser (err p) (states p) (currentState p) l (isDouble p)
    (inEscape p) (required p) (trace p).
Definition set_isDouble (d : bool) (p : Parser) : Parser :=
  mkParser (err p) (states p) (currentState p) (literalBuffer p) d
    (inEscape p) (required p) (trace p).
Definition set_inEscape (e : bool) (p : Parser) : Parser :=
  mkParser (err p) (states p) (currentState p) (literalBuffer p) (isDouble p)
    e (required p) (trace p).
Definition set_required (n : nat) (p : Parser) : Parser :=
  mkParser (err p) (states p) (currentState p) (literalBuffer p) (isDouble p)
    (inEscape p) n (trace p).
Definition set_trace (t : list event) (p : Parser) : Parser :=
  mkParser (err p) (states p) (currentState p) (literalBuffer p) (isDouble p)
    (inEscape p) (required p) t.

Definition NewParser : Parser :=
  mkParser None [] startState [] false false 0 [].

(** [unicode.IsSpace(rune(c))] for a byte [c]: in the Latin-1 range the
    white space characters are U+0009..U+000D, U+0020, U+0085 and U+00A0. *)
Definition isSpace (c : byte) : bool :=
  ((9 <=? byteZ c) && (byteZ c <=? 13))
  || (byteZ c =? 32) || (byteZ c =? 133) || (byteZ c =? 160).

Fixpoint trimLeft (b : list byte) : list byte :=
  match b with
  | [] => []
  | c :: b' => if isSpace c then trimLeft b' else b
  end.

(** The unused package variable [whitespace]. *)
Definition whitespace : list byte := [" "%byte; x09; x0d; x0a].

Definition isStopChar (c : byte) : bool :=
  Byte.eqb c " "%byte || Byte.eqb c x09 || Byte.eqb c x0c
  || Byte.eqb c x0a || Byte.eqb c x0d
  || Byte.eqb c ","%byte || Byte.eqb c "]"%byte || Byte.eqb c "}"%byte.

(** The stop set of [stepNumber], as a list. *)
Definition number_stop_chars : list byte :=
  [" "%byte; x09; x0c; x0a; x0d; ","%byte; "]"%byte; "}"%byte].

Definition isDoubleChar (c : byte) : bool :=
  Byte.eqb c "."%byte || Byte.eqb c "e"%byte || Byte.eqb c "E"%byte.

(** The scanning loop of [stepNumber]: the index of the first stop
    character, if any, and the [isDouble] flag after the bytes before it. *)
Fixpoint scanNumber (isD : bool) (b : list byte) (i : nat)
  : bool * option nat :=
  match b with
  | [] => (isD, None)
  | c :: b' =>
      if isStopChar c then (isD, Some i)
      else scanNumber (isD || isDoubleChar c) b' (S i)
  end.

(** The scanning loop of [doString]: the index in [buf] of the first
    unescaped closing quote, if any, and the [inEscape] flag at exit. *)
Fixpoint scanString (inEsc : bool) (buf : list byte) (i : nat)
  : bool * option nat :=
  match buf with
  | [] => (inEsc, None)
  | c :: buf' =>
      if inEsc then scanString false buf' (S i)
      else if Byte.eqb c dquote then (false, Some i)
      else scanString (Byte.eqb c backslash) buf' (S i)
  end.

Section WithPrimitives.

(** The visitor and the two conversion primitives that are not modelled:
    [strconv.ParseFloat(s, 64)], giving the bits of the result, and
    [json.Unmarshal] into a string, giving the string and the error. *)
Variable vs : Visitor.
Variable ParseFloat : list byte -> Z + error.
Variable Unmarshal : list byte -> list byte * option error.

Definition emit (ev : event) (p : Parser) : Parser * option error :=
  (set_trace (trace p ++ [ev]) p, vs (trace p) ev).

Definition pushState (next : state) (p : Parser) : Parser :=
  let p :=
    if state_eqb (currentState p) failedState then p
    else set_states (currentState p :: states p) p in
  set_currentState next p.

Definition popState (p : Parser) : Parser :=
  match states p with
  | [] => set_currentState failedState p
  | last :: rest => set_states rest (set_currentState last p)
  end.

Definition reportNumber (b : list byte) (isD : bool) (p : Parser)
  : Parser * option error :=
  if isD then
    match ParseFloat b with
    | inl f => emit (OnFloat64 f) p
    | inr e => (p, Some e)
    end
  else
    match ParseInt b with
    | inl i => emit (OnInt64 i) p
    | inr e => (p, Some e)
    end.

Definition stepNumber (b : list byte) (p : Parser)
  : Parser * list byte * option error :=
  let '(isD, stop) := scanNumber (isDouble p) b 0 in
  let p := set_isDouble isD p in
  match stop with
  | None => (set_literalBuffer (literalBuffer p ++ b) p, [], None)
  | Some stop =>
      let rest := skipn stop b in
      let b := firstn stop b in
      let '(b, p) :=
        match literalBuffer p with
        | [] => (b, p)
        | _ :: _ => (literalBuffer p ++ b, set_literalBuffer [] p)
        end in
      let '(p, e) := reportNumber b (isDouble p) p in
      (popState p, rest, e)
  end.

(** [stepKind]: [kind[len(kind)-n:]] panics when [n] exceeds [len(kind)]. *)
Definition stepKind (b kind : list byte) (e : error) (p : Parser)
  : outcome (Parser * list byte * bool * option error) :=
  let n := required p in
  if (length kind <? n)%nat then Panic else
  let s := skipn (length kind - n) kind in
  let L := length b in
  let '(p, n, s, done) :=
    if (L <? n)%nat
    then (set_required (n - L) p, L, firstn L s, false)
    else (p, n, s, true) in
  if negb (hasPrefix b s) then Done (p, b, false, Some e)
  else
    let p := if done then popState p else p in
    Done (p, skipn n b, done, None).

Definition stepLiteral (kind : list byte) (e : error) (ev : event)
  (b : list byte) (p : Parser)
  : outcome (Parser * list byte * option error) :=
  '(p, b, done, e) <- stepKind b kind e p ;;
  if done : bool then let '(p, e) := emit ev p in Done (p, b, e)
  else Done (p, b, e).

Definition stepNULL := stepLiteral (bytes "null") errExpectedNull OnNil.
Definition stepTRUE :=
  stepLiteral (bytes "true") errExpectedTrue (OnBool true).
Definition stepFALSE :=
  stepLiteral (bytes "false") errExpectedFalse (OnBool false).

(** [doString] returns the string, [done], the rest of the input and the
    error; [b[1:]] panics on an empty [b] at the start of a string. *)
Definition doString (b : list byte) (p : Parser)
  : outcome (Parser * list byte * bool * list byte * option error) :=
  let atStart := match literalBuffer p with [] => true | _ => false end in
  match (if atStart then
           match b with [] => None | _ :: b' => Some (2%nat, b') end
         else Some (1%nat, b)) with
  | None => Panic
  | Some (delta, buf) =>
      let '(esc, found) := scanString (inEscape p) buf 0 in
      let p := set_inEscape esc p in
      match found with
      | None =>
          Done (set_literalBuffer (literalBuffer p ++ b) p, [], false, [],
                None)
      | Some i =>
          let stop := (i + delta)%nat in
          let rest := skipn stop b in
          let b := firstn stop b in
          let '(b, p) :=
            match literalBuffer p with
            | [] => (b, p)
            | _ :: _ => (literalBuffer p ++ b, set_literalBuffer [] p)
            end in
          let '(str, e) := Unmarshal b in
          Done (p, str, true, rest, e)
      end
  end.

Definition is_none {A} (o : option A) : bool :=
  match o with None => true | Some _ => false end.

Definition stepString (b : list byte) (p : Parser)
  : outcome (Parser * list byte * option error) :=
  '(p, str, done, b, e) <- doString b p ;;
  if (done : bool) && is_none e then
    let '(p, e) := emit (OnString str) (popState p) in Done (p, b, e)
  else Done (p, b, e).

Definition stepDictKey (b : list byte) (p : Parser)
  : outcome (Parser * list byte * option error) :=
  '(p, str, done, b, e) <- doString b p ;;
  if (done : bool) && is_none e then
    let '(p, e) := emit (OnKey str) (set_currentState dictFieldValueSep p) in
    Done (p, b, e)
  else Done (p, b, e).

Definition stepValue (b : list byte) (retState : state) (p : Parser)
  : outcome (Parser * list byte * option error) :=
  match trimLeft b with
  | [] => Done (p, [], None)
  | c :: b1 =>
      let p := set_currentState retState p in
      if Byte.eqb c "{"%byte then
        let '(p, e) := emit (OnObjectStart (-1) AnyType) (pushState dictState p) in
        Done (p, b1, e)
      else if Byte.eqb c "["%byte then
        let '(p, e) := emit (OnArrayStart (-1) AnyType) (pushState arrState p) in
        Done (p, b1, e)
      else if Byte.eqb c "n"%byte then
        stepNULL b1 (set_required 3 (pushState nullState p))
      else if Byte.eqb c "f"%byte then
        stepFALSE b1 (set_required 4 (pushState falseState p))
      else if Byte.eqb c "t"%byte then
        stepTRUE b1 (set_required 3 (pushState trueState p))
      else if Byte.eqb c dquote then
        stepString (c :: b1)
          (set_inEscape false (pushState stringState (set_literalBuffer [] p)))
      else
        let isNumber :=
          Byte.eqb c "-"%byte || Byte.eqb c "+"%byte || Byte.eqb c "."%byte
          || isDigit c in
        if negb isNumber then Done (p, c :: b1, Some errUnknownChar)
        else
          Done (stepNumber (c :: b1)
                  (set_isDouble false
                     (pushState numberState (set_literalBuffer [] p))))
  end.

Definition stepStart (b : list byte) (p : Parser) :=
  stepValue b (currentState p) p.

Definition endDict (b : list byte) (p : Parser)
  : Parser * list byte * option error :=
  let '(p, e) := emit OnObjectFinished (popState p) in (p, skipn 1 b, e).

Definition endArray (b : list byte) (p : Parser)
  : Parser * list byte * option error :=
  let '(p, e) := emit OnArrayFinished (popState p) in (p, skipn 1 b, e).

Definition stepDict (b : list byte) (allowEnd : bool) (p : Parser)
  : Parser * list byte * option error :=
  match trimLeft b with
  | [] => (p, [], None)
  | c :: b1 =>
      if Byte.eqb c "}"%byte then
        if negb allowEnd then (p, [], Some errUnexpectedDictClose)
        else endDict (c :: b1) p
      else if Byte.eqb c dquote then
        (set_currentState dictFieldState p, c :: b1, None)
      else (p, [], Some errExpectedFieldName)
  end.

Definition stepDictValueEnd (b : list byte) (p : Parser)
  : Parser * list byte * option error :=
  match trimLeft b with
  | [] => (p, [], None)
  | c :: b1 =>
      if Byte.eqb c "}"%byte then endDict (c :: b1) p
      else if Byte.eqb c ","%byte then
        (set_currentState dictNextFieldState p, b1, None)
      else (p, [], Some errUnknownChar)
  end.

Definition stepArray (b : list byte) (allowEnd : bool) (p : Parser)
  : Parser * list byte * option error :=
  match trimLeft b with
  | [] => (p, [], None)
  | c :: b1 =>
      if Byte.eqb c "]"%byte then
        if negb allowEnd then (p, [], Some errUnexpectedArrClose)
        else endArray (c :: b1) p
      else (set_currentState arrStateValue p, c :: b1, None)
  end.

Definition stepArrValueEnd (b : list byte) (p : Parser)
  : Parser * list byte * option error :=
  match trimLeft b with
  | [] => (p, [], None)
  | c :: b1 =>
      if Byte.eqb c "]"%byte then endArray (c :: b1) p
      else if Byte.eqb c ","%byte then
        (set_currentState arrStateValue p, b1, None)
      else (p, [], Some errUnknownChar)
  end.

(** The [dictFieldValueSep] arm of the switch in [feed]. *)
Definition stepDictSep (b : list byte) (p : Parser)
  : Parser * list byte * option error :=
  match trimLeft b with
  | [] => (p, [], None)
  | c :: b1 =>
      (set_currentState dictFieldValue p, b1,
       if Byte.eqb c ":"%byte then None else Some errExpectColon)
  end.

(** One iteration of the loop of [feed] in a state other than
    [failedState]. *)
Definition step (p : Parser) (b : list byte)
  : outcome (Parser * list byte * option error) :=
  match currentState p with
  | failedState => Done (p, b, err p)
  | startState => stepStart b p
  | dictState => Done (stepDict b true p)
  | dictNextFieldState => Done (stepDict b false p)
  | dictFieldState => stepDictKey b p
  | dictFieldValueSep => Done (stepDictSep b p)
  | dictFieldValue => stepValue b dictFieldStateEnd p
  | dictFieldStateEnd => Done (stepDictValueEnd b p)
  | arrState => Done (stepArray b true p)
  | arrStateValue => stepValue b arrStateNext p
  | arrStateNext => Done (stepArrValueEnd b p)
  | nullState => stepNULL b p
  | trueState => stepTRUE b p
  | falseState => stepFALSE b p
  | stringState => stepString b p
  | numberState => Done (stepNumber b p)
  end.

(** What a call of [feed] leaves behind: the parser, the bytes of the
    fragment that were not consumed and the returned error. *)
Record result := mkResult {
  st : Parser;
  rest : list byte;
  ret : option error
}.

Fixpoint feed_loop (fuel : nat) (p : Parser) (b : list byte)
  : outcome result :=
  match b with
  | [] => Done (mkResult p b None)
  | _ :: _ =>
      match currentState p with
      | failedState => Done (mkResult p b (err p))
      | _ =>
          match fuel with
          | O => OutOfFuel
          | S fuel =>
              '(p, b, e) <- step p b ;;
              match e with
              | Some e => Done (mkResult p b (Some e))
              | None => feed_loop fuel p b
              end
          end
      end
  end.

(** [feed]: the loop needs at most two iterations per byte, plus the frames
    an ill-formed stack could make it pop. *)
Definition feed (p : Parser) (b : list byte) : outcome result :=
  feed_loop (4 * length b + 2 * length (states p) + 2) p b.

Definition finalize (p : Parser) : Parser * option error :=
  let '(p, e) :=
    match currentState p with
    | numberState =>
        let '(p, e) := reportNumber (literalBuffer p) (isDouble p) p in
        match e with
        | Some e => (p, Some e)
        | None => (popState p, None)
        end
    | _ => (p, None)
    end in
  match e with
  | Some e => (p, Some e)
  | None =>
      if (0 <? length (states p))%nat
         && negb (state_eqb (currentState p) startState)
      then (p, Some errIncomplete)
      else (p, None)
  end.

(** [Write]: the number of bytes reported as written and the error. *)
Definition Write (p : Parser) (b : list byte)
  : outcome (Parser * Z * option error) :=
  r <- feed p b ;;
  let p := set_err (ret r) (st r) in
  match ret r with
  | Some e => Done (p, 0, Some e)
  | None => Done (p, Z.of_nat (length b), None)
  end.

Definition Parse (p : Parser) (b : list byte)
  : outcome (Parser * option error) :=
  r <- feed p b ;;
  let p := set_err (ret r) (st r) in
  match ret r with
  | Some e => Done (p, Some e)
  | None =>
      let '(p, e) := finalize p in
      Done (set_err e p, e)
  end.

(** Feeding a list of fragments in stream order; the first error stops the
    run. *)
Fixpoint feed_all (p : Parser) (frags : list (list byte)) : outcome result :=
  match frags with
  | [] => Done (mkResult p [] None)
  | f :: fs =>
      r <- feed p f ;;
      match ret r with
      | Some _ => Done r
      | None => feed_all (st r) fs
      end
  end.

(** The parsers a caller can obtain: a new parser, fed or written to any
    number of times, whatever the calls returned. *)
Inductive reachable : Parser -> Prop :=
| reach_new : reachable NewParser
| reach_feed p b r :
    reachable p -> feed p b = Done r -> reachable (st r)
| reach_write p b q n e :
    reachable p -> Write p b = Done (q, n, e) -> reachable q.

End WithPrimitives.

(** ** Well-formed parsers *)

(** The frames saved on the stack are return states of [stepValue]: the
    bottom one is [startState], the others [dictFieldStateEnd] or
    [arrStateNext]. *)
Definition frame_ok (s : state) : bool :=
  match s with
  | dictFieldStateEnd | arrStateNext => true
  | _ => false
  end.

Fixpoint stack_ok (l : list state) : bool :=
  match l with
  | [] => false
  | s :: l' =>
      match l' with
      | [] => state_eqb s startState
      | _ :: _ => frame_ok s && stack_ok l'
      end
  end.

Definition wf (p : Parser) : bool :=
  match currentState p with
  | failedState => false
  | startState => match states p with [] => true | _ :: _ => false end
  | nullState | trueState =>
      stack_ok (states p) && (1 <=? required p)%nat && (required p <=? 3)%nat
  | falseState =>
      stack_ok (states p) && (1 <=? required p)%nat && (required p <=? 4)%nat
  | _ => stack_ok (states p)
  end.

(** The states in which the loop of [feed] may take a step that consumes no
    byte: before a key or an array element, and at the stop character of a
    number. *)
Definition lookahead (s : state) : bool :=
  match s with
  | dictState | dictNextFieldState | arrState | numberState => true
  | _ => false
  end.

Definition measure (p : Parser) (b : list byte) : nat :=
  2 * length b + (if lookahead (currentState p) then 1 else 0).

(** The states in which [required] is read. *)
Definition literal_state (s : state) : bool :=
  match s with
  | nullState | trueState | falseState => true
  | _ => false
  end.

(** Two parsers that differ at most in a [required] field that will not be
    read before it is assigned again. *)
Definition same_parser (p q : Parser) : Prop :=
  err p = err q /\ states p = states q /\ currentState p = currentState q
  /\ literalBuffer p = literalBuffer q /\ isDouble p = isDouble q
  /\ inEscape p = inEscape q /\ trace p = trace q
  /\ (literal_state (currentState p) = true -> required p = required q).

(** The states whose arm of the switch in [feed] starts by trimming white
    space. *)
Definition skips_space (s : state) : bool :=
  match s with
  | startState | dictState | dictNextFieldState | dictFieldValueSep
  | dictFieldValue | dictFieldStateEnd | arrState | arrStateValue
  | arrStateNext => true
  | _ => false
  end.

(** The bytes at which [stepValue] starts a value. *)
Definition startsValue (c : byte) : bool :=
  Byte.eqb c "{"%byte || Byte.eqb c "["%byte || Byte.eqb c "n"%byte
  || Byte.eqb c "f"%byte || Byte.eqb c "t"%byte || Byte.eqb c dquote
  || Byte.eqb c "-"%byte || Byte.eqb c "+"%byte || Byte.eqb c "."%byte
  || isDigit c.

(** ** Nested arrays *)

(** The frame stack inside [j] open arrays at the top level. *)
Definition array_frames (j : nat) : list state :=
  match j with
  | O => []
  | S i => repeat arrStateNext i ++ [startState]
  end.

(** The state after a value has ended inside [j] open arrays. *)
Definition array_return (j : nat) : state :=
  match j with
  | O => startState
  | S _ => arrStateNext
  end.

(** A parser inside [j] open arrays, in the state [cur], that has delivered
    the events [tr]. *)
Definition in_arrays (j : nat) (cur : state) (tr : list event) : Parser :=
  mkParser None (array_frames j) cur [] false false 0 tr.

(** ** The claims of the specification, in its words *)


(** The unsigned-integer events of the visitor interface. *)
Definition is_uint_event (ev : event) (v : Z) : Prop :=
  ev = OnUint8 v \/ ev = OnUint16 v \/ ev = OnUint32 v \/ ev = OnUint64 v.

(** ** Stand-ins for the conversion primitives, for concrete runs *)

(** A stand-in for [json.Unmarshal] on string literals without escapes: the
    bytes between the quotes. *)
Definition unquote (b : list byte) : list byte * option error :=
  (removelast (tl b), None).

(** A stand-in for [strconv.ParseFloat] that rejects every literal. *)
Definition noFloat (b : list byte) : Z + error := inr (errConversion b).





(** The fragment [{"a":[1,2,3],"b":true}]. *)
Definition nested_fragment : list byte :=
  bytes "{" ++ [dquote] ++ bytes "a" ++ [dquote] ++ bytes ":[1,2,3],"
  ++ [dquote] ++ bytes "b" ++ [dquote] ++ bytes ":true}".

End Json.
(** * The binary decoder (package [cborl]) *)

Module Cborl.

(** ** Fixed-width integers *)

Definition wrap64 (z : Z) : Z := (z + 2 ^ 63) mod 2 ^ 64 - 2 ^ 63.

(** [^v] on an unsigned integer of [w] bits. *)
Definition lnot (w : Z) (v : Z) : Z := Z.lxor v (2 ^ w - 1).

(** Conversion of an unsigned integer of [w] bits to the signed type of the
    same width. *)
Definition toSigned (w : Z) (v : Z) : Z :=
  if 2 ^ (w - 1) <=? v then v - 2 ^ w else v.

(** [binary.BigEndian.UintN] *)
Definition bigEndian (l : list byte) : Z :=
  fold_left (fun acc c => acc * 256 + byteZ c) l 0.

(** ** Constants *)

(** Modelled from the spec: the constants of the CBOR encoding, which are
    declared outside the given sources.  Section 4.2 fixes them: the high
    three bits of the leading byte are the major type (unsigned, negative,
    bytes, text, array, map, tag, simple or float, in this order), the low
    five bits are the minor, minors 24 to 27 announce 1, 2, 4 or 8 following
    bytes and minor 31 an indefinite length or the break marker. *)
Definition majorUint : Z := 0x00.
Definition majorNeg : Z := 0x20.
Definition majorBytes : Z := 0x40.
Definition majorText : Z := 0x60.
Definition majorArr : Z := 0x80.
Definition majorMap : Z := 0xA0.
Definition majorTag : Z := 0xC0.
Definition majorOther : Z := 0xE0.
Definition majorMask : Z := 0xE0.
Definition minorMask : Z := 0x1F.
Definition len8b : Z := 24.
Definition len16b : Z := 25.
Definition len32b : Z := 26.
Definition len64b : Z := 27.
Definition lenIndef : Z := 31.
Definition codeFalse : Z := 0xF4.
Definition codeTrue : Z := 0xF5.
Definition codeNull : Z := 0xF6.
Definition codeUndef : Z := 0xF7.
Definition codeHalfFloat : Z := 0xF9.
Definition codeSingleFloat : Z := 0xFA.
Definition codeDoubleFloat : Z := 0xFB.
Definition codeBreak : Z := 0xFF.

(** The additional state 'major' types of the parser. *)
Definition stFail : Z := 1.
Definition stValue : Z := 2.
Definition stLen : Z := 3.
Definition stStartX : Z := 4.
Definition stIndef : Z := 1.
Definition stStartArr : Z := Z.lor majorArr stStartX.
Definition stStartMap : Z := Z.lor majorMap stStartX.
Definition stStartIndefArr : Z := Z.lor (Z.lor majorArr stStartX) stIndef.
Definition stStartIndefMap : Z := Z.lor (Z.lor majorMap stStartX) stIndef.
Definition stKey : Z := Z.lor majorMap 8.
Definition stElem : Z := Z.lor majorMap 9.
Definition stIndefArr : Z := Z.lor majorArr stIndef.
Definition stIndefMap : Z := Z.lor majorMap stIndef.

Definition stStart : Z := 1.
Definition stCont : Z := 2.

(** ** Parser state *)

Record state := mkState { major : Z; minor : Z }.

(** Modelled from the spec: the frame stack type [stateStack], which is
    declared outside the given sources ("Frames form a stack; push begins
    nesting, pop resumes the enclosing construct").  It follows the frame
    stack of the text decoder: a failed frame is not saved, and popping the
    empty stack gives the failed frame.  The top of the stack is the head of
    the list. *)
Record stateStack := mkStateStack {
  sstack : list state;
  current : state
}.

Definition stateStack_init (s0 : state) : stateStack := mkStateStack [] s0.

Definition stateStack_push (next : state) (s : stateStack) : stateStack :=
  if major (current s) =? stFail then mkStateStack (sstack s) next
  else mkStateStack (current s :: sstack s) next.

Definition stateStack_pop (s : stateStack) : stateStack :=
  match sstack s with
  | [] => mkStateStack [] (mkState stFail stStart)
  | last :: rest => mkStateStack rest last
  end.

(** Modelled from the spec: the pending length stack [lengthStack], which is
    declared outside the given sources ("stack of remaining element/byte
    counts ...; pushed at start, decremented per element/byte, popped at
    completion").  Popping the empty stack leaves the length -1. *)
Record lengthStack := mkLengthStack {
  lstack : list Z;
  lcurrent : Z
}.

Definition lengthStack_init : lengthStack := mkLengthStack [] 0.

Definition lengthStack_push (l : Z) (s : lengthStack) : lengthStack :=
  mkLengthStack (lcurrent s :: lstack s) l.

Definition lengthStack_pop (s : lengthStack) : lengthStack :=
  match lstack s with
  | [] => mkLengthStack [] (-1)
  | last :: rest => mkLengthStack rest last
  end.

Record Parser := mkParser {
  err : option error;
  pstate : stateStack;
  length_ : lengthStack;
  buffer : list byte;
  trace : list event
}.

Definition set_err (e : option error) (p : Parser) : Parser :=
  mkParser e (pstate p) (length_ p) (buffer p) (trace p).
Definition set_state (s : stateStack) (p : Parser) : Parser :=
  mkParser (err p) s (length_ p) (buffer p) (trace p).
Definition set_length (l : lengthStack) (p : Parser) : Parser :=
  mkParser (err p) (pstate p) l (buffer p) (trace p).
Definition set_buffer (b : list byte) (p : Parser) : Parser :=
  mkParser (err p) (pstate p) (length_ p) b (trace p).
Definition set_trace (t : list event) (p : Parser) : Parser :=
  mkParser (err p) (pstate p) (length_ p) (buffer p) t.

Definition NewParser : Parser :=
  mkParser None (stateStack_init (mkState stValue stStart))
    lengthStack_init [] [].

Definition cur (p : Parser) : state := current (pstate p).
Definition lenCur (p : Parser) : Z := lcurrent (length_ p).

Definition push (s : state) (p : Parser) : Parser :=
  set_state (stateStack_push s (pstate p)) p.
Definition pop (p : Parser) : Parser :=
  set_state (stateStack_pop (pstate p)) p.
Definition lpush (l : Z) (p : Parser) : Parser :=
  set_length (lengthStack_push l (length_ p)) p.
Definition lpop (p : Parser) : Parser :=
  set_length (lengthStack_pop (length_ p)) p.
Definition set_lenCur (l : Z) (p : Parser) : Parser :=
  set_length (mkLengthStack (lstack (length_ p)) l) p.
Definition set_cur (s : state) (p : Parser) : Parser :=
  set_state (mkStateStack (sstack (pstate p)) s) p.

Definition len (b : list byte) : Z := Z.of_nat (length b).

Definition is_some {A} (o : option A) : bool :=
  match o with None => false | Some _ => true end.

Section WithVisitor.

Variable vs : Visitor.

Definition emit (ev : event) (p : Parser) : Parser * option error :=
  (set_trace (trace p ++ [ev]) p, vs (trace p) ev).

(** [onValue]: inside a definite-length array or map the pending length is
    decremented. *)
Definition onValue (p : Parser) : Parser * bool :=
  if (major (cur p) =? majorArr) || (major (cur p) =? majorMap)
  then (set_lenCur (wrap64 (lenCur p - 1)) p, false)
  else (p, true).

Definition popState (p : Parser) : Parser * bool := onValue (pop p).

(** The last part of [collect], reached with an empty buffer: the bytes are
    taken from the input when it holds enough of them and saved otherwise.
    Slicing with a negative [count] panics. *)
Definition collectFresh (b : list byte) (count : Z) (p : Parser)
  : outcome (Parser * list byte * option (list byte)) :=
  if count <=? len b then
    if count <? 0 then Panic
    else Done (p, skipn (Z.to_nat count) b, Some (firstn (Z.to_nat count) b))
  else Done (set_buffer (buffer p ++ b) p, [], None).

(** [collect]: the rest of the input and the [count] collected bytes, or
    [None] for the [nil] slice returned while bytes are missing. *)
Definition collect (b : list byte) (count : Z) (p : Parser)
  : outcome (Parser * list byte * option (list byte)) :=
  match buffer p with
  | [] => collectFresh b count p
  | _ :: _ =>
      let delta := wrap64 (count - len (buffer p)) in
      let filled :=
        if 0 <? delta then
          if len b <? delta
          then inl (set_buffer (buffer p ++ b) p)
          else inr (set_buffer (buffer p ++ firstn (Z.to_nat delta) b) p,
                    skipn (Z.to_nat delta) b)
        else inr (p, b) in
      match filled with
      | inl p => Done (p, [], None)
      | inr (p, b) =>
          if count <=? len (buffer p) then
            if count <? 0 then Panic
            else
              let tmp := firstn (Z.to_nat count) (buffer p) in
              let p :=
                if len (buffer p) =? count then set_buffer [] p
                else set_buffer (skipn (Z.to_nat count) (buffer p)) p in
              Done (p, b, Some tmp)
          else collectFresh b count p
      end
  end.

Definition getUint (width : Z) (b : list byte) (p : Parser)
  : outcome (Parser * list byte * bool * Z) :=
  '(p, b, tmp) <- collect b width p ;;
  match tmp with
  | None => Done (p, [], false, 0)
  | Some tmp => Done (p, b, true, bigEndian tmp)
  end.

Definition getUint16 := getUint 2.
Definition getUint32 := getUint 4.
Definition getUint64 := getUint 8.

(** The shared shape of [stepUint] and [stepNeg]: [ev8] .. [ev64] build the
    event from the unsigned value read. *)
Definition stepInt (ev8 ev16 ev32 ev64 : Z -> event) (b : list byte)
  (p : Parser) : outcome (Parser * list byte * bool * option error) :=
  let m := minor (cur p) in
  '(p, b, done, e) <-
    (if m =? len8b then
       match b with
       | [] => Panic
       | c :: b' =>
           let '(p, e) := emit (ev8 (byteZ c)) p in Done (p, b', true, e)
       end
     else
       let wide (width : Z) (ev : Z -> event) :=
         '(p, b, done, v) <- getUint width b p ;;
         if done : bool then
           let '(p, e) := emit (ev v) p in Done (p, b, done, e)
         else Done (p, b, done, None) in
       if m =? len16b then wide 2 ev16
       else if m =? len32b then wide 4 ev32
       else if m =? len64b then wide 8 ev64
       else Done (p, b, false, None)) ;;
  if (done : bool) && negb (is_some e) then
    let '(p, done) := popState p in Done (p, b, done, e)
  else Done (p, b, done, e).

Definition stepUint := stepInt OnUint8 OnUint16 OnUint32 OnUint64.

Definition stepNeg :=
  stepInt (fun v => OnInt8 (toSigned 8 (lnot 8 v)))
          (fun v => OnInt16 (toSigned 16 (lnot 16 v)))
          (fun v => OnInt32 (toSigned 32 (lnot 32 v)))
          (fun v => OnInt64 (toSigned 64 (lnot 64 v))).

(** [stepSingleFloat] and [stepDoubleFloat] pass their result variable [b],
    which is [nil] at that point, to [getUint32] and [getUint64]; the
    parameter [in] is not used. *)
Definition stepFloat (width : Z) (ev : Z -> event) (input : list byte)
  (p : Parser) : outcome (Parser * list byte * bool * option error) :=
  '(p, b, done, tmp) <- getUint width [] p ;;
  if done : bool then
    let '(p, e) := emit (ev tmp) p in Done (p, b, done, e)
  else Done (p, b, done, None).

Definition stepSingleFloat := stepFloat 4 OnFloat32.
Definition stepDoubleFloat := stepFloat 8 OnFloat64.

Definition initByteSeq (major minor : Z) (b : list byte) (p : Parser)
  : Parser * list byte * bool * option error :=
  if minor <? len8b then
    (lpush minor (push (mkState major stStart) p), b, false, None)
  else
    (push (mkState stLen minor) (push (mkState major stStart) p),
     b, false, None).

Definition initSub (major minor : Z) (b : list byte) (p : Parser)
  : Parser * list byte * bool * option error :=
  if minor =? lenIndef then
    (push (mkState (Z.lor (Z.lor major stStartX) stIndef) stStart)
       (push (mkState (Z.lor major stIndef) stStart) p),
     b, false, None)
  else if minor <? len8b then
    (lpush minor
       (push (mkState (Z.lor major stStartX) stStart)
          (push (mkState major stStart) p)),
     b, false, None)
  else
    (push (mkState stLen minor)
       (push (mkState (Z.lor major stStartX) stStart)
          (push (mkState major stStart) p)),
     b, false, None).

(** A value delivered at once: the event, then [onValue]. *)
Definition simpleValue (ev : event) (b' : list byte) (p : Parser)
  : Parser * list byte * bool * option error :=
  let '(p, e) := emit ev p in
  let '(p, done) := onValue p in
  (p, b', done, e).

Definition stepValue (b : list byte) (p : Parser)
  : outcome (Parser * list byte * bool * option error) :=
  match b with
  | [] => Panic
  | c :: b' =>
      let b0 := byteZ c in
      let major := Z.land b0 majorMask in
      let minor := Z.land b0 minorMask in
      if major =? majorUint then
        if b0 <? len8b then Done (simpleValue (OnUint8 b0) b' p)
        else Done (push (mkState major minor) p, b', false, None)
      else if major =? majorNeg then
        if minor <? len8b
        then Done (simpleValue (OnInt8 (toSigned 8 (lnot 8 minor))) b' p)
        else Done (push (mkState major minor) p, b', false, None)
      else if (major =? majorBytes) || (major =? majorText) then
        if minor =? lenIndef then Done (p, [], false, Some errIndefByteSeq)
        else Done (initByteSeq major minor b' p)
      else if (major =? majorArr) || (major =? majorMap) then
        Done (initSub major minor b' p)
      else if major =? majorTag then Done (p, [], false, Some errTODO)
      else if b0 =? codeFalse then Done (simpleValue (OnBool false) b' p)
      else if b0 =? codeTrue then Done (simpleValue (OnBool true) b' p)
      else if (b0 =? codeNull) || (b0 =? codeUndef)
      then Done (simpleValue OnNil b' p)
      else if b0 =? codeHalfFloat then Done (p, b', false, Some errTODO)
      else if (b0 =? codeSingleFloat) || (b0 =? codeDoubleFloat)
      then Done (push (mkState b0 stStart) p, b', false, None)
      else Done (p, [], false, Some errInvalidCode)
  end.

(** The loop of [stepBytes] over [b[:L]]: it stops at the first error. *)
Fixpoint visitBytes (l : list byte) (p : Parser) : Parser * option error :=
  match l with
  | [] => (p, None)
  | c :: l' =>
      let '(p, e) := emit (OnByte c) p in
      match e with
      | Some e => (p, Some e)
      | None => visitBytes l' p
      end
  end.

Definition stepBytes (b : list byte) (p : Parser)
  : outcome (Parser * list byte * bool * option error) :=
  let '(p, e) :=
    if minor (cur p) =? stStart then
      let '(p, e) := emit (OnArrayStart (lenCur p) ByteType) p in
      match e with
      | Some e => (p, Some e)
      | None => (set_cur (mkState (major (cur p)) stCont) p, None)
      end
    else (p, None) in
  match e with
  | Some e => Done (p, [], false, Some e)
  | None =>
      let L := lenCur p in
      let done := L <=? len b in
      let '(L, p) :=
        if done then (L, p)
        else (len b, set_lenCur (wrap64 (lenCur p - len b)) p) in
      if L <? 0 then Panic else
      let '(p, e) := visitBytes (firstn (Z.to_nat L) b) p in
      match e with
      | Some e => Done (p, [], false, Some e)
      | None =>
          let b := skipn (Z.to_nat L) b in
          if done then
            let '(p, e) := emit OnArrayFinished p in
            let p := lpop p in
            match e with
            | Some e => Done (p, b, done, Some e)
            | None => let '(p, done) := popState p in Done (p, b, done, None)
            end
          else Done (p, b, done, None)
      end
  end.

(** The two halves of [stepBytes], for reasoning about a byte string that is
    delivered over several calls: the start of the string, done once, and
    the delivery of the bytes at hand. *)
Definition bytesStart (p : Parser) : Parser * option error :=
  if minor (cur p) =? stStart then
    let '(p, e) := emit (OnArrayStart (lenCur p) ByteType) p in
    match e with
    | Some e => (p, Some e)
    | None => (set_cur (mkState (major (cur p)) stCont) p, None)
    end
  else (p, None).

Definition bytesBody (b : list byte) (p : Parser)
  : outcome (Parser * list byte * bool * option error) :=
  let L := lenCur p in
  let done := L <=? len b in
  let '(L, p) :=
    if done then (L, p)
    else (len b, set_lenCur (wrap64 (lenCur p - len b)) p) in
  if L <? 0 then Panic else
  let '(p, e) := visitBytes (firstn (Z.to_nat L) b) p in
  match e with
  | Some e => Done (p, [], false, Some e)
  | None =>
      let b := skipn (Z.to_nat L) b in
      if done then
        let '(p, e) := emit OnArrayFinished p in
        let p := lpop p in
        match e with
        | Some e => Done (p, b, done, Some e)
        | None => let '(p, done) := popState p in Done (p, b, done, None)
        end
      else Done (p, b, done, None)
  end.

Definition stepText (b : list byte) (p : Parser)
  : outcome (Parser * list byte * bool * option error) :=
  '(p, b, tmp) <- collect b (lenCur p) p ;;
  match tmp with
  | None => Done (p, [], false, None)
  | Some tmp =>
      let '(p, e) := emit (OnStringRef tmp) p in
      match e with
      | Some e => Done (p, b, true, Some e)
      | None => let '(p, done) := popState p in Done (p, b, done, None)
      end
  end.

Definition initMapKey (b : list byte) (p : Parser)
  : outcome (Parser * list byte * bool * option error) :=
  match b with
  | [] => Panic
  | c :: b' =>
      let major := Z.land (byteZ c) majorMask in
      if negb (major =? majorText)
      then Done (p, [], false, Some errTextKeyRequired)
      else
        let minor := Z.land (byteZ c) minorMask in
        if minor =? lenIndef then Done (p, [], false, Some errIndefByteSeq)
        else Done (initByteSeq stKey minor b' p)
  end.

(** [stepArray] and [stepMap] differ in the finishing event and in the
    continuation. *)
Definition stepAggregate (fin : event)
  (next : list byte -> Parser
          -> outcome (Parser * list byte * bool * option error))
  (b : list byte) (p : Parser)
  : outcome (Parser * list byte * bool * option error) :=
  if lenCur p =? 0 then
    let '(p, e) := emit fin p in
    match e with
    | Some e => Done (p, [], false, Some e)
    | None => let '(p, done) := popState (lpop p) in Done (p, b, done, None)
    end
  else next b p.

Definition stepArray := stepAggregate OnArrayFinished stepValue.
Definition stepMap := stepAggregate OnObjectFinished initMapKey.

Definition stepKey (b : list byte) (p : Parser)
  : outcome (Parser * list byte * bool * option error) :=
  '(p, b, tmp) <- collect b (lenCur p) p ;;
  match tmp with
  | None => Done (p, [], false, None)
  | Some tmp =>
      let '(p, e) := emit (OnKeyRef tmp) p in
      match e with
      | Some e => Done (p, b, false, Some e)
      | None =>
          Done (set_cur (mkState stElem (minor (cur p))) (lpop p),
                b, false, None)
      end
  end.

Definition stepLen (b : list byte) (p : Parser)
  : outcome (Parser * list byte) :=
  let m := minor (cur p) in
  '(p, b, done) <-
    (if m =? len8b then
       match b with
       | [] => Panic
       | c :: b' => Done (lpush (byteZ c) p, b', true)
       end
     else
       let wide (width : Z) (conv : Z -> Z) :=
         '(p, b, done, v) <- getUint width b p ;;
         if done : bool then Done (lpush (conv v) p, b, done)
         else Done (p, b, done) in
       if m =? len16b then wide 2 (fun v => v)
       else if m =? len32b then wide 4 (fun v => v)
       else if m =? len64b then wide 8 (toSigned 64)
       else Done (p, b, false)) ;;
  if done : bool then Done (pop p, b) else Done (p, b).

(** The arms of [execStep] that open an aggregate: the start event, then the
    arm they fall through to. *)
Definition startThen (ev : event)
  (next : list byte -> Parser
          -> outcome (Parser * list byte * bool * option error))
  (b : list byte) (p : Parser)
  : outcome (Parser * list byte * bool * option error) :=
  let '(p, e) := emit ev p in
  match e with
  | Some e => Done (p, b, false, Some e)
  | None => next b (pop p)
  end.

(** The arms for an indefinite-length array or map. *)
Definition stepIndef (fin : event)
  (next : list byte -> Parser
          -> outcome (Parser * list byte * bool * option error))
  (b : list byte) (p : Parser)
  : outcome (Parser * list byte * bool * option error) :=
  match b with
  | [] => Panic
  | c :: b' =>
      if byteZ c =? codeBreak then
        let '(p, e) := emit fin p in
        let '(p, done) := popState p in
        Done (p, b', done, e)
      else next b p
  end.

Definition execStep (b : list byte) (p : Parser)
  : outcome (Parser * list byte * bool * option error) :=
  let m := major (cur p) in
  if m =? stFail then Done (p, b, false, err p)
  else if m =? stValue then stepValue b p
  else if m =? stLen then
    '(p, b) <- stepLen b p ;; Done (p, b, false, None)
  else if m =? majorUint then stepUint b p
  else if m =? majorNeg then stepNeg b p
  else if m =? codeSingleFloat then stepSingleFloat b p
  else if m =? codeDoubleFloat then stepDoubleFloat b p
  else if m =? majorBytes then stepBytes b p
  else if m =? majorText then stepText b p
  else if m =? stStartArr
  then startThen (OnArrayStart (lenCur p) AnyType) stepArray b p
  else if m =? majorArr then stepArray b p
  else if m =? stStartIndefArr
  then startThen (OnArrayStart (-1) AnyType)
         (stepIndef OnArrayFinished stepValue) b p
  else if m =? stIndefArr then stepIndef OnArrayFinished stepValue b p
  else if m =? stStartMap
  then startThen (OnObjectStart (lenCur p) AnyType) stepMap b p
  else if m =? majorMap then stepMap b p
  else if m =? stStartIndefMap
  then startThen (OnObjectStart (-1) AnyType)
         (stepIndef OnObjectFinished initMapKey) b p
  else if m =? stIndefMap then stepIndef OnObjectFinished initMapKey b p
  else if m =? stKey then stepKey b p
  else if m =? stElem then stepValue b (pop p)
  else Done (p, b, false, Some errTODO).

(** The loop of [feedUntil]. *)
Fixpoint feedUntil_loop (fuel : nat) (b : list byte) (p : Parser)
  : outcome (Parser * list byte * bool * option error) :=
  match fuel with
  | O => OutOfFuel
  | S fuel =>
      '(p, b, done, e) <- execStep b p ;;
      if (len b =? 0) || (done : bool) || is_some e
      then Done (p, b, done, e)
      else feedUntil_loop fuel b p
  end.

(** [feedUntil] returns the number of bytes consumed. *)
Definition feedUntil (fuel : nat) (b : list byte) (p : Parser)
  : outcome (Parser * Z * bool * option error) :=
  '(p, b', done, e) <- feedUntil_loop fuel b p ;;
  Done (p, len b - len b', done, e).

(** What a call of [feed] leaves behind: the parser, the bytes of the
    fragment that were not consumed and the returned error. *)
Record result := mkResult {
  st : Parser;
  rest : list byte;
  ret : option error
}.

(** [feed]: [b = b[n:]] panics when [n] is out of range. *)
Fixpoint feed (fuel : nat) (p : Parser) (b : list byte) : outcome result :=
  match b with
  | [] => Done (mkResult p b None)
  | _ :: _ =>
      match fuel with
      | O => OutOfFuel
      | S fuel' =>
          '(p, n, _, e) <- feedUntil fuel b p ;;
          match e with
          | Some e => Done (mkResult p b (Some e))
          | None =>
              if (n <? 0) || (len b <? n) then Panic
              else feed fuel' p (skipn (Z.to_nat n) b)
          end
      end
  end.

(** [numBytes]: the shift is done in [uint8], as is the subtraction. *)
Definition numBytes (code : Z) : Z :=
  Z.shiftl 1 ((Z.land code minorMask - len8b) mod 256) mod 256.

(** The two nested loops of [feed] and [feedUntil] seen as one: [execStep]
    is repeated until the fragment is used up or an error is returned. *)
Fixpoint run (fuel : nat) (p : Parser) (b : list byte)
  : outcome (Parser * option error) :=
  match b with
  | [] => Done (p, None)
  | _ :: _ =>
      match fuel with
      | O => OutOfFuel
      | S fuel =>
          '(p, b, _, e) <- execStep b p ;;
          match e with
          | Some e => Done (p, Some e)
          | None => run fuel p b
          end
      end
  end.

(** Feeding a list of fragments in stream order; the first error stops the
    run. *)
Fixpoint feed_all (fuel : nat) (p : Parser) (frags : list (list byte))
  : outcome result :=
  match frags with
  | [] => Done (mkResult p [] None)
  | f :: fs =>
      r <- feed fuel p f ;;
      match ret r with
      | Some _ => Done r
      | None => feed_all fuel (st r) fs
      end
  end.

Definition Write (fuel : nat) (p : Parser) (b : list byte)
  : outcome (Parser * Z * option error) :=
  r <- feed fuel p b ;;
  let p := set_err (ret r) (st r) in
  match ret r with
  | Some e => Done (p, 0, Some e)
  | None => Done (p, len b, None)
  end.

Definition Parse (fuel : nat) (p : Parser) (b : list byte)
  : outcome (Parser * option error) :=
  r <- feed fuel p b ;; Done (st r, ret r).

End WithVisitor.

(** [b'] is what is left of [b] after some bytes have been consumed. *)
Definition suffix (b' b : list byte) : Prop := exists pre, b = pre ++ b'.

(** ** The carry buffer between two calls of feed *)

(** The range of the type [int] of a length. *)
Definition in64 (z : Z) : Prop := - 2 ^ 63 <= z < 2 ^ 63.

(** The number of bytes announced by the minors 25 to 27. *)
Definition width_of (m : Z) : option Z :=
  if m =? len16b then Some 2
  else if m =? len32b then Some 4
  else if m =? len64b then Some 8
  else None.

(** The number of bytes [collect] is asked for in the current state, if the
    state is one that calls it with the input. *)
Definition pending (p : Parser) : option Z :=
  let m := major (cur p) in
  if (m =? stLen) || (m =? majorUint) || (m =? majorNeg)
  then width_of (minor (cur p))
  else if (m =? majorText) || (m =? stKey) then Some (lenCur p)
  else None.

Definition lens_ok (p : Parser) : Prop :=
  in64 (lenCur p) /\ Forall in64 (lstack (length_ p)).

(** The carry buffer is empty unless the current state collects a field and
    has not yet seen all of its bytes. *)
Definition buf_ok (p : Parser) : Prop :=
  buffer p = [] \/
  exists count, pending p = Some count /\ len (buffer p) < count.

Definition inv (p : Parser) : Prop := lens_ok p /\ buf_ok p.

(** A state change that leaves the carry buffer alone and keeps the lengths
    in range. *)
Definition quiet (p p' : Parser) : Prop :=
  buffer p' = buffer p /\ (lens_ok p -> lens_ok p').


(** ** Notions used in the statements about arrays *)

(** The events of a sequence of integers held in their leading bytes. *)
Definition uint8_events (l : list byte) : list event :=
  map (fun c => OnUint8 (byteZ c)) l.

(** The parser [p], inside a definite-length array, after the elements [l]
    have been delivered. *)
Definition after_elements (l : list byte) (p : Parser) : Parser :=
  set_lenCur (lenCur p - len l) (set_trace (trace p ++ uint8_events l) p).

End Cborl.

(** * Outcomes *)

Lemma bind_done {A B} (m : outcome A) (k : A -> outcome B) (x : B) :
  bind m k = Done x -> exists a, m = Done a /\ k a = Done x.
Proof. destruct m; simpl; try discriminate. eauto. Qed.

Ltac inv_done H :=
  match type of H with
  | Done _ = Done _ => injection H; clear H; intros; subst
  | Panic = Done _ => discriminate H
  | OutOfFuel = Done _ => discriminate H
  end.

(** * Properties of the text decoder *)

Module JsonProofs.
Import Json.

#[local] Arguments popState : simpl never.

Lemma byte_eqb_eq (x y : byte) : Byte.eqb x y = true <-> x = y.
Proof.
  split; [apply Byte.byte_dec_bl | apply Byte.byte_dec_lb].
Qed.

Lemma state_eqb_eq (a b : state) : state_eqb a b = true <-> a = b.
Proof.
  split; [destruct a, b; simpl; congruence | intros ->; destruct b; reflexivity].
Qed.

(** ** White space *)

Lemma trimLeft_length (b : list byte) :
  (length (trimLeft b) <= length b)%nat.
Proof.
  induction b as [|c b IH]; simpl; [lia|].
  destruct (isSpace c); simpl; lia.
Qed.

Lemma trimLeft_cons (b : list byte) (c : byte) (b1 : list byte) :
  trimLeft b = c :: b1 ->
  isSpace c = false /\ (length b1 < length b)%nat.
Proof.
  induction b as [|x b IH]; simpl; [discriminate|].
  destruct (isSpace x) eqn:Hx.
  - intros H. destruct (IH H) as [H1 H2]. split; [assumption | lia].
  - intros H. injection H as -> ->. split; [assumption | lia].
Qed.

Lemma trimLeft_all_space (b : list byte) :
  forallb isSpace b = true -> trimLeft b = [].
Proof.
  induction b as [|c b IH]; simpl; [reflexivity|].
  destruct (isSpace c); simpl; [assumption | discriminate].
Qed.

Lemma trimLeft_app (b1 b2 : list byte) :
  trimLeft (b1 ++ b2) =
  match trimLeft b1 with
  | [] => trimLeft b2
  | c :: r => c :: r ++ b2
  end.
Proof.
  induction b1 as [|c b1 IH]; simpl; [reflexivity|].
  destruct (isSpace c); [assumption | reflexivity].
Qed.

(** ** The scanning loops *)

Lemma scanNumber_stop (b : list byte) :
  forall isD i d stop,
  scanNumber isD b i = (d, Some stop) ->
  (i <= stop < i + length b)%nat.
Proof.
  induction b as [|c b IH]; simpl; intros isD i d stop H; [discriminate|].
  destruct (isStopChar c).
  - injection H as _ <-. lia.
  - apply IH in H. lia.
Qed.

Lemma scanNumber_shift (b : list byte) :
  forall isD i,
  scanNumber isD b (S i) =
  (fst (scanNumber isD b i), option_map S (snd (scanNumber isD b i))).
Proof.
  induction b as [|c b IH]; simpl; intros isD i; [reflexivity|].
  destruct (isStopChar c); [reflexivity | apply IH].
Qed.

Lemma scanString_shift (b : list byte) :
  forall esc i,
  scanString esc b (S i) =
  (fst (scanString esc b i), option_map S (snd (scanString esc b i))).
Proof.
  induction b as [|c b IH]; simpl; intros esc i; [reflexivity|].
  destruct esc; [apply IH|].
  destruct (Byte.eqb c dquote); [reflexivity | apply IH].
Qed.

Lemma scanString_stop (b : list byte) :
  forall esc i e stop,
  scanString esc b i = (e, Some stop) ->
  (i <= stop < i + length b)%nat.
Proof.
  induction b as [|c b IH]; simpl; intros esc i e stop H; [discriminate|].
  destruct esc.
  - apply IH in H. lia.
  - destruct (Byte.eqb c dquote).
    + injection H as _ <-. lia.
    + apply IH in H. lia.
Qed.


(** ** Well-formedness is preserved and every step makes progress *)

Section Progress.

Variable vs : Visitor.
Variable ParseFloat : list byte -> Z + error.
Variable Unmarshal : list byte -> list byte * option error.

(** The result of a step started with input of length [n]: a well-formed
    parser and, unless an error is returned or the input is used up, either
    less input or, when [strict] is off, no more input and a state that
    consumes. *)
Definition post (n : nat) (strict : bool)
  (o : outcome (Parser * list byte * option error)) : Prop :=
  exists p' b' e,
    o = Done (p', b', e) /\ wf p' = true /\
    (e = None -> b' <> [] ->
     (length b' < n)%nat \/
     (strict = false /\ (length b' <= n)%nat
      /\ lookahead (currentState p') = false)).

Lemma post_weaken n m s o : post n s o -> (n <= m)%nat -> post m s o.
Proof.
  intros (p' & b' & e & -> & Hwf & H) Hle.
  exists p', b', e. repeat split; try assumption.
  intros He Hb. destruct (H He Hb) as [H1 | (H1 & H2 & H3)]; [left; lia|].
  right. repeat split; try assumption. lia.
Qed.

Lemma post_strict n m s o : post n s o -> (n < m)%nat -> post m true o.
Proof.
  intros (p' & b' & e & -> & Hwf & H) Hlt.
  exists p', b', e. repeat split; try assumption.
  intros He Hb. left. destruct (H He Hb) as [H1 | (H1 & H2 & H3)]; lia.
Qed.

Lemma stack_ok_pop (s : state) (l : list state) :
  stack_ok (s :: l) = true ->
  (l = [] /\ s = startState) \/ (frame_ok s = true /\ stack_ok l = true).
Proof.
  simpl. destruct l as [|x l].
  - intros H. left. split; [reflexivity|]. now apply state_eqb_eq.
  - intros H. right. now apply andb_prop in H.
Qed.

Lemma popState_wf (p : Parser) :
  stack_ok (states p) = true ->
  wf (popState p) = true /\ lookahead (currentState (popState p)) = false.
Proof.
  destruct p as [er sts cs lb isd esc req tr]. unfold popState. simpl.
  destruct sts as [|s l]; [discriminate|].
  intros H. destruct (stack_ok_pop _ _ H) as [[-> ->] | [H1 H2]].
  - split; reflexivity.
  - destruct s; try discriminate; unfold wf; simpl; split; auto.
Qed.

Lemma wf_set_trace (t : list event) (p : Parser) :
  wf (set_trace t p) = wf p.
Proof. destruct p; reflexivity. Qed.

Lemma currentState_set_trace (t : list event) (p : Parser) :
  currentState (set_trace t p) = currentState p.
Proof. destruct p; reflexivity. Qed.

(** A return state of [stepValue] together with the stack it was reached
    with. *)
Definition ret_ok (retState : state) (sts : list state) : bool :=
  match retState with
  | startState => match sts with [] => true | _ :: _ => false end
  | dictFieldStateEnd | arrStateNext => stack_ok sts
  | _ => false
  end.

Lemma ret_ok_push (retState : state) (sts : list state) :
  ret_ok retState sts = true ->
  stack_ok (retState :: sts) = true /\ state_eqb retState failedState = false.
Proof.
  destruct retState; simpl; try discriminate;
    destruct sts; simpl; try discriminate; auto.
Qed.

Lemma ret_ok_wf (retState : state) (p : Parser) :
  ret_ok retState (states p) = true ->
  wf (set_currentState retState p) = true.
Proof.
  destruct p as [er sts cs lb isd esc req tr].
  destruct retState; simpl; try discriminate; auto.
Qed.

Lemma stepNumber_post (b : list byte) (p : Parser) :
  currentState p = numberState -> stack_ok (states p) = true ->
  post (length b) false (Done (stepNumber vs ParseFloat b p))
  /\ (forall c b1, b = c :: b1 -> isStopChar c = false ->
      post (length b) true (Done (stepNumber vs ParseFloat b p))).
Proof.
  intros Hcs Hst. unfold stepNumber.
  destruct (scanNumber (isDouble p) b 0) as [isD [stop|]] eqn:Hscan.
  - pose proof (scanNumber_stop _ _ _ _ _ Hscan) as Hstop.
    set (q := set_isDouble isD p).
    set (pr := match literalBuffer q with
               | [] => (firstn stop b, q)
               | _ :: _ => (literalBuffer q ++ firstn stop b,
                            set_literalBuffer [] q)
               end).
    assert (Hq : stack_ok (states (snd pr)) = true).
    { subst pr q. destruct p as [er sts cs lb isd esc req tr]; simpl in *.
      destruct lb; simpl; assumption. }
    destruct pr as [lit q1]. simpl in Hq.
    destruct (reportNumber vs ParseFloat lit (isDouble q1) q1) as [q2 e] eqn:Hr.
    assert (Hq2 : stack_ok (states q2) = true).
    { unfold reportNumber in Hr.
      destruct (isDouble q1);
        [destruct (ParseFloat lit) | destruct (ParseInt lit)];
        injection Hr as <- _; destruct q1; assumption. }
    destruct (popState_wf _ Hq2) as [Hw Hl].
    split.
    + exists (popState q2), (skipn stop b), e. repeat split; auto.
      intros _ _. right. repeat split; auto. rewrite length_skipn. lia.
    + intros c b1 -> Hc. exists (popState q2), (skipn stop (c :: b1)), e.
      repeat split; auto. intros _ _. left.
      simpl in Hscan. rewrite Hc in Hscan.
      apply scanNumber_stop in Hscan. rewrite length_skipn.
      cbn [length] in *. lia.
  - assert (H : post (length b) true
                  (Done (set_literalBuffer (literalBuffer (set_isDouble isD p) ++ b)
                           (set_isDouble isD p), @nil byte, @None error))).
    { eexists _, _, _. split; [reflexivity|]. split.
      - destruct p as [er sts cs lb isd esc req tr]; simpl in *.
        subst cs. assumption.
      - intros _ Hb. now contradiction Hb. }
    split; [|intros; assumption].
    destruct H as (p' & b' & e & Heq & Hwf & H).
    exists p', b', e. repeat split; auto.
    intros He Hb. destruct (H He Hb) as [H1 | (H1 & _)];
      [left; assumption | discriminate].
Qed.

Lemma wf_same (p q : Parser) :
  states q = states p -> currentState q = currentState p ->
  required q = required p -> wf q = wf p.
Proof. unfold wf. intros -> -> ->. reflexivity. Qed.

Lemma stepLiteral_post (kind : list byte) (er : error) (ev : event)
  (b : list byte) (p : Parser) :
  wf p = true -> literal_state (currentState p) = true ->
  (required p <= length kind)%nat ->
  post (length b) true (stepLiteral vs kind er ev b p).
Proof.
  intros Hwf Hlit Hreq. unfold stepLiteral, stepKind.
  assert (Hst : stack_ok (states p) = true /\ (1 <= required p)%nat).
  { unfold wf in Hwf. destruct (currentState p); try discriminate;
      apply andb_prop in Hwf as [Hwf _]; apply andb_prop in Hwf as [H1 H2];
      apply Nat.leb_le in H2; auto. }
  destruct Hst as [Hst Hge].
  destruct (Nat.ltb_spec (length kind) (required p)) as [?|_]; [lia|].
  destruct (Nat.ltb_spec (length b) (required p)) as [Hlt|Hle].
  - set (q := set_required (required p - length b) p).
    assert (Hq : wf q = true).
    { subst q. unfold wf in *. destruct p as [e0 sts cs lb isd esc req tr].
      cbn [currentState states required set_required] in *.
      destruct cs; try discriminate;
        apply andb_prop in Hwf as [Hwf H3]; apply andb_prop in Hwf as [H1 H2];
        apply Nat.leb_le in H2, H3; rewrite H1; cbn [andb];
        apply andb_true_intro; split; apply Nat.leb_le; lia. }
    destruct (hasPrefix b _); simpl.
    + exists q, (skipn (length b) b), None. repeat split; auto.
      intros _ Hb. rewrite skipn_all in Hb. now contradiction Hb.
    + exists q, b, (Some er). repeat split; auto; try discriminate.
  - destruct (hasPrefix b _); simpl.
    + destruct (popState_wf _ Hst) as [Hw Hl].
      eexists _, _, _. split; [reflexivity|]. split.
      * now rewrite wf_set_trace.
      * intros _ _. left. rewrite length_skipn. lia.
    + exists p, b, (Some er). repeat split; auto; try discriminate.
Qed.

Lemma doString_cases (b : list byte) (p : Parser) :
  b <> [] ->
  exists p' str done r e,
    doString Unmarshal b p = Done (p', str, done, r, e)
    /\ states p' = states p /\ currentState p' = currentState p
    /\ required p' = required p
    /\ (done = false -> r = [] /\ e = None)
    /\ (done = true -> (length r < length b)%nat).
Proof.
  intros Hb. unfold doString.
  set (sel := if match literalBuffer p with [] => true | _ => false end
              then match b with [] => None | _ :: b' => Some (2%nat, b') end
              else Some (1%nat, b)).
  assert (Hsel : exists delta buf, sel = Some (delta, buf)
                 /\ (1 <= delta)%nat).
  { subst sel. destruct (literalBuffer p); [|eexists _, _; split; eauto].
    destruct b; [now contradiction Hb|]. eexists _, _; split; eauto. }
  destruct Hsel as (delta & buf & -> & Hdelta).
  destruct (scanString (inEscape p) buf 0) as [esc [i|]] eqn:Hscan.
  - set (q := set_inEscape esc p).
    set (pr := match literalBuffer q with
               | [] => (firstn (i + delta) b, q)
               | _ :: _ => (literalBuffer q ++ firstn (i + delta) b,
                            set_literalBuffer [] q)
               end).
    assert (Hpr : states (snd pr) = states p
                  /\ currentState (snd pr) = currentState p
                  /\ required (snd pr) = required p).
    { subst pr q. destruct p as [e0 sts cs lb isd es req tr]. simpl.
      destruct lb; simpl; auto. }
    destruct pr as [lit q1]. simpl in Hpr. destruct Hpr as (H1 & H2 & H3).
    destruct (Unmarshal lit) as [str e].
    exists q1, str, true, (skipn (i + delta) b), e. repeat split; auto.
    + discriminate.
    + discriminate.
    + intros _. rewrite length_skipn. destruct b; [now contradiction Hb|].
      cbn [length]. lia.
  - eexists _, _, _, _, _. split; [reflexivity|].
    destruct p as [e0 sts cs lb isd es req tr]. simpl.
    repeat split; auto; try discriminate.
Qed.

Lemma stepString_post (b : list byte) (p : Parser) :
  b <> [] -> currentState p = stringState -> stack_ok (states p) = true ->
  post (length b) true (stepString vs Unmarshal b p).
Proof.
  intros Hb Hcs Hst. unfold stepString.
  destruct (doString_cases b p Hb)
    as (p' & str & done & r & e & -> & H1 & H2 & H3 & Hnd & Hd).
  simpl.
  assert (Hwf : wf p' = true).
  { rewrite (wf_same p p') by assumption. unfold wf. now rewrite Hcs. }
  destruct done; simpl.
  - destruct e as [e|]; simpl.
    + exists p', r, (Some e). repeat split; auto; try discriminate.
    + rewrite <- H1 in Hst. destruct (popState_wf _ Hst) as [Hw Hl].
      eexists _, _, _. split; [reflexivity|]. split.
      * now rewrite wf_set_trace.
      * intros _ _. left. auto.
  - destruct (Hnd eq_refl) as [-> ->].
    exists p', [], None. repeat split; auto.
    all: intros _ H; now contradiction H.
Qed.

Lemma stepDictKey_post (b : list byte) (p : Parser) :
  b <> [] -> currentState p = dictFieldState -> stack_ok (states p) = true ->
  post (length b) true (stepDictKey vs Unmarshal b p).
Proof.
  intros Hb Hcs Hst. unfold stepDictKey.
  destruct (doString_cases b p Hb)
    as (p' & str & done & r & e & -> & H1 & H2 & H3 & Hnd & Hd).
  simpl.
  assert (Hwf : wf p' = true).
  { rewrite (wf_same p p') by assumption. unfold wf. now rewrite Hcs. }
  destruct done; simpl.
  - destruct e as [e|]; simpl.
    + exists p', r, (Some e). repeat split; auto; try discriminate.
    + eexists _, r, _. split; [reflexivity|]. split.
      * destruct p' as [e0 sts cs lb isd es req tr]. unfold wf.
        simpl in *. congruence.
      * intros _ _. left. auto.
  - destruct (Hnd eq_refl) as [-> ->].
    exists p', [], None. repeat split; auto.
    all: intros _ H; now contradiction H.
Qed.

Lemma number_start_not_stop (c : byte) :
  Byte.eqb c "-"%byte || Byte.eqb c "+"%byte || Byte.eqb c "."%byte
  || isDigit c = true ->
  isStopChar c = false.
Proof. destruct c; vm_compute; congruence. Qed.

Lemma pushState_ret (next retState : state) (p : Parser) :
  ret_ok retState (states p) = true ->
  pushState next (set_currentState retState p) =
  set_currentState next (set_states (retState :: states p) p).
Proof.
  intros H. destruct (ret_ok_push _ _ H) as [_ Hf].
  destruct p as [e0 sts cs lb isd es req tr]. unfold pushState. simpl in *.
  rewrite Hf. reflexivity.
Qed.

Lemma pushState_nf (next : state) (q : Parser) :
  state_eqb (currentState q) failedState = false ->
  pushState next q =
  set_currentState next (set_states (currentState q :: states q) q).
Proof. intros H. unfold pushState. now rewrite H. Qed.

Ltac post_done :=
  eexists _, _, _; split; [reflexivity|]; split.

Lemma stepValue_post (b : list byte) (retState : state) (p : Parser) :
  wf p = true -> ret_ok retState (states p) = true ->
  post (length b) true (stepValue vs ParseFloat Unmarshal b retState p).
Proof.
  intros Hwf Hret. unfold stepValue.
  pose proof (trimLeft_length b) as Hlen.
  destruct (trimLeft b) as [|c b1] eqn:Ht.
  { post_done; [assumption | intros _ H; now contradiction H]. }
  destruct (trimLeft_cons _ _ _ Ht) as [_ Hlt].
  destruct (ret_ok_push _ _ Hret) as [Hpush Hnf].
  cbn [length] in Hlen.
  destruct (Byte.eqb c "{"%byte).
  { rewrite pushState_ret by assumption. post_done.
    - destruct p; exact Hpush.
    - intros _ _. left. exact Hlt. }
  destruct (Byte.eqb c "["%byte).
  { rewrite pushState_ret by assumption. post_done.
    - destruct p; exact Hpush.
    - intros _ _. left. exact Hlt. }
  destruct (Byte.eqb c "n"%byte).
  { rewrite pushState_ret by assumption.
    apply post_weaken with (n := length b1); [|lia].
    apply stepLiteral_post; destruct p; simpl; auto.
    unfold wf; simpl. simpl in Hpush. now rewrite Hpush. }
  destruct (Byte.eqb c "f"%byte).
  { rewrite pushState_ret by assumption.
    apply post_weaken with (n := length b1); [|lia].
    apply stepLiteral_post; destruct p; simpl; auto.
    unfold wf; simpl. simpl in Hpush. now rewrite Hpush. }
  destruct (Byte.eqb c "t"%byte).
  { rewrite pushState_ret by assumption.
    apply post_weaken with (n := length b1); [|lia].
    apply stepLiteral_post; destruct p; simpl; auto.
    unfold wf; simpl. simpl in Hpush. now rewrite Hpush. }
  destruct (Byte.eqb c dquote).
  { apply post_weaken with (n := length (c :: b1)); [|cbn [length]; lia].
    rewrite pushState_nf by (destruct p; exact Hnf).
    apply stepString_post; [discriminate | destruct p; reflexivity |].
    destruct p; exact Hpush. }
  match goal with
  | |- context [negb ?x] => destruct x eqn:Hnum
  end; cbn [negb].
  - apply post_weaken with (n := length (c :: b1)); [|cbn [length]; lia].
    rewrite pushState_nf by (destruct p; exact Hnf).
    eapply stepNumber_post; [destruct p; reflexivity | destruct p; exact Hpush
                            | reflexivity |].
    now apply number_start_not_stop.
  - post_done; [now apply ret_ok_wf | discriminate].
Qed.

Lemma endDict_post (c : byte) (b1 : list byte) (p : Parser) (n : nat) :
  stack_ok (states p) = true -> (length b1 < n)%nat ->
  post n true (Done (endDict vs (c :: b1) p)).
Proof.
  intros Hst Hlt. destruct (popState_wf _ Hst) as [Hw Hl].
  unfold endDict, emit. post_done.
  - now rewrite wf_set_trace.
  - intros _ _. left. exact Hlt.
Qed.

Lemma endArray_post (c : byte) (b1 : list byte) (p : Parser) (n : nat) :
  stack_ok (states p) = true -> (length b1 < n)%nat ->
  post n true (Done (endArray vs (c :: b1) p)).
Proof.
  intros Hst Hlt. destruct (popState_wf _ Hst) as [Hw Hl].
  unfold endArray, emit. post_done.
  - now rewrite wf_set_trace.
  - intros _ _. left. exact Hlt.
Qed.

Lemma post_true_false n o : post n true o -> post n false o.
Proof.
  intros (p' & b' & e & -> & Hwf & H). exists p', b', e.
  repeat split; auto. intros He Hb.
  destruct (H He Hb) as [H1 | (H1 & _)]; [left; assumption | discriminate].
Qed.

(** Every step from a well-formed parser on a non-empty input returns, keeps
    the parser well formed and makes progress. *)
Lemma step_post (p : Parser) (b : list byte) :
  wf p = true -> b <> [] ->
  post (length b) (negb (lookahead (currentState p)))
    (step vs ParseFloat Unmarshal p b).
Proof.
  intros Hwf Hb. unfold step.
  pose proof (trimLeft_length b) as Hlen.
  assert (Hst : currentState p <> startState -> stack_ok (states p) = true).
  { unfold wf in Hwf. destruct (currentState p); try congruence;
      repeat (apply andb_prop in Hwf as [Hwf _]); auto. }
  destruct (currentState p) eqn:Hcs; cbn [lookahead negb];
    try (specialize (Hst ltac:(discriminate))).
  - unfold wf in Hwf. rewrite Hcs in Hwf. discriminate.
  - unfold stepStart. rewrite Hcs. apply stepValue_post; [assumption|].
    unfold wf in Hwf. rewrite Hcs in Hwf. exact Hwf.
  - (* arrState *)
    unfold stepArray. destruct (trimLeft b) as [|c b1] eqn:Ht.
    { post_done; [assumption | intros _ H; now contradiction H]. }
    destruct (trimLeft_cons _ _ _ Ht) as [_ Hlt].
    destruct (Byte.eqb c "]"%byte); cbn [negb].
    + apply post_true_false. now apply endArray_post.
    + post_done.
      * destruct p; unfold wf; simpl in *. assumption.
      * intros _ _. right. repeat split; auto.
  - apply stepValue_post; [assumption | exact Hst].
  - (* arrStateNext *)
    unfold stepArrValueEnd. destruct (trimLeft b) as [|c b1] eqn:Ht.
    { post_done; [assumption | intros _ H; now contradiction H]. }
    destruct (trimLeft_cons _ _ _ Ht) as [_ Hlt].
    destruct (Byte.eqb c "]"%byte).
    + now apply endArray_post.
    + destruct (Byte.eqb c ","%byte).
      * post_done; [destruct p; unfold wf; simpl in *; assumption|].
        intros _ _. left. exact Hlt.
      * post_done; [assumption | discriminate].
  - (* dictState *)
    unfold stepDict. destruct (trimLeft b) as [|c b1] eqn:Ht.
    { post_done; [assumption | intros _ H; now contradiction H]. }
    destruct (trimLeft_cons _ _ _ Ht) as [_ Hlt].
    destruct (Byte.eqb c "}"%byte); cbn [negb].
    + apply post_true_false. now apply endDict_post.
    + destruct (Byte.eqb c dquote).
      * post_done; [destruct p; unfold wf; simpl in *; assumption|].
        intros _ _. right. repeat split; auto.
      * post_done; [assumption | discriminate].
  - now apply stepDictKey_post.
  - (* dictNextFieldState *)
    unfold stepDict. destruct (trimLeft b) as [|c b1] eqn:Ht.
    { post_done; [assumption | intros _ H; now contradiction H]. }
    destruct (trimLeft_cons _ _ _ Ht) as [_ Hlt].
    destruct (Byte.eqb c "}"%byte); cbn [negb].
    + post_done; [assumption | discriminate].
    + destruct (Byte.eqb c dquote).
      * post_done; [destruct p; unfold wf; simpl in *; assumption|].
        intros _ _. right. repeat split; auto.
      * post_done; [assumption | discriminate].
  - apply stepValue_post; [assumption | exact Hst].
  - (* dictFieldValueSep *)
    unfold stepDictSep. destruct (trimLeft b) as [|c b1] eqn:Ht.
    { post_done; [assumption | intros _ H; now contradiction H]. }
    destruct (trimLeft_cons _ _ _ Ht) as [_ Hlt].
    post_done; [destruct p; unfold wf; simpl in *; assumption|].
    intros _ _. left. exact Hlt.
  - (* dictFieldStateEnd *)
    unfold stepDictValueEnd. destruct (trimLeft b) as [|c b1] eqn:Ht.
    { post_done; [assumption | intros _ H; now contradiction H]. }
    destruct (trimLeft_cons _ _ _ Ht) as [_ Hlt].
    destruct (Byte.eqb c "}"%byte).
    + now apply endDict_post.
    + destruct (Byte.eqb c ","%byte).
      * post_done; [destruct p; unfold wf; simpl in *; assumption|].
        intros _ _. left. exact Hlt.
      * post_done; [assumption | discriminate].
  - apply stepLiteral_post; [assumption | now rewrite Hcs |].
    unfold wf in Hwf. rewrite Hcs in Hwf.
    apply andb_prop in Hwf as [_ H]. apply Nat.leb_le in H. simpl. lia.
  - apply stepLiteral_post; [assumption | now rewrite Hcs |].
    unfold wf in Hwf. rewrite Hcs in Hwf.
    apply andb_prop in Hwf as [_ H]. apply Nat.leb_le in H. simpl. lia.
  - apply stepLiteral_post; [assumption | now rewrite Hcs |].
    unfold wf in Hwf. rewrite Hcs in Hwf.
    apply andb_prop in Hwf as [_ H]. apply Nat.leb_le in H. simpl. lia.
  - now apply stepString_post.
  - now apply stepNumber_post.
Qed.

(** ** The feed loop *)

Abbreviation feed_loop := (Json.feed_loop vs ParseFloat Unmarshal).
Abbreviation feed := (Json.feed vs ParseFloat Unmarshal).
Abbreviation step := (Json.step vs ParseFloat Unmarshal).

Lemma feed_loop_step (fuel : nat) (p : Parser) (c : byte) (b : list byte) :
  currentState p <> failedState ->
  feed_loop (S fuel) p (c :: b) =
  ('(p', b', e) <- step p (c :: b) ;;
   match e with
   | Some e => Done (mkResult p' b' (Some e))
   | None => feed_loop fuel p' b'
   end).
Proof.
  intros H. cbn [Json.feed_loop].
  destruct (currentState p); congruence || reflexivity.
Qed.

Lemma feed_loop_failed (fuel : nat) (p : Parser) (c : byte) (b : list byte) :
  currentState p = failedState ->
  feed_loop fuel p (c :: b) = Done (mkResult p (c :: b) (err p)).
Proof. intros H. destruct fuel; cbn [Json.feed_loop]; now rewrite H. Qed.

Lemma feed_loop_mono (n : nat) :
  forall m p b r,
  feed_loop n p b = Done r -> (n <= m)%nat -> feed_loop m p b = Done r.
Proof.
  induction n as [|n IH]; intros m p b r H Hle.
  - destruct b as [|c b]; [destruct m; exact H|].
    destruct (state_eqb (currentState p) failedState) eqn:Hf.
    + apply state_eqb_eq in Hf. rewrite feed_loop_failed in * by assumption.
      exact H.
    + cbn [Json.feed_loop] in H.
      destruct (currentState p); try discriminate.
  - destruct b as [|c b]; [destruct m; exact H|].
    destruct (state_eqb (currentState p) failedState) eqn:Hf.
    + apply state_eqb_eq in Hf. rewrite feed_loop_failed in * by assumption.
      exact H.
    + assert (Hnf : currentState p <> failedState).
      { intros E. apply state_eqb_eq in E. congruence. }
      destruct m as [|m]; [lia|].
      rewrite feed_loop_step in * by assumption.
      destruct (step p (c :: b)) as [[[p' b'] e]| |]; try discriminate.
      cbn [bind] in *. destruct e; [exact H|].
      apply IH; [exact H | lia].
Qed.

Lemma wf_not_failed (p : Parser) :
  wf p = true -> currentState p <> failedState.
Proof. unfold wf. intros H E. rewrite E in H. discriminate. Qed.

Lemma feed_loop_total (fuel : nat) :
  forall p b,
  wf p = true -> (measure p b <= fuel)%nat ->
  exists r, feed_loop fuel p b = Done r /\ wf (st r) = true
            /\ (ret r = None -> rest r = []).
Proof.
  induction fuel as [|fuel IH]; intros p b Hwf Hm.
  - destruct b as [|c b].
    + eexists. split; [reflexivity|]. split; auto.
    + unfold measure in Hm. cbn [length] in Hm. lia.
  - destruct b as [|c b].
    + eexists. split; [reflexivity|]. split; auto.
    + rewrite feed_loop_step by now apply wf_not_failed.
      destruct (step_post p (c :: b) Hwf ltac:(discriminate))
        as (p' & b' & e & -> & Hwf' & Hprog).
      cbn [bind]. destruct e as [e|].
      * eexists. split; [reflexivity|]. split; [assumption | discriminate].
      * destruct b' as [|c' b'].
        { exists (mkResult p' [] None). split; [destruct fuel; reflexivity|].
          split; auto. }
        apply IH; [assumption|].
        specialize (Hprog eq_refl ltac:(discriminate)).
        unfold measure in *. cbn [length] in *.
        destruct Hprog as [H | (H1 & H2 & H3)].
        -- destruct (lookahead (currentState p'));
             destruct (lookahead (currentState p)); lia.
        -- rewrite H3. apply negb_false_iff in H1. rewrite H1 in Hm. lia.
Qed.

(** From a well-formed parser [feed] returns: it neither panics nor runs
    out of fuel, the parser stays well formed, and without an error the
    whole fragment has been consumed. *)
Lemma feed_total (p : Parser) (b : list byte) :
  wf p = true ->
  exists r, feed p b = Done r /\ wf (st r) = true
            /\ (ret r = None -> rest r = []).
Proof.
  intros Hwf. apply feed_loop_total; [assumption|].
  unfold measure. destruct (lookahead (currentState p)); lia.
Qed.

Lemma wf_set_err (e : option error) (p : Parser) : wf (set_err e p) = wf p.
Proof. destruct p; reflexivity. Qed.

Lemma reachable_wf (p : Parser) :
  reachable vs ParseFloat Unmarshal p -> wf p = true.
Proof.
  induction 1 as [|p b r _ IH H|p b q n e _ IH H].
  - reflexivity.
  - destruct (feed_total p b IH) as (r' & Hr & Hwf & _). congruence.
  - unfold Write in H.
    destruct (feed_total p b IH) as (r' & Hr & Hwf & _).
    rewrite Hr in H. cbn [bind] in H.
    destruct (ret r'); injection H as <- _ _; now rewrite wf_set_err.
Qed.

(** ** Completion at end of input *)


Lemma reportNumber_frame (lit : list byte) (d : bool) (p q : Parser)
  (e : option error) :
  reportNumber vs ParseFloat lit d p = (q, e) ->
  states q = states p /\ currentState q = currentState p
  /\ required q = required p /\ literalBuffer q = literalBuffer p
  /\ isDouble q = isDouble p /\ inEscape q = inEscape p /\ err q = err p.
Proof.
  unfold reportNumber, emit.
  destruct d; [destruct (ParseFloat lit) | destruct (ParseInt lit)];
    intros H; injection H as <- _; destruct p; repeat split.
Qed.

Lemma finalize_other (p : Parser) :
  currentState p <> numberState ->
  finalize vs ParseFloat p =
  (p, if (0 <? length (states p))%nat
         && negb (state_eqb (currentState p) startState)
      then Some errIncomplete else None).
Proof.
  intros Hn. unfold finalize.
  destruct (currentState p) eqn:E; try congruence;
    cbn beta iota; rewrite E;
    destruct ((0 <? length (states p))%nat); reflexivity.
Qed.



(** C6, amended. From a parser reached from a new one, a call of feed
    returns, and it returns only with the fragment exhausted or with an
    error: completing a top-level value does not end the call. *)
Theorem feed_returns_on_exhaustion_or_error (p : Parser) (b : list byte) :
  reachable vs ParseFloat Unmarshal p ->
  exists r, feed p b = Done r /\ (rest r = [] \/ ret r <> None).
Proof.
  intros Hreach.
  destruct (feed_total p b (reachable_wf p Hreach)) as (r & Hr & _ & Hrest).
  exists r. split; [assumption|].
  destruct (ret r); [right; discriminate | left; auto].
Qed.

(** ** Numbers *)

Lemma isStopChar_spec (c : byte) :
  isStopChar c = true <-> In c number_stop_chars.
Proof.
  unfold isStopChar, number_stop_chars. cbn [In].
  rewrite !orb_true_iff, !byte_eqb_eq. intuition congruence.
Qed.

Definition no_stop (b : list byte) : Prop :=
  forall x, In x b -> ~ In x number_stop_chars.

Lemma scanNumber_no_stop (b : list byte) :
  forall isD i, no_stop b ->
  scanNumber isD b i = (isD || existsb isDoubleChar b, None).
Proof.
  induction b as [|x b IH]; intros isD i H; cbn [scanNumber existsb].
  - now rewrite orb_false_r.
  - destruct (isStopChar x) eqn:Hx.
    + apply isStopChar_spec in Hx. exfalso. apply (H x); simpl; auto.
    + rewrite IH by (intros y Hy; apply H; simpl; auto).
      now rewrite orb_assoc.
Qed.



End Progress.

(** ** The primitives only matter through their values *)

Section Extensionality.

Variables vs vs' : Visitor.
Variable ParseFloat : list byte -> Z + error.
Variables Unmarshal Unmarshal' : list byte -> list byte * option error.
Hypothesis vs_ext : forall t ev, vs t ev = vs' t ev.
Hypothesis Unmarshal_ext : forall x, Unmarshal x = Unmarshal' x.

Lemma emit_ext ev p : emit vs ev p = emit vs' ev p.
Proof. unfold emit. now rewrite vs_ext. Qed.

Lemma reportNumber_ext b d p :
  reportNumber vs ParseFloat b d p = reportNumber vs' ParseFloat b d p.
Proof.
  unfold reportNumber.
  destruct d; [destruct (ParseFloat b) | destruct (ParseInt b)];
    auto using emit_ext.
Qed.

Lemma stepNumber_ext b p :
  stepNumber vs ParseFloat b p = stepNumber vs' ParseFloat b p.
Proof.
  unfold stepNumber. destruct (scanNumber _ _ _) as [d [i|]]; auto.
  destruct (literalBuffer _); now rewrite reportNumber_ext.
Qed.

Lemma stepLiteral_ext kind er ev b p :
  stepLiteral vs kind er ev b p = stepLiteral vs' kind er ev b p.
Proof.
  unfold stepLiteral. destruct (stepKind _ _ _ _) as [[[[q r] d] e]| |]; auto.
  cbn [bind]. now rewrite emit_ext.
Qed.

Lemma doString_ext b p : doString Unmarshal b p = doString Unmarshal' b p.
Proof.
  unfold doString.
  destruct (if match literalBuffer p with [] => true | _ => false end
            then _ else _) as [[delta buf]|]; auto.
  destruct (scanString _ _ _) as [esc [i|]]; auto.
  destruct (literalBuffer _); now rewrite Unmarshal_ext.
Qed.

Lemma stepString_ext b p :
  stepString vs Unmarshal b p = stepString vs' Unmarshal' b p.
Proof.
  unfold stepString. rewrite doString_ext.
  destruct (doString _ _ _) as [[[[[q str] d] r] e]| |]; auto.
  cbn [bind]. now rewrite emit_ext.
Qed.

Lemma stepDictKey_ext b p :
  stepDictKey vs Unmarshal b p = stepDictKey vs' Unmarshal' b p.
Proof.
  unfold stepDictKey. rewrite doString_ext.
  destruct (doString _ _ _) as [[[[[q str] d] r] e]| |]; auto.
  cbn [bind]. now rewrite emit_ext.
Qed.

Lemma stepValue_ext b retState p :
  stepValue vs ParseFloat Unmarshal b retState p
  = stepValue vs' ParseFloat Unmarshal' b retState p.
Proof.
  unfold stepValue, stepNULL, stepFALSE, stepTRUE.
  destruct (trimLeft b); auto.
  now rewrite !emit_ext, !stepLiteral_ext, stepString_ext, stepNumber_ext.
Qed.

Lemma endDict_ext b p : endDict vs b p = endDict vs' b p.
Proof. unfold endDict. now rewrite emit_ext. Qed.

Lemma endArray_ext b p : endArray vs b p = endArray vs' b p.
Proof. unfold endArray. now rewrite emit_ext. Qed.

Lemma stepDict_ext b allowEnd p :
  stepDict vs b allowEnd p = stepDict vs' b allowEnd p.
Proof.
  unfold stepDict. destruct (trimLeft b); [reflexivity|].
  now rewrite endDict_ext.
Qed.

Lemma stepDictValueEnd_ext b p :
  stepDictValueEnd vs b p = stepDictValueEnd vs' b p.
Proof.
  unfold stepDictValueEnd. destruct (trimLeft b); [reflexivity|].
  now rewrite endDict_ext.
Qed.

Lemma stepArray_ext b allowEnd p :
  stepArray vs b allowEnd p = stepArray vs' b allowEnd p.
Proof.
  unfold stepArray. destruct (trimLeft b); [reflexivity|].
  now rewrite endArray_ext.
Qed.

Lemma stepArrValueEnd_ext b p :
  stepArrValueEnd vs b p = stepArrValueEnd vs' b p.
Proof.
  unfold stepArrValueEnd. destruct (trimLeft b); [reflexivity|].
  now rewrite endArray_ext.
Qed.

Lemma step_ext p b :
  step vs ParseFloat Unmarshal p b = step vs' ParseFloat Unmarshal' p b.
Proof.
  unfold step, stepStart, stepNULL, stepTRUE, stepFALSE.
  destruct (currentState p);
    rewrite ?stepValue_ext, ?stepDictKey_ext, ?stepLiteral_ext,
      ?stepString_ext, ?stepNumber_ext, ?stepDict_ext,
      ?stepDictValueEnd_ext, ?stepArray_ext, ?stepArrValueEnd_ext;
    reflexivity.
Qed.

Lemma feed_loop_ext fuel :
  forall p b,
  feed_loop vs ParseFloat Unmarshal fuel p b
  = feed_loop vs' ParseFloat Unmarshal' fuel p b.
Proof.
  induction fuel as [|fuel IH]; intros p b.
  - reflexivity.
  - destruct b as [|c b]; [reflexivity|].
    destruct (state_eqb (currentState p) failedState) eqn:Hf.
    + apply state_eqb_eq in Hf. now rewrite !feed_loop_failed.
    + assert (Hnf : currentState p <> failedState).
      { intros E. apply state_eqb_eq in E. congruence. }
      rewrite !feed_loop_step by assumption. rewrite step_ext.
      destruct (step _ _ _ _ _) as [[[q r] e]| |]; auto.
      cbn [bind]. destruct e; auto.
Qed.

Lemma feed_ext p b :
  feed vs ParseFloat Unmarshal p b = feed vs' ParseFloat Unmarshal' p b.
Proof. apply feed_loop_ext. Qed.

End Extensionality.

Section Scenario.

Variable vs : Visitor.
Variable ParseFloat : list byte -> Z + error.
Variable Unmarshal : list byte -> list byte * option error.

Definition quoted (s : string) : list byte := [dquote] ++ bytes s ++ [dquote].

Fixpoint bytes_eqb (x y : list byte) : bool :=
  match x, y with
  | [], [] => true
  | a :: x', b :: y' => Byte.eqb a b && bytes_eqb x' y'
  | _, _ => false
  end.

Lemma bytes_eqb_eq x : forall y, bytes_eqb x y = true -> x = y.
Proof.
  induction x as [|a x IH]; destruct y as [|b y]; simpl; try discriminate;
    auto.
  intros H. apply andb_prop in H as [H1 H2].
  apply byte_eqb_eq in H1. f_equal; auto.
Qed.

(** C5, amended. Fed as one fragment to a new parser whose visitor accepts
    every event, [{"a":[1,2,3],"b":true}] yields object-start(unknown),
    key a, array-start(unknown), the signed 64-bit integer events for 1, 2
    and 3, array-finished, key b, bool true and object-finished, and no
    other event. *)
Theorem nested_fragment_events :
  (forall t ev, vs t ev = None) ->
  Unmarshal (quoted "a") = (bytes "a", None) ->
  Unmarshal (quoted "b") = (bytes "b", None) ->
  exists r,
    feed vs ParseFloat Unmarshal NewParser nested_fragment = Done r
    /\ ret r = None /\ rest r = []
    /\ trace (st r) =
       [OnObjectStart (-1) AnyType; OnKey (bytes "a");
        OnArrayStart (-1) AnyType; OnInt64 1; OnInt64 2; OnInt64 3;
        OnArrayFinished; OnKey (bytes "b"); OnBool true; OnObjectFinished].
Proof.
  intros Hvs Ha Hb.
  set (um := fun x =>
               if bytes_eqb x (quoted "a") then (bytes "a", None)
               else if bytes_eqb x (quoted "b") then (bytes "b", None)
               else Unmarshal x).
  rewrite (feed_ext vs accept_all ParseFloat Unmarshal um).
  - eexists. split; [vm_compute; reflexivity|]. repeat split.
  - exact Hvs.
  - intros x. subst um. cbv beta.
    destruct (bytes_eqb x (quoted "a")) eqn:E1;
      [apply bytes_eqb_eq in E1; now subst|].
    destruct (bytes_eqb x (quoted "b")) eqn:E2;
      [apply bytes_eqb_eq in E2; now subst|].
    reflexivity.
Qed.

End Scenario.

(** ** Concrete runs *)






Lemma feed_returns_witness :
  exists r,
    feed accept_all noFloat unquote NewParser (bytes "true false") = Done r
    /\ (rest r = [] \/ ret r <> None).
Proof.
  apply feed_returns_on_exhaustion_or_error. apply reach_new.
Defined.

(** C6, counterexample. A single call of feed on [true false] delivers both
    values and consumes the whole fragment: it does not return when the
    first top-level value is complete and the bytes [ false] remain. *)
Lemma feed_continues_after_top_level_value :
  exists r,
    feed accept_all noFloat unquote NewParser (bytes "true false") = Done r
    /\ trace (st r) = [OnBool true; OnBool false]
    /\ rest r = [] /\ ret r = None
    /\ ~ (trace (st r) = [OnBool true] /\ rest r = bytes " false").
Proof.
  eexists. split; [vm_compute; reflexivity|].
  cbn [st rest ret trace]. repeat split. intros [H _]. discriminate.
Qed.



Lemma nested_fragment_witness :
  exists r,
    feed accept_all noFloat unquote NewParser nested_fragment = Done r
    /\ ret r = None /\ rest r = []
    /\ trace (st r) =
       [OnObjectStart (-1) AnyType; OnKey (bytes "a");
        OnArrayStart (-1) AnyType; OnInt64 1; OnInt64 2; OnInt64 3;
        OnArrayFinished; OnKey (bytes "b"); OnBool true; OnObjectFinished].
Proof.
  apply nested_fragment_events.
  - reflexivity.
  - reflexivity.
  - reflexivity.
Defined.

(** C5, counterexample. The events delivered for the three numbers of
    [{"a":[1,2,3],"b":true}] are not unsigned-integer events. *)
Lemma nested_fragment_no_uint_events :
  ~ exists r u1 u2 u3,
      feed accept_all noFloat unquote NewParser nested_fragment = Done r
      /\ is_uint_event u1 1 /\ is_uint_event u2 2 /\ is_uint_event u3 3
      /\ trace (st r) =
         [OnObjectStart (-1) AnyType; OnKey (bytes "a");
          OnArrayStart (-1) AnyType; u1; u2; u3;
          OnArrayFinished; OnKey (bytes "b"); OnBool true; OnObjectFinished].
Proof.
  intros (r & u1 & u2 & u3 & Hr & H1 & _ & _ & Ht).
  vm_compute in Hr. injection Hr as <-. cbn [st trace] in Ht.
  injection Ht as <- _ _.
  destruct H1 as [H | [H | [H | H]]]; discriminate.
Qed.

(** C9, at the failing input. A vertical tab is not one of the four white
    space bytes of the package variable [whitespace], yet [trimLeft] skips
    it: the fragment made of a vertical tab and [1 ] is decoded as the
    number 1 without an error. *)
Theorem vertical_tab_skipped_as_whitespace :
  ~ In x0b whitespace
  /\ isSpace x0b = true
  /\ trimLeft (x0b :: bytes "1 ") = bytes "1 "
  /\ exists r,
       feed accept_all noFloat unquote NewParser (x0b :: bytes "1 ") = Done r
       /\ trace (st r) = [OnInt64 1] /\ ret r = None.
Proof.
  split; [vm_compute; intuition discriminate|].
  split; [reflexivity|]. split; [reflexivity|].
  eexists. split; [vm_compute; reflexivity|]. split; reflexivity.
Qed.

End JsonProofs.

(** * Chunk invariance of the text decoder *)

Module JsonChunks.
Import Json JsonProofs.

(** ** Parsers that agree up to a dead [required] *)

Lemma same_parser_refl (p : Parser) : same_parser p p.
Proof. unfold same_parser. tauto. Qed.

Lemma same_parser_trans (p q r : Parser) :
  same_parser p q -> same_parser q r -> same_parser p r.
Proof.
  unfold same_parser.
  intros (A1 & A2 & A3 & A4 & A5 & A6 & A7 & A8)
         (B1 & B2 & B3 & B4 & B5 & B6 & B7 & B8).
  repeat split; try congruence.
  intros H. rewrite A8 by assumption. apply B8. congruence.
Qed.

Lemma same_parser_sym (p q : Parser) : same_parser p q -> same_parser q p.
Proof.
  unfold same_parser.
  intros (A1 & A2 & A3 & A4 & A5 & A6 & A7 & A8).
  repeat split; try congruence.
  intros H. symmetry. apply A8. congruence.
Qed.

Lemma same_parser_eq (p q : Parser) :
  same_parser p q -> q = set_required (required q) p.
Proof.
  destruct p, q. unfold same_parser. simpl.
  intros (A1 & A2 & A3 & A4 & A5 & A6 & A7 & _). now subst.
Qed.

Lemma same_parser_literal (p q : Parser) :
  same_parser p q -> literal_state (currentState p) = true -> q = p.
Proof.
  destruct p, q. unfold same_parser. simpl.
  intros (A1 & A2 & A3 & A4 & A5 & A6 & A7 & A8) H.
  rewrite (A8 H). now subst.
Qed.

Lemma same_parser_set_required (x : nat) (p : Parser) :
  literal_state (currentState p) = false -> same_parser p (set_required x p).
Proof.
  destruct p. unfold same_parser. simpl. intros H.
  repeat split. intros H'. congruence.
Qed.

Lemma same_parser_wf (p q : Parser) :
  same_parser p q -> wf p = true -> wf q = true.
Proof.
  intros H Hwf. destruct (literal_state (currentState p)) eqn:Hl.
  - now rewrite (same_parser_literal _ _ H Hl).
  - rewrite (same_parser_eq _ _ H).
    destruct p as [e0 sts cs lb isd es req tr]. unfold wf in *. simpl in *.
    destruct cs; try discriminate; assumption.
Qed.

Lemma stack_top_not_literal (s : state) (l : list state) :
  stack_ok (s :: l) = true -> literal_state s = false.
Proof.
  intros H. destruct (stack_ok_pop _ _ H) as [[_ ->] | [H1 _]];
    [reflexivity|]. destruct s; try discriminate; reflexivity.
Qed.

(** ** The scanning loops on a concatenation *)

Lemma scanNumber_plus (b : list byte) :
  forall isD i k,
  scanNumber isD b (i + k) =
  (fst (scanNumber isD b i),
   option_map (fun j => (j + k)%nat) (snd (scanNumber isD b i))).
Proof.
  induction b as [|c b IH]; intros isD i k; cbn [scanNumber];
    [reflexivity|].
  destruct (isStopChar c); [reflexivity|].
  change (S (i + k)) with (S i + k)%nat. apply IH.
Qed.

Lemma scanNumber_app (x y : list byte) :
  forall isD i,
  scanNumber isD (x ++ y) i =
  match scanNumber isD x i with
  | (d, Some j) => (d, Some j)
  | (d, None) => scanNumber d y (i + length x)
  end.
Proof.
  induction x as [|c x IH]; intros isD i; cbn [scanNumber app length].
  - now rewrite Nat.add_0_r.
  - destruct (isStopChar c); [reflexivity|].
    rewrite IH. destruct (scanNumber _ x (S i)) as [d [j|]]; [reflexivity|].
    f_equal. lia.
Qed.

Lemma scanString_plus (b : list byte) :
  forall esc i k,
  scanString esc b (i + k) =
  (fst (scanString esc b i),
   option_map (fun j => (j + k)%nat) (snd (scanString esc b i))).
Proof.
  induction b as [|c b IH]; intros esc i k; cbn [scanString];
    [reflexivity|].
  change (S (i + k)) with (S i + k)%nat.
  destruct esc; [apply IH|].
  destruct (Byte.eqb c dquote); [reflexivity | apply IH].
Qed.

Lemma scanString_app (x y : list byte) :
  forall esc i,
  scanString esc (x ++ y) i =
  match scanString esc x i with
  | (e, Some j) => (e, Some j)
  | (e, None) => scanString e y (i + length x)
  end.
Proof.
  induction x as [|c x IH]; intros esc i; cbn [scanString app length].
  - now rewrite Nat.add_0_r.
  - destruct esc.
    + rewrite IH. destruct (scanString _ x (S i)) as [d [j|]];
        [reflexivity|]. f_equal. lia.
    + destruct (Byte.eqb c dquote); [reflexivity|].
      rewrite IH. destruct (scanString _ x (S i)) as [d [j|]];
        [reflexivity|]. f_equal. lia.
Qed.

Lemma skipn_app_l {A} (n : nat) (x y : list A) :
  (n <= length x)%nat -> skipn n (x ++ y) = skipn n x ++ y.
Proof.
  intros H. rewrite skipn_app.
  replace (n - length x)%nat with 0%nat by lia. reflexivity.
Qed.

Lemma firstn_app_l {A} (n : nat) (x y : list A) :
  (n <= length x)%nat -> firstn n (x ++ y) = firstn n x.
Proof.
  intros H. rewrite firstn_app.
  replace (n - length x)%nat with 0%nat by lia.
  cbn [firstn]. now rewrite app_nil_r.
Qed.

Lemma skipn_app_r {A} (n : nat) (x y : list A) :
  skipn (n + length x) (x ++ y) = skipn n y.
Proof.
  rewrite skipn_app.
  replace (n + length x - length x)%nat with n by lia.
  rewrite skipn_all2 by lia. reflexivity.
Qed.

Lemma firstn_app_r {A} (n : nat) (x y : list A) :
  firstn (n + length x) (x ++ y) = x ++ firstn n y.
Proof.
  rewrite firstn_app.
  replace (n + length x - length x)%nat with n by lia.
  rewrite firstn_all2 by lia. reflexivity.
Qed.

Lemma hasPrefix_iff (s : list byte) :
  forall b, hasPrefix b s = true <-> exists t, b = s ++ t.
Proof.
  induction s as [|x s IH]; intros b; cbn [hasPrefix app].
  - split; [intros _; now exists b | intros _; now destruct b].
  - destruct b as [|y b]; cbn [hasPrefix].
    + split; [discriminate | intros [t H]; discriminate].
    + rewrite andb_true_iff, byte_eqb_eq, IH. split.
      * intros [-> [t ->]]. now exists t.
      * intros [t H]. injection H as -> ->. split; [reflexivity | now exists t].
Qed.

Lemma app_eq_split {A} (x1 x2 y1 y2 : list A) :
  x1 ++ x2 = y1 ++ y2 -> (length x1 <= length y1)%nat ->
  y1 = x1 ++ firstn (length y1 - length x1) x2
  /\ x2 = firstn (length y1 - length x1) x2 ++ y2.
Proof.
  revert y1. induction x1 as [|a x1 IH]; intros y1 H Hle; cbn [app length] in *.
  - rewrite Nat.sub_0_r. subst x2.
    rewrite firstn_app, Nat.sub_diag, firstn_all. cbn [firstn].
    rewrite app_nil_r. split; reflexivity.
  - destruct y1 as [|c y1]; [cbn [length] in Hle; lia|].
    cbn [app length] in *. injection H as -> H.
    destruct (IH y1 H ltac:(lia)) as [H1 H2].
    split; [now f_equal | assumption].
Qed.

Section Split.

Variable vs : Visitor.
Variable ParseFloat : list byte -> Z + error.
Variable Unmarshal : list byte -> list byte * option error.

(** ** Numbers *)

Lemma stepNumber_split (b1 b2 : list byte) (p p' : Parser)
  (b' : list byte) (e : option error) :
  b1 <> [] ->
  stepNumber vs ParseFloat (b1 ++ b2) p = (p', b', e) ->
  (exists r1, stepNumber vs ParseFloat b1 p = (p', r1, e) /\ b' = r1 ++ b2)
  \/ (exists p1,
        stepNumber vs ParseFloat b1 p = (p1, [], None)
        /\ currentState p1 = currentState p /\ states p1 = states p
        /\ stepNumber vs ParseFloat b2 p1 = (p', b', e)).
Proof.
  intros Hb1. unfold stepNumber. rewrite scanNumber_app.
  destruct (scanNumber (isDouble p) b1 0) as [d1 [j|]] eqn:H1.
  - apply scanNumber_stop in H1.
    rewrite skipn_app_l, firstn_app_l by lia.
    intros H. left. exists (skipn j b1).
    destruct (literalBuffer (set_isDouble d1 p));
      destruct (reportNumber _ _ _ _ _); inversion H; subst;
      split; reflexivity.
  - right. eexists. split; [reflexivity|].
    destruct p as [e0 sts cs lb isd es req tr].
    cbn [set_isDouble set_literalBuffer literalBuffer isDouble currentState
         states] in *.
    split; [reflexivity|]. split; [reflexivity|].
    change (0 + length b1)%nat with (0 + length b1)%nat in H.
    rewrite scanNumber_plus in H.
    destruct (scanNumber d1 b2 0) as [d2 [j2|]] eqn:H2;
      cbn [fst snd option_map] in H.
    + rewrite skipn_app_r, firstn_app_r in H.
      destruct lb as [|x lb]; cbn [app].
      * destruct b1 as [|c b1]; [now contradiction Hb1|].
        cbn [app] in *. exact H.
      * cbn [app] in H. rewrite <- app_assoc. exact H.
    + rewrite <- app_assoc. exact H.
Qed.

(** ** Strings *)

Lemma doString_split (b1 b2 : list byte) (p p' : Parser)
  (str : list byte) (done : bool) (r : list byte) (e : option error) :
  b1 <> [] ->
  doString Unmarshal (b1 ++ b2) p = Done (p', str, done, r, e) ->
  (exists r1,
     doString Unmarshal b1 p = Done (p', str, done, r1, e)
     /\ done = true /\ r = r1 ++ b2)
  \/ (exists p1,
        doString Unmarshal b1 p = Done (p1, [], false, [], None)
        /\ currentState p1 = currentState p /\ states p1 = states p
        /\ required p1 = required p
        /\ doString Unmarshal b2 p1 = Done (p', str, done, r, e)).
Proof.
  intros Hb1. destruct b1 as [|c r1]; [now contradiction Hb1|].
  destruct p as [e0 sts cs lb isd es req tr].
  unfold doString. cbn [literalBuffer inEscape].
  destruct lb as [|x lb]; cbn [app].
  - (* at the start of the string *)
    rewrite scanString_app.
    destruct (scanString es r1 0) as [esc1 [j|]] eqn:H1.
    + apply scanString_stop in H1.
      replace (c :: r1 ++ b2) with ((c :: r1) ++ b2) by reflexivity.
      rewrite skipn_app_l, firstn_app_l by (cbn [length]; lia).
      intros H. left. exists (skipn (j + 2) (c :: r1)).
      cbn [set_inEscape literalBuffer] in *.
      destruct (Unmarshal _). inversion H; subst. repeat split.
    + right. eexists. split; [reflexivity|].
      cbn [set_inEscape set_literalBuffer literalBuffer inEscape currentState
           states required app].
      repeat (split; [reflexivity|]).
      rewrite scanString_plus in H.
      destruct (scanString esc1 b2 0) as [esc2 [j2|]] eqn:H2;
        cbn [fst snd option_map] in H |- *.
      * replace (j2 + length r1 + 2)%nat
          with ((j2 + 1) + length (c :: r1))%nat in H by (cbn [length]; lia).
        replace (c :: r1 ++ b2) with ((c :: r1) ++ b2) in H by reflexivity.
        cbn [set_inEscape set_literalBuffer literalBuffer] in H |- *.
        rewrite (firstn_app_r (j2 + 1) (c :: r1) b2) in H.
        change ((c :: r1) ++ firstn (j2 + 1) b2)
          with (c :: r1 ++ firstn (j2 + 1) b2) in H.
        destruct (Unmarshal _).
        rewrite (skipn_app_r (j2 + 1) (c :: r1) b2) in H. exact H.
      * exact H.
  - (* continuing *)
    replace (c :: r1 ++ b2) with ((c :: r1) ++ b2) by reflexivity.
    rewrite scanString_app.
    destruct (scanString es (c :: r1) 0) as [esc1 [j|]] eqn:H1.
    + apply scanString_stop in H1.
      rewrite skipn_app_l, firstn_app_l by lia.
      intros H. left. exists (skipn (j + 1) (c :: r1)).
      cbn [set_inEscape literalBuffer] in *.
      destruct (Unmarshal _). inversion H; subst. repeat split.
    + right. eexists. split; [reflexivity|].
      cbn [set_inEscape set_literalBuffer literalBuffer inEscape currentState
           states required app].
      repeat (split; [reflexivity|]).
      rewrite scanString_plus in H.
      destruct (scanString esc1 b2 0) as [esc2 [j2|]] eqn:H2;
        cbn [fst snd option_map] in H |- *.
      * replace (j2 + length (c :: r1) + 1)%nat
          with ((j2 + 1) + length (c :: r1))%nat in H by lia.
        cbn [set_inEscape set_literalBuffer literalBuffer] in H |- *.
        rewrite (firstn_app_r (j2 + 1) (c :: r1) b2) in H.
        rewrite <- app_assoc. destruct (Unmarshal _).
        rewrite (skipn_app_r (j2 + 1) (c :: r1) b2) in H. exact H.
      * rewrite <- app_assoc. exact H.
Qed.

(** ** Literals *)

(** The part of [kind] that is still expected. *)
Definition expected (kind : list byte) (p : Parser) : list byte :=
  skipn (length kind - required p) kind.

Lemma expected_length (kind : list byte) (p : Parser) :
  (required p <= length kind)%nat ->
  length (expected kind p) = required p.
Proof. intros H. unfold expected. rewrite length_skipn. lia. Qed.

Lemma stepKind_partial (b kind t : list byte) (er : error) (p : Parser) :
  (required p <= length kind)%nat -> (length b < required p)%nat ->
  expected kind p = b ++ t ->
  stepKind b kind er p
  = Done (set_required (required p - length b) p, [], false, None).
Proof.
  intros Hn Hl Hs. unfold stepKind. fold (expected kind p).
  destruct (Nat.ltb_spec (length kind) (required p)); [lia|].
  destruct (Nat.ltb_spec (length b) (required p)); [|lia].
  rewrite Hs, firstn_app, Nat.sub_diag, firstn_all. cbn [firstn].
  rewrite app_nil_r.
  assert (Hp : hasPrefix b b = true) by (apply hasPrefix_iff; exists [];
                                        now rewrite app_nil_r).
  rewrite Hp. cbn [negb]. now rewrite skipn_all.
Qed.

Lemma stepKind_complete (kind t : list byte) (er : error) (p : Parser) :
  (required p <= length kind)%nat ->
  stepKind (expected kind p ++ t) kind er p = Done (popState p, t, true, None).
Proof.
  intros Hn. unfold stepKind. fold (expected kind p).
  pose proof (expected_length kind p Hn) as Hlen.
  destruct (Nat.ltb_spec (length kind) (required p)); [lia|].
  destruct (Nat.ltb_spec (length (expected kind p ++ t)) (required p)) as [H1|_];
    [rewrite length_app in H1; lia|].
  assert (Hp : hasPrefix (expected kind p ++ t) (expected kind p) = true)
    by (apply hasPrefix_iff; now exists t).
  rewrite Hp. cbn [negb]. rewrite <- Hlen at 1.
  rewrite skipn_app, Nat.sub_diag, skipn_all. reflexivity.
Qed.

Lemma stepKind_inv (b kind : list byte) (er : error) (p q : Parser)
  (r : list byte) (d : bool) :
  stepKind b kind er p = Done (q, r, d, None) ->
  (required p <= length kind)%nat
  /\ ((d = false /\ (length b < required p)%nat
       /\ (exists t, expected kind p = b ++ t)
       /\ q = set_required (required p - length b) p /\ r = [])
      \/ (d = true /\ b = expected kind p ++ r /\ q = popState p)).
Proof.
  unfold stepKind. fold (expected kind p).
  destruct (Nat.ltb_spec (length kind) (required p)) as [|Hn];
    [discriminate|].
  pose proof (expected_length kind p Hn) as Hlen.
  intros H. split; [assumption|].
  destruct (Nat.ltb_spec (length b) (required p)) as [Hl|Hl].
  - destruct (hasPrefix b _) eqn:Hp; cbn [negb] in H; [|discriminate].
    apply hasPrefix_iff in Hp as [t Ht]. inversion H; subst. left.
    repeat split; auto.
    + exists (skipn (length b) (expected kind p)).
      rewrite <- (firstn_skipn (length b) (expected kind p)) at 1.
      f_equal.
      assert (Hx : length (firstn (length b) (expected kind p)) = length b)
        by (rewrite length_firstn; lia).
      assert (Hy : length b
                   = (length (firstn (length b) (expected kind p))
                      + length t)%nat)
        by (rewrite Ht at 1; apply length_app).
      assert (t = [])
        by (destruct t; [reflexivity | cbn [length] in Hy; lia]).
      subst t. now rewrite app_nil_r in Ht.
    + now rewrite skipn_all.
  - destruct (hasPrefix b _) eqn:Hp; cbn [negb] in H; [|discriminate].
    apply hasPrefix_iff in Hp as [t Ht]. inversion H; subst. right.
    repeat split; auto. f_equal. rewrite <- Hlen at 1.
    rewrite skipn_app, Nat.sub_diag, skipn_all. reflexivity.
Qed.

Lemma expected_after (kind b1 t : list byte) (p : Parser) :
  (required p <= length kind)%nat -> (length b1 < required p)%nat ->
  expected kind p = b1 ++ t ->
  expected kind (set_required (required p - length b1) p) = t.
Proof.
  intros Hn Hl Hs. unfold expected in *.
  destruct p as [e0 sts cs lb isd es req tr]. cbn [required set_required] in *.
  replace (length kind - (req - length b1))%nat
    with (length b1 + (length kind - req))%nat by lia.
  rewrite <- skipn_skipn, Hs, skipn_app, Nat.sub_diag, skipn_all.
  reflexivity.
Qed.

Lemma stepKind_done_no_error (b kind : list byte) (er : error)
  (p q : Parser) (r : list byte) (e : option error) :
  stepKind b kind er p = Done (q, r, true, e) -> e = None.
Proof.
  unfold stepKind. destruct (_ <? _)%nat; [discriminate|].
  destruct (_ <? _)%nat; destruct (negb _); intros H; now inversion H.
Qed.

(** How the result of a step on [b1 ++ b2] is obtained from the step on
    [b1]: either the step ends within [b1], or it uses up [b1] and the step
    taken next on [b2], in state [cs], ends where the whole step does. *)
Definition split_result
  (first : outcome (Parser * list byte * option error))
  (second : Parser -> outcome (Parser * list byte * option error))
  (cs : state) (b2 : list byte) (p' : Parser) (b' : list byte) : Prop :=
  (exists r1, first = Done (p', r1, None) /\ b' = r1 ++ b2)
  \/ (exists p1,
        first = Done (p1, [], None) /\ currentState p1 = cs
        /\ exists p'', second p1 = Done (p'', b', None)
                       /\ same_parser p' p'').

Lemma stepLiteral_split (kind : list byte) (er : error) (ev : event)
  (b1 b2 : list byte) (p p' : Parser) (b' : list byte) :
  stack_ok (states p) = true ->
  stepLiteral vs kind er ev (b1 ++ b2) p = Done (p', b', None) ->
  split_result (stepLiteral vs kind er ev b1 p)
    (stepLiteral vs kind er ev b2) (currentState p) b2 p' b'.
Proof.
  intros Hst H. unfold stepLiteral in H.
  apply bind_done in H as ([[[pk bk] d] ek] & Hk & H).
  destruct d.
  - pose proof (stepKind_done_no_error _ _ _ _ _ _ _ Hk) as ->.
    apply stepKind_inv in Hk as (Hn & [(? & _) | (_ & Hb & ->)]);
      [discriminate|].
    pose proof (expected_length kind p Hn) as Hlen.
    unfold emit in H. inversion H as [[Hp' Hb' He]]. clear H. subst bk.
    destruct (Nat.le_gt_cases (length (expected kind p)) (length b1))
      as [Hle | Hgt].
    + (* the literal ends within b1 *)
      symmetry in Hb.
      destruct (app_eq_split _ _ _ _ Hb Hle) as [H1 H2].
      left. exists (firstn (length b1 - length (expected kind p)) b').
      split; [|exact H2].
      unfold stepLiteral. rewrite H1 at 1.
      rewrite stepKind_complete by assumption. cbn [bind]. unfold emit.
      now rewrite He.
    + (* the literal ends in b2 *)
      destruct (app_eq_split _ _ _ _ Hb ltac:(lia)) as [H1 H2].
      set (s2 := firstn (length (expected kind p) - length b1) b2) in *.
      right. exists (set_required (required p - length b1) p).
      split.
      { unfold stepLiteral.
        rewrite (stepKind_partial b1 kind s2) by (assumption || lia).
        reflexivity. }
      split; [destruct p; reflexivity|].
      pose proof (expected_after kind b1 s2 p Hn ltac:(lia) H1) as Hexp.
      eexists. split.
      { unfold stepLiteral. rewrite H2 at 1. rewrite <- Hexp.
        rewrite stepKind_complete
          by (destruct p; cbn [required set_required] in *; lia).
        cbn [bind]. unfold emit.
        replace (trace (popState (set_required (required p - length b1) p)))
          with (trace (popState p))
          by (destruct p as [e0 [|s l] cs lb isd es req tr]; reflexivity).
        rewrite He. reflexivity. }
      destruct p as [e0 [|s l] cs lb isd es req tr]; [discriminate|].
      apply stack_top_not_literal in Hst.
      unfold same_parser, popState. cbn. repeat split. congruence.
  - inversion H; subst. clear H.
    apply stepKind_inv in Hk as (Hn & [(_ & Hl & [t Ht] & -> & ->) | (? & _)]);
      [|discriminate].
    rewrite length_app in Hl. rewrite <- app_assoc in Ht.
    right. exists (set_required (required p - length b1) p).
    split.
    { unfold stepLiteral.
      rewrite (stepKind_partial b1 kind (b2 ++ t)) by (assumption || lia).
      reflexivity. }
    split; [destruct p; reflexivity|].
    pose proof (expected_after kind b1 (b2 ++ t) p Hn ltac:(lia) Ht) as Hexp.
    eexists. split.
    { unfold stepLiteral.
      rewrite (stepKind_partial b2 kind t)
        by (destruct p; cbn [required set_required] in *; lia || assumption).
      reflexivity. }
    destruct p as [e0 sts cs lb isd es req tr].
    cbn [set_required required length]. rewrite length_app.
    replace (req - length b1 - length b2)%nat
      with (req - (length b1 + length b2))%nat by lia.
    apply same_parser_refl.
Qed.

Lemma stepString_split (b1 b2 : list byte) (p p' : Parser) (b' : list byte) :
  b1 <> [] ->
  stepString vs Unmarshal (b1 ++ b2) p = Done (p', b', None) ->
  split_result (stepString vs Unmarshal b1 p) (stepString vs Unmarshal b2)
    (currentState p) b2 p' b'.
Proof.
  intros Hb1 H. unfold stepString in H.
  apply bind_done in H as ([[[[pd str] d] r] e] & Hd & H).
  destruct (doString_split _ _ _ _ _ _ _ _ Hb1 Hd)
    as [(r1 & H1 & -> & ->) | (p1 & H1 & Hcs & _ & _ & H2)].
  - left. exists r1. unfold stepString. rewrite H1. cbn [bind andb] in *.
    destruct (is_none e).
    + unfold emit in *. inversion H; subst. split; [|reflexivity].
      congruence.
    + inversion H; subst. split; reflexivity.
  - right. exists p1. unfold stepString at 1. rewrite H1. cbn [bind andb].
    split; [reflexivity|]. split; [assumption|].
    exists p'. unfold stepString. rewrite H2. cbn [bind].
    split; [exact H | apply same_parser_refl].
Qed.

Lemma stepDictKey_split (b1 b2 : list byte) (p p' : Parser)
  (b' : list byte) :
  b1 <> [] ->
  stepDictKey vs Unmarshal (b1 ++ b2) p = Done (p', b', None) ->
  split_result (stepDictKey vs Unmarshal b1 p) (stepDictKey vs Unmarshal b2)
    (currentState p) b2 p' b'.
Proof.
  intros Hb1 H. unfold stepDictKey in H.
  apply bind_done in H as ([[[[pd str] d] r] e] & Hd & H).
  destruct (doString_split _ _ _ _ _ _ _ _ Hb1 Hd)
    as [(r1 & H1 & -> & ->) | (p1 & H1 & Hcs & _ & _ & H2)].
  - left. exists r1. unfold stepDictKey. rewrite H1. cbn [bind andb] in *.
    destruct (is_none e).
    + unfold emit in *. inversion H; subst. split; [|reflexivity].
      congruence.
    + inversion H; subst. split; reflexivity.
  - right. exists p1. unfold stepDictKey at 1. rewrite H1. cbn [bind andb].
    split; [reflexivity|]. split; [assumption|].
    exists p'. unfold stepDictKey. rewrite H2. cbn [bind].
    split; [exact H | apply same_parser_refl].
Qed.

Lemma stepNumber_split_result (b1 b2 : list byte) (p p' : Parser)
  (b' : list byte) :
  b1 <> [] ->
  stepNumber vs ParseFloat (b1 ++ b2) p = (p', b', None) ->
  split_result (Done (stepNumber vs ParseFloat b1 p))
    (fun q => Done (stepNumber vs ParseFloat b2 q)) (currentState p) b2 p' b'.
Proof.
  intros Hb1 H.
  destruct (stepNumber_split _ _ _ _ _ _ Hb1 H)
    as [(r1 & H1 & ->) | (p1 & H1 & Hcs & _ & H2)].
  - left. exists r1. now rewrite H1.
  - right. exists p1. rewrite H1. split; [reflexivity|].
    split; [assumption|]. exists p'. rewrite H2.
    split; [reflexivity | apply same_parser_refl].
Qed.

(** ** Steps that look at one byte after white space *)

Ltac trim_split :=
  match goal with
  | |- context [trimLeft (?b1 ++ ?b2)] =>
      rewrite (trimLeft_app b1 b2);
      destruct (trimLeft b1) as [|?c ?r1];
      [intros H; right; split; [reflexivity | exact H]|];
      intros H; left;
      repeat match type of H with
      | context [if ?c then _ else _] => destruct c
      end;
      inversion H; subst; eexists; split; reflexivity
  end.

Lemma stepDict_split (b1 b2 : list byte) (allowEnd : bool) (p p' : Parser)
  (b' : list byte) :
  stepDict vs (b1 ++ b2) allowEnd p = (p', b', None) ->
  (exists r1, stepDict vs b1 allowEnd p = (p', r1, None) /\ b' = r1 ++ b2)
  \/ (stepDict vs b1 allowEnd p = (p, [], None)
      /\ stepDict vs b2 allowEnd p = (p', b', None)).
Proof. unfold stepDict, endDict, emit. trim_split. Qed.

Lemma stepDictValueEnd_split (b1 b2 : list byte) (p p' : Parser)
  (b' : list byte) :
  stepDictValueEnd vs (b1 ++ b2) p = (p', b', None) ->
  (exists r1, stepDictValueEnd vs b1 p = (p', r1, None) /\ b' = r1 ++ b2)
  \/ (stepDictValueEnd vs b1 p = (p, [], None)
      /\ stepDictValueEnd vs b2 p = (p', b', None)).
Proof. unfold stepDictValueEnd, endDict, emit. trim_split. Qed.

Lemma stepArray_split (b1 b2 : list byte) (allowEnd : bool) (p p' : Parser)
  (b' : list byte) :
  stepArray vs (b1 ++ b2) allowEnd p = (p', b', None) ->
  (exists r1, stepArray vs b1 allowEnd p = (p', r1, None) /\ b' = r1 ++ b2)
  \/ (stepArray vs b1 allowEnd p = (p, [], None)
      /\ stepArray vs b2 allowEnd p = (p', b', None)).
Proof. unfold stepArray, endArray, emit. trim_split. Qed.

Lemma stepArrValueEnd_split (b1 b2 : list byte) (p p' : Parser)
  (b' : list byte) :
  stepArrValueEnd vs (b1 ++ b2) p = (p', b', None) ->
  (exists r1, stepArrValueEnd vs b1 p = (p', r1, None) /\ b' = r1 ++ b2)
  \/ (stepArrValueEnd vs b1 p = (p, [], None)
      /\ stepArrValueEnd vs b2 p = (p', b', None)).
Proof. unfold stepArrValueEnd, endArray, emit. trim_split. Qed.

Lemma stepDictSep_split (b1 b2 : list byte) (p p' : Parser)
  (b' : list byte) :
  stepDictSep (b1 ++ b2) p = (p', b', None) ->
  (exists r1, stepDictSep b1 p = (p', r1, None) /\ b' = r1 ++ b2)
  \/ (stepDictSep b1 p = (p, [], None)
      /\ stepDictSep b2 p = (p', b', None)).
Proof. unfold stepDictSep. trim_split. Qed.

(** ** Values and the dispatch *)

Abbreviation step := (Json.step vs ParseFloat Unmarshal).

(** The split of one iteration of the loop of [feed]. *)
Definition step_splits (p : Parser) (b1 b2 : list byte) (p' : Parser)
  (b' : list byte) : Prop :=
  (exists r1, step p b1 = Done (p', r1, None) /\ b' = r1 ++ b2)
  \/ (exists p1,
        step p b1 = Done (p1, [], None) /\ currentState p1 <> failedState
        /\ exists p'', step p1 b2 = Done (p'', b', None)
                       /\ same_parser p' p'').

Lemma split_result_step (p p0 : Parser) (b1 b1' b2 : list byte)
  (first : outcome (Parser * list byte * option error))
  (second : Parser -> outcome (Parser * list byte * option error))
  (p' : Parser) (b' : list byte) :
  step p b1 = first ->
  currentState p0 <> failedState ->
  (forall q, currentState q = currentState p0 -> step q b2 = second q) ->
  split_result first second (currentState p0) b2 p' b' ->
  step_splits p b1 b2 p' b'.
Proof.
  intros Hf Hnf Hs [(r1 & H1 & H2) | (p1 & H1 & Hcs & p'' & H2 & H3)].
  - left. exists r1. now rewrite Hf.
  - right. exists p1. rewrite Hf. split; [assumption|].
    split; [congruence|]. exists p''. rewrite (Hs p1 Hcs). auto.
Qed.

Lemma stepValue_split (b1 b2 : list byte) (retState : state)
  (p p' : Parser) (b' : list byte) :
  wf p = true -> ret_ok retState (states p) = true ->
  (forall b, step p b = stepValue vs ParseFloat Unmarshal b retState p) ->
  stepValue vs ParseFloat Unmarshal (b1 ++ b2) retState p
  = Done (p', b', None) ->
  step_splits p b1 b2 p' b'.
Proof.
  intros Hwf Hret Hdisp H.
  destruct (ret_ok_push _ _ Hret) as [Hpush Hnf].
  unfold stepValue in H. rewrite trimLeft_app in H.
  destruct (trimLeft b1) as [|c r1] eqn:Ht.
  { right. exists p. rewrite Hdisp. unfold stepValue at 1. rewrite Ht.
    split; [reflexivity|]. split; [now apply wf_not_failed|].
    exists p'. rewrite Hdisp. split; [exact H | apply same_parser_refl]. }
  assert (Hb1 : step p b1 =
    (let p := set_currentState retState p in
     if Byte.eqb c "{"%byte then
       let '(p, e) := emit vs (OnObjectStart (-1) AnyType)
                        (pushState dictState p) in
       Done (p, r1, e)
     else if Byte.eqb c "["%byte then
       let '(p, e) := emit vs (OnArrayStart (-1) AnyType)
                        (pushState arrState p) in
       Done (p, r1, e)
     else if Byte.eqb c "n"%byte then
       stepNULL vs r1 (set_required 3 (pushState nullState p))
     else if Byte.eqb c "f"%byte then
       stepFALSE vs r1 (set_required 4 (pushState falseState p))
     else if Byte.eqb c "t"%byte then
       stepTRUE vs r1 (set_required 3 (pushState trueState p))
     else if Byte.eqb c dquote then
       stepString vs Unmarshal (c :: r1)
         (set_inEscape false (pushState stringState (set_literalBuffer [] p)))
     else
       if negb (Byte.eqb c "-"%byte || Byte.eqb c "+"%byte
                || Byte.eqb c "."%byte || isDigit c)
       then Done (p, c :: r1, Some errUnknownChar)
       else
         Done (stepNumber vs ParseFloat (c :: r1)
                 (set_isDouble false
                    (pushState numberState (set_literalBuffer [] p)))))).
  { rewrite Hdisp. unfold stepValue. rewrite Ht. reflexivity. }
  cbv zeta in H, Hb1.
  destruct (Byte.eqb c "{"%byte).
  { left. exists r1. rewrite Hb1. unfold emit in *.
    inversion H; subst. split; [congruence | reflexivity]. }
  destruct (Byte.eqb c "["%byte).
  { left. exists r1. rewrite Hb1. unfold emit in *.
    inversion H; subst. split; [congruence | reflexivity]. }
  assert (Hlit : forall kind er ev cs n,
            literal_state cs = true ->
            (forall q b, currentState q = cs ->
                         step q b = stepLiteral vs kind er ev b q) ->
            step p b1 = stepLiteral vs kind er ev r1
                          (set_required n
                             (pushState cs (set_currentState retState p))) ->
            stepLiteral vs kind er ev (r1 ++ b2)
              (set_required n (pushState cs (set_currentState retState p)))
            = Done (p', b', None) ->
            step_splits p b1 b2 p' b').
  { intros kind er ev cs n Hcs Hstep Hfirst Hwhole.
    rewrite pushState_ret in Hfirst, Hwhole by assumption.
    set (p0 := set_required n _) in Hfirst, Hwhole.
    assert (Hp0 : currentState p0 = cs) by (destruct p; reflexivity).
    apply (split_result_step p p0 b1 r1 b2 _
             (stepLiteral vs kind er ev b2) p' b' Hfirst).
    - rewrite Hp0. intros ->. discriminate.
    - intros q Hq. apply Hstep. congruence.
    - apply stepLiteral_split; [destruct p; exact Hpush | exact Hwhole]. }
  destruct (Byte.eqb c "n"%byte).
  { apply (Hlit (bytes "null") errExpectedNull OnNil nullState 3%nat
             eq_refl); auto.
    intros q b Hq. unfold Json.step. now rewrite Hq. }
  destruct (Byte.eqb c "f"%byte).
  { apply (Hlit (bytes "false") errExpectedFalse (OnBool false) falseState
             4%nat eq_refl); auto.
    intros q b Hq. unfold Json.step. now rewrite Hq. }
  destruct (Byte.eqb c "t"%byte).
  { apply (Hlit (bytes "true") errExpectedTrue (OnBool true) trueState
             3%nat eq_refl); auto.
    intros q b Hq. unfold Json.step. now rewrite Hq. }
  clear Hlit.
  destruct (Byte.eqb c dquote).
  { rewrite pushState_nf in * by (destruct p; exact Hnf).
    set (p0 := set_inEscape false _) in *.
    assert (Hp0 : currentState p0 = stringState) by (destruct p; reflexivity).
    apply (split_result_step p p0 b1 (c :: r1) b2 _
             (stepString vs Unmarshal b2) p' b' Hb1).
    - rewrite Hp0. discriminate.
    - intros q Hq. unfold Json.step. now rewrite Hq, Hp0.
    - change (c :: r1 ++ b2) with ((c :: r1) ++ b2) in H.
      apply stepString_split; [discriminate | exact H]. }
  destruct (negb _); [discriminate|].
  rewrite pushState_nf in * by (destruct p; exact Hnf).
  set (p0 := set_isDouble false _) in *.
  assert (Hp0 : currentState p0 = numberState) by (destruct p; reflexivity).
  apply (split_result_step p p0 b1 (c :: r1) b2 _
           (fun q => Done (stepNumber vs ParseFloat b2 q)) p' b' Hb1).
  - rewrite Hp0. discriminate.
  - intros q Hq. unfold Json.step. now rewrite Hq, Hp0.
  - change (c :: r1 ++ b2) with ((c :: r1) ++ b2) in H.
    apply stepNumber_split_result; [discriminate|]. now inversion H.
Qed.

Lemma simple_split (F : list byte -> Parser
                         -> Parser * list byte * option error)
  (p : Parser) (b1 b2 : list byte) (p' : Parser) (b' : list byte) :
  (forall b, step p b = Done (F b p)) ->
  currentState p <> failedState ->
  (exists r1, F b1 p = (p', r1, None) /\ b' = r1 ++ b2)
  \/ (F b1 p = (p, [], None) /\ F b2 p = (p', b', None)) ->
  step_splits p b1 b2 p' b'.
Proof.
  intros Hd Hnf [(r1 & H1 & H2) | (H1 & H2)].
  - left. exists r1. now rewrite Hd, H1.
  - right. exists p. rewrite Hd, H1. split; [reflexivity|].
    split; [assumption|]. exists p'. rewrite Hd, H2.
    split; [reflexivity | apply same_parser_refl].
Qed.

(** One iteration of the loop on [b1 ++ b2], seen from the fragment [b1]. *)
Lemma step_split (p : Parser) (b1 b2 : list byte) (p' : Parser)
  (b' : list byte) :
  wf p = true -> b1 <> [] ->
  step p (b1 ++ b2) = Done (p', b', None) ->
  step_splits p b1 b2 p' b'.
Proof.
  intros Hwf Hb1 H.
  pose proof (wf_not_failed p Hwf) as Hnf.
  assert (Hst : currentState p <> startState -> stack_ok (states p) = true).
  { unfold wf in Hwf. destruct (currentState p); try congruence;
      repeat (apply andb_prop in Hwf as [Hwf _]); auto. }
  unfold Json.step in H.
  destruct (currentState p) eqn:Hcs;
    try (specialize (Hst ltac:(discriminate)));
    try (assert (Hnf' : currentState p <> failedState)
           by (rewrite Hcs; discriminate)).
  - congruence.
  - (* startState *)
    unfold stepStart in H. rewrite Hcs in H.
    apply (stepValue_split b1 b2 startState); auto.
    + unfold wf in Hwf. rewrite Hcs in Hwf. exact Hwf.
    + intros b. unfold Json.step, stepStart. now rewrite Hcs.
  - apply (simple_split (fun b => stepArray vs b true)); auto.
    + intros b. unfold Json.step. now rewrite Hcs.
    + apply stepArray_split. now inversion H.
  - apply (stepValue_split b1 b2 arrStateNext); auto.
    intros b. unfold Json.step. now rewrite Hcs.
  - apply (simple_split (stepArrValueEnd vs)); auto.
    + intros b. unfold Json.step. now rewrite Hcs.
    + apply stepArrValueEnd_split. now inversion H.
  - apply (simple_split (fun b => stepDict vs b true)); auto.
    + intros b. unfold Json.step. now rewrite Hcs.
    + apply stepDict_split. now inversion H.
  - apply (split_result_step p p b1 b1 b2
             (stepDictKey vs Unmarshal b1 p) (stepDictKey vs Unmarshal b2));
      auto.
    + unfold Json.step. now rewrite Hcs.
    + intros q Hq. unfold Json.step. now rewrite Hq, Hcs.
    + now apply stepDictKey_split.
  - apply (simple_split (fun b => stepDict vs b false)); auto.
    + intros b. unfold Json.step. now rewrite Hcs.
    + apply stepDict_split. now inversion H.
  - apply (stepValue_split b1 b2 dictFieldStateEnd); auto.
    intros b. unfold Json.step. now rewrite Hcs.
  - apply (simple_split stepDictSep); auto.
    + intros b. unfold Json.step. now rewrite Hcs.
    + apply stepDictSep_split. now inversion H.
  - apply (simple_split (stepDictValueEnd vs)); auto.
    + intros b. unfold Json.step. now rewrite Hcs.
    + apply stepDictValueEnd_split. now inversion H.
  - apply (split_result_step p p b1 b1 b2
             (stepNULL vs b1 p) (stepNULL vs b2)); auto.
    + unfold Json.step. now rewrite Hcs.
    + intros q Hq. unfold Json.step. now rewrite Hq, Hcs.
    + now apply stepLiteral_split.
  - apply (split_result_step p p b1 b1 b2
             (stepTRUE vs b1 p) (stepTRUE vs b2)); auto.
    + unfold Json.step. now rewrite Hcs.
    + intros q Hq. unfold Json.step. now rewrite Hq, Hcs.
    + now apply stepLiteral_split.
  - apply (split_result_step p p b1 b1 b2
             (stepFALSE vs b1 p) (stepFALSE vs b2)); auto.
    + unfold Json.step. now rewrite Hcs.
    + intros q Hq. unfold Json.step. now rewrite Hq, Hcs.
    + now apply stepLiteral_split.
  - apply (split_result_step p p b1 b1 b2
             (stepString vs Unmarshal b1 p) (stepString vs Unmarshal b2));
      auto.
    + unfold Json.step. now rewrite Hcs.
    + intros q Hq. unfold Json.step. now rewrite Hq, Hcs.
    + now apply stepString_split.
  - apply (split_result_step p p b1 b1 b2
             (Done (stepNumber vs ParseFloat b1 p))
             (fun q => Done (stepNumber vs ParseFloat b2 q))); auto.
    + unfold Json.step. now rewrite Hcs.
    + intros q Hq. unfold Json.step. now rewrite Hq, Hcs.
    + apply stepNumber_split_result; auto. now inversion H.
Qed.

(** ** Steps from parsers that agree up to a dead [required] *)

(** The result of a step from [set_required x p], given the result from
    [p]. *)
Definition congr_result (x : nat)
  (o o' : outcome (Parser * list byte * option error)) : Prop :=
  forall p' b' e, o = Done (p', b', e) ->
  exists q', o' = Done (q', b', e) /\ same_parser p' q'.

Ltac same_tac :=
  unfold same_parser; cbn in *; repeat split;
  try (let Hlit := fresh "Hlit" in
       intros Hlit; try discriminate Hlit; try congruence).

Ltac case_all H :=
  repeat match type of H with
  | context [match ?x with _ => _ end] => destruct x eqn:?
  end.

Lemma popState_req (x : nat) (p : Parser) :
  popState (set_required x p) = set_required x (popState p).
Proof. destruct p as [e0 [|s l] cs lb isd es req tr]; reflexivity. Qed.

Lemma popState_not_literal (p : Parser) :
  stack_ok (states p) = true ->
  literal_state (currentState (popState p)) = false.
Proof.
  destruct p as [e0 [|s l] cs lb isd es req tr]; [discriminate|].
  apply stack_top_not_literal.
Qed.

Lemma same_parser_req_emit (x : nat) (ev : event) (p : Parser) :
  literal_state (currentState p) = false ->
  same_parser (fst (emit vs ev p)) (fst (emit vs ev (set_required x p))).
Proof. destruct p. intros H. same_tac. Qed.

Lemma endDict_congr (x : nat) (b : list byte) (p : Parser) :
  stack_ok (states p) = true ->
  congr_result x (Done (endDict vs b p))
    (Done (endDict vs b (set_required x p))).
Proof.
  intros Hst p' b' e H. apply popState_not_literal in Hst.
  unfold endDict, emit in *. rewrite popState_req.
  inversion H; subst. eexists. split; [destruct p; reflexivity|].
  destruct (popState p). same_tac.
Qed.

Lemma endArray_congr (x : nat) (b : list byte) (p : Parser) :
  stack_ok (states p) = true ->
  congr_result x (Done (endArray vs b p))
    (Done (endArray vs b (set_required x p))).
Proof.
  intros Hst p' b' e H. apply popState_not_literal in Hst.
  unfold endArray, emit in *. rewrite popState_req.
  inversion H; subst. eexists. split; [destruct p; reflexivity|].
  destruct (popState p). same_tac.
Qed.

Ltac simple_congr :=
  match goal with
  | |- congr_result _ (Done (match trimLeft ?b with _ => _ end)) _ =>
      destruct (trimLeft b) as [|?c ?r1]
  end;
  repeat match goal with
  | |- congr_result _ (Done (if ?c then _ else _)) _ => destruct c
  end;
  try (now apply endDict_congr); try (now apply endArray_congr);
  intros ?p' ?b' ?e H; inversion H; subst;
  (eexists; split; [reflexivity|]);
  match goal with p : Parser |- _ => destruct p end; same_tac.

Lemma stepDict_congr (x : nat) (b : list byte) (allowEnd : bool)
  (p : Parser) :
  stack_ok (states p) = true -> literal_state (currentState p) = false ->
  congr_result x (Done (stepDict vs b allowEnd p))
    (Done (stepDict vs b allowEnd (set_required x p))).
Proof. intros Hst Hl. unfold stepDict. simple_congr. Qed.

Lemma stepDictValueEnd_congr (x : nat) (b : list byte) (p : Parser) :
  stack_ok (states p) = true -> literal_state (currentState p) = false ->
  congr_result x (Done (stepDictValueEnd vs b p))
    (Done (stepDictValueEnd vs b (set_required x p))).
Proof. intros Hst Hl. unfold stepDictValueEnd. simple_congr. Qed.

Lemma stepArray_congr (x : nat) (b : list byte) (allowEnd : bool)
  (p : Parser) :
  stack_ok (states p) = true -> literal_state (currentState p) = false ->
  congr_result x (Done (stepArray vs b allowEnd p))
    (Done (stepArray vs b allowEnd (set_required x p))).
Proof. intros Hst Hl. unfold stepArray. simple_congr. Qed.

Lemma stepArrValueEnd_congr (x : nat) (b : list byte) (p : Parser) :
  stack_ok (states p) = true -> literal_state (currentState p) = false ->
  congr_result x (Done (stepArrValueEnd vs b p))
    (Done (stepArrValueEnd vs b (set_required x p))).
Proof. intros Hst Hl. unfold stepArrValueEnd. simple_congr. Qed.

Lemma stepDictSep_congr (x : nat) (b : list byte) (p : Parser) :
  literal_state (currentState p) = false ->
  congr_result x (Done (stepDictSep b p))
    (Done (stepDictSep b (set_required x p))).
Proof. intros Hl. unfold stepDictSep. simple_congr. Qed.

Lemma reportNumber_req (x : nat) (lit : list byte) (d : bool) (p : Parser) :
  reportNumber vs ParseFloat lit d (set_required x p)
  = (set_required x (fst (reportNumber vs ParseFloat lit d p)),
     snd (reportNumber vs ParseFloat lit d p)).
Proof.
  unfold reportNumber, emit.
  destruct d; [destruct (ParseFloat lit) | destruct (ParseInt lit)];
    destruct p; reflexivity.
Qed.

Lemma stepNumber_req (x : nat) (b : list byte) (p : Parser) :
  stepNumber vs ParseFloat b (set_required x p)
  = (let '(q, r, e) := stepNumber vs ParseFloat b p in
     (set_required x q, r, e)).
Proof.
  destruct p as [e0 sts cs lb isd es req tr].
  unfold stepNumber. cbn [set_required isDouble].
  destruct (scanNumber isd b 0) as [d [j|]]; [|reflexivity].
  unfold reportNumber, emit, popState.
  destruct lb as [|c lb]; cbn -[ParseInt]; destruct d;
    repeat match goal with
    | |- context [match ParseFloat ?l with _ => _ end] =>
        destruct (ParseFloat l)
    | |- context [match ParseInt ?l with _ => _ end] =>
        destruct (ParseInt l)
    end; destruct sts; reflexivity.
Qed.

Lemma stepNumber_congr (x : nat) (b : list byte) (p : Parser) :
  stack_ok (states p) = true -> literal_state (currentState p) = false ->
  congr_result x (Done (stepNumber vs ParseFloat b p))
    (Done (stepNumber vs ParseFloat b (set_required x p))).
Proof.
  intros Hst Hl p' b' e H. rewrite stepNumber_req.
  inversion H as [H']. rewrite H'. eexists. split; [reflexivity|].
  apply same_parser_set_required.
  revert H'. unfold stepNumber.
  destruct (scanNumber (isDouble p) b 0) as [d [j|]].
  - destruct (match literalBuffer (set_isDouble d p) with
              | [] => _ | _ :: _ => _ end) as [lit q] eqn:Hq.
    assert (Hq' : states q = states p).
    { destruct p as [e0 sts cs lb isd es req tr].
      cbn [set_isDouble literalBuffer] in Hq.
      destruct lb; inversion Hq; reflexivity. }
    destruct (reportNumber vs ParseFloat lit (isDouble q) q) as [q2 e2] eqn:Hr.
    destruct (reportNumber_frame _ _ _ _ _ _ _ Hr) as (H1 & _).
    intros E. inversion E; subst.
    apply popState_not_literal. congruence.
  - intros E. inversion E; subst. destruct p; exact Hl.
Qed.

Lemma doString_req (x : nat) (b : list byte) (p : Parser) :
  doString Unmarshal b (set_required x p)
  = match doString Unmarshal b p with
    | Done (q, s, d, r, e) => Done (set_required x q, s, d, r, e)
    | Panic => Panic
    | OutOfFuel => OutOfFuel
    end.
Proof.
  destruct p as [e0 sts cs lb isd es req tr]. unfold doString.
  cbn [set_required literalBuffer inEscape].
  destruct lb as [|c lb].
  - destruct b as [|c0 b]; [reflexivity|].
    destruct (scanString es b 0) as [esc [i|]]; [|reflexivity].
    cbn. destruct (Unmarshal _); reflexivity.
  - destruct (scanString es b 0) as [esc [i|]]; [|reflexivity].
    cbn. destruct (Unmarshal _); reflexivity.
Qed.

Lemma doString_frame (b : list byte) (p q : Parser) (s : list byte)
  (d : bool) (r : list byte) (e : option error) :
  doString Unmarshal b p = Done (q, s, d, r, e) ->
  states q = states p /\ currentState q = currentState p.
Proof.
  destruct p as [e0 sts cs lb isd es req tr]. unfold doString.
  cbn [literalBuffer inEscape].
  destruct lb as [|c lb].
  - destruct b as [|c0 b]; [discriminate|].
    destruct (scanString es b 0) as [esc [i|]].
    + cbn [set_inEscape literalBuffer]. destruct (Unmarshal _).
      intros H. inversion H. split; reflexivity.
    + intros H. inversion H. split; reflexivity.
  - destruct (scanString es b 0) as [esc [i|]].
    + cbn [set_inEscape literalBuffer set_literalBuffer].
      destruct (Unmarshal _). intros H. inversion H. split; reflexivity.
    + intros H. inversion H. split; reflexivity.
Qed.

Lemma emit_req (x : nat) (ev : event) (p : Parser) :
  emit vs ev (set_required x p)
  = (set_required x (fst (emit vs ev p)), snd (emit vs ev p)).
Proof. destruct p; reflexivity. Qed.

Lemma emit_state (ev : event) (p q : Parser) (e : option error) :
  emit vs ev p = (q, e) -> currentState q = currentState p.
Proof. unfold emit. intros H. inversion H. now destruct p. Qed.

Lemma stepString_congr (x : nat) (b : list byte) (p : Parser) :
  stack_ok (states p) = true -> literal_state (currentState p) = false ->
  congr_result x (stepString vs Unmarshal b p)
    (stepString vs Unmarshal b (set_required x p)).
Proof.
  intros Hst Hl p' b' e H. unfold stepString in *. rewrite doString_req.
  destruct (doString Unmarshal b p) as [[[[[q s] d] r] e1]| |] eqn:Hd;
    try discriminate.
  destruct (doString_frame _ _ _ _ _ _ _ Hd) as [H1 H2].
  cbn [bind] in *. destruct (d && is_none e1).
  - rewrite popState_req, emit_req.
    destruct (emit vs (OnString s) (popState q)) as [q2 e2] eqn:He.
    apply emit_state in He.
    cbn [fst snd]. inversion H; subst.
    eexists. split; [reflexivity|]. apply same_parser_set_required.
    rewrite He.
    apply popState_not_literal. congruence.
  - inversion H; subst. eexists. split; [reflexivity|].
    apply same_parser_set_required. congruence.
Qed.

Lemma stepDictKey_congr (x : nat) (b : list byte) (p : Parser) :
  literal_state (currentState p) = false ->
  congr_result x (stepDictKey vs Unmarshal b p)
    (stepDictKey vs Unmarshal b (set_required x p)).
Proof.
  intros Hl p' b' e H. unfold stepDictKey in *. rewrite doString_req.
  destruct (doString Unmarshal b p) as [[[[[q s] d] r] e1]| |] eqn:Hd;
    try discriminate.
  destruct (doString_frame _ _ _ _ _ _ _ Hd) as [H1 H2].
  cbn [bind] in *. destruct (d && is_none e1).
  - replace (set_currentState dictFieldValueSep (set_required x q))
      with (set_required x (set_currentState dictFieldValueSep q))
      by (destruct q; reflexivity).
    rewrite emit_req.
    destruct (emit vs (OnKey s) (set_currentState dictFieldValueSep q))
      as [q2 e2] eqn:He.
    apply emit_state in He.
    cbn [fst snd]. inversion H; subst.
    eexists. split; [reflexivity|]. apply same_parser_set_required.
    rewrite He. now destruct q.
  - inversion H; subst. eexists. split; [reflexivity|].
    apply same_parser_set_required. congruence.
Qed.

Lemma ret_ok_not_literal (retState : state) (sts : list state) :
  ret_ok retState sts = true -> literal_state retState = false.
Proof. destruct retState; simpl; try discriminate; reflexivity. Qed.

Lemma congr_result_refl (x : nat)
  (o : outcome (Parser * list byte * option error)) : congr_result x o o.
Proof.
  intros p' b' e H. exists p'. split; [assumption | apply same_parser_refl].
Qed.

Lemma stepValue_congr (x : nat) (b : list byte) (retState : state)
  (p : Parser) :
  ret_ok retState (states p) = true ->
  literal_state (currentState p) = false ->
  congr_result x (stepValue vs ParseFloat Unmarshal b retState p)
    (stepValue vs ParseFloat Unmarshal b retState (set_required x p)).
Proof.
  intros Hret Hl. unfold stepValue.
  destruct (ret_ok_push _ _ Hret) as [Hpush Hnf].
  pose proof (ret_ok_not_literal _ _ Hret) as Hrl.
  destruct (trimLeft b) as [|c r1].
  { intros p' b' e H. inversion H; subst. eexists. split; [reflexivity|].
    now apply same_parser_set_required. }
  assert (Hpush_req : forall next,
            pushState next (set_currentState retState (set_required x p))
            = set_required x (pushState next (set_currentState retState p))).
  { intros next. rewrite !pushState_nf by (destruct p; exact Hnf).
    destruct p; reflexivity. }
  assert (Hlit : forall next n,
            set_required n
              (pushState next (set_currentState retState (set_required x p)))
            = set_required n (pushState next (set_currentState retState p))).
  { intros next n. rewrite Hpush_req.
    destruct (pushState next (set_currentState retState p)); reflexivity. }
  cbv zeta.
  destruct (Byte.eqb c "{"%byte).
  { rewrite Hpush_req, emit_req.
    destruct (emit vs _ (pushState dictState _)) as [q2 e2] eqn:He.
    apply emit_state in He. cbn [fst snd].
    intros p' b' e H. inversion H; subst. eexists. split; [reflexivity|].
    apply same_parser_set_required. rewrite He.
    rewrite pushState_nf by (destruct p; exact Hnf). now destruct p. }
  destruct (Byte.eqb c "["%byte).
  { rewrite Hpush_req, emit_req.
    destruct (emit vs _ (pushState arrState _)) as [q2 e2] eqn:He.
    apply emit_state in He. cbn [fst snd].
    intros p' b' e H. inversion H; subst. eexists. split; [reflexivity|].
    apply same_parser_set_required. rewrite He.
    rewrite pushState_nf by (destruct p; exact Hnf). now destruct p. }
  destruct (Byte.eqb c "n"%byte); [rewrite Hlit; apply congr_result_refl|].
  destruct (Byte.eqb c "f"%byte); [rewrite Hlit; apply congr_result_refl|].
  destruct (Byte.eqb c "t"%byte); [rewrite Hlit; apply congr_result_refl|].
  destruct (Byte.eqb c dquote).
  { replace (set_inEscape false
               (pushState stringState
                  (set_literalBuffer []
                     (set_currentState retState (set_required x p)))))
      with (set_required x
              (set_inEscape false
                 (pushState stringState
                    (set_literalBuffer [] (set_currentState retState p)))))
      by (rewrite !pushState_nf by (destruct p; exact Hnf);
          destruct p; reflexivity).
    apply stepString_congr;
      rewrite pushState_nf by (destruct p; exact Hnf); destruct p;
      [exact Hpush | reflexivity]. }
  destruct (negb _).
  { intros p' b' e H. inversion H; subst. eexists. split; [reflexivity|].
    destruct p. same_tac. }
  replace (set_isDouble false
             (pushState numberState
                (set_literalBuffer []
                   (set_currentState retState (set_required x p)))))
    with (set_required x
            (set_isDouble false
               (pushState numberState
                  (set_literalBuffer [] (set_currentState retState p)))))
    by (rewrite !pushState_nf by (destruct p; exact Hnf);
        destruct p; reflexivity).
  apply stepNumber_congr;
    rewrite pushState_nf by (destruct p; exact Hnf); destruct p;
    [exact Hpush | reflexivity].
Qed.

(** A step from two parsers that agree up to a dead [required] gives the
    same rest and error, and parsers that agree in the same way. *)
Lemma step_congr (p q : Parser) (b : list byte) (p' : Parser)
  (b' : list byte) (e : option error) :
  wf p = true -> same_parser p q ->
  step p b = Done (p', b', e) ->
  exists q', step q b = Done (q', b', e) /\ same_parser p' q'.
Proof.
  intros Hwf Hsame H.
  destruct (literal_state (currentState p)) eqn:Hl.
  { rewrite (same_parser_literal _ _ Hsame Hl). exists p'.
    split; [assumption | apply same_parser_refl]. }
  rewrite (same_parser_eq _ _ Hsame). generalize (required q) as x.
  intros x. revert p' b' e H. fold (congr_result x (step p b)
                                      (step (set_required x p) b)).
  assert (Hst : currentState p <> startState -> stack_ok (states p) = true).
  { unfold wf in Hwf. destruct (currentState p); try congruence;
      repeat (apply andb_prop in Hwf as [Hwf _]); auto. }
  assert (Hcs' : currentState (set_required x p) = currentState p)
    by (destruct p; reflexivity).
  unfold Json.step. rewrite Hcs'.
  destruct (currentState p) eqn:Hcs; try discriminate;
    try (specialize (Hst ltac:(discriminate))).
  - unfold wf in Hwf. rewrite Hcs in Hwf. discriminate.
  - unfold stepStart. rewrite Hcs', Hcs.
    apply stepValue_congr; [|now rewrite Hcs].
    unfold wf in Hwf. rewrite Hcs in Hwf. exact Hwf.
  - apply stepArray_congr; [assumption | now rewrite Hcs].
  - apply stepValue_congr; [assumption | now rewrite Hcs].
  - apply stepArrValueEnd_congr; [assumption | now rewrite Hcs].
  - apply stepDict_congr; [assumption | now rewrite Hcs].
  - apply stepDictKey_congr. now rewrite Hcs.
  - apply stepDict_congr; [assumption | now rewrite Hcs].
  - apply stepValue_congr; [assumption | now rewrite Hcs].
  - apply stepDictSep_congr. now rewrite Hcs.
  - apply stepDictValueEnd_congr; [assumption | now rewrite Hcs].
  - apply stepString_congr; [assumption | now rewrite Hcs].
  - apply stepNumber_congr; [assumption | now rewrite Hcs].
Qed.

(** ** The loop of feed *)

Abbreviation feed_loop := (Json.feed_loop vs ParseFloat Unmarshal).
Abbreviation feed := (Json.feed vs ParseFloat Unmarshal).

Lemma step_wf (p : Parser) (b : list byte) (p' : Parser) (b' : list byte)
  (e : option error) :
  wf p = true -> b <> [] -> step p b = Done (p', b', e) -> wf p' = true.
Proof.
  intros Hwf Hb H.
  destruct (step_post vs ParseFloat Unmarshal p b Hwf Hb)
    as (q & r & e1 & Hq & Hwf' & _).
  congruence.
Qed.

Lemma feed_loop_0 (p : Parser) (c : byte) (b : list byte) (r : result) :
  currentState p <> failedState -> feed_loop 0 p (c :: b) = Done r -> False.
Proof.
  intros Hnf H. cbn [Json.feed_loop] in H.
  destruct (currentState p); congruence.
Qed.

Lemma feed_loop_congr (n : nat) :
  forall p q b r,
  wf p = true -> same_parser p q ->
  feed_loop n p b = Done r ->
  exists r', feed_loop n q b = Done r' /\ same_parser (st r) (st r')
             /\ ret r' = ret r /\ rest r' = rest r.
Proof.
  induction n as [|n IH]; intros p q b r Hwf Hsame H.
  - destruct b as [|c b].
    + cbn [Json.feed_loop] in *. inv_done H. eexists. split; [reflexivity|].
      cbn. auto.
    + exfalso. eapply feed_loop_0; eauto using wf_not_failed.
  - destruct b as [|c b].
    + cbn [Json.feed_loop] in *. inv_done H. eexists. split; [reflexivity|].
      cbn. auto.
    + pose proof (same_parser_wf _ _ Hsame Hwf) as Hwfq.
      rewrite feed_loop_step in * by now apply wf_not_failed.
      destruct (step p (c :: b)) as [[[p' b'] e]| |] eqn:Hstep;
        try discriminate.
      destruct (step_congr _ _ _ _ _ _ Hwf Hsame Hstep) as (q' & Hq & Hs').
      rewrite Hq. cbn [bind] in *.
      destruct e as [e|].
      * inv_done H. eexists. split; [reflexivity|]. cbn. auto.
      * apply (IH p'); auto.
        eapply step_wf; [exact Hwf | | exact Hstep]. discriminate.
Qed.

Lemma feed_nil (p : Parser) : feed p [] = Done (mkResult p [] None).
Proof. unfold Json.feed. now destruct (_ + _)%nat. Qed.

(** A call of feed with enough fuel. *)
Definition runs (p : Parser) (b : list byte) (r : result) : Prop :=
  exists n, feed_loop n p b = Done r.

Lemma runs_feed (p : Parser) (b : list byte) (r : result) :
  wf p = true -> runs p b r -> feed p b = Done r.
Proof.
  intros Hwf [n Hn].
  destruct (feed_total vs ParseFloat Unmarshal p b Hwf) as (r' & Hr' & _).
  unfold Json.feed in *.
  set (k := (4 * length b + 2 * length (states p) + 2)%nat) in *.
  pose proof (feed_loop_mono vs ParseFloat Unmarshal _ (Nat.max n k) _ _ _ Hn
                ltac:(lia)) as H1.
  pose proof (feed_loop_mono vs ParseFloat Unmarshal _ (Nat.max n k) _ _ _ Hr'
                ltac:(lia)) as H2.
  congruence.
Qed.

Lemma runs_step (p : Parser) (c : byte) (b : list byte) (p' : Parser)
  (b' : list byte) (r : result) :
  currentState p <> failedState ->
  step p (c :: b) = Done (p', b', None) -> runs p' b' r ->
  runs p (c :: b) r.
Proof.
  intros Hnf Hstep [n Hn]. exists (S n).
  rewrite feed_loop_step by assumption. now rewrite Hstep.
Qed.

Lemma split_runs (n : nat) :
  forall p b1 b2 r,
  wf p = true -> b2 <> [] ->
  feed_loop n p (b1 ++ b2) = Done r -> ret r = None ->
  exists r1 r2,
    runs p b1 r1 /\ ret r1 = None /\ wf (st r1) = true
    /\ runs (st r1) b2 r2 /\ ret r2 = None
    /\ same_parser (st r) (st r2).
Proof.
  induction n as [|n IH]; intros p b1 b2 r Hwf Hb2 H Hret.
  - destruct b1 as [|c b1].
    + exists (mkResult p [] None), r.
      split; [now exists 0%nat|]. split; [reflexivity|].
      split; [assumption|]. split; [now exists 0%nat|].
      split; [assumption | apply same_parser_refl].
    + exfalso. eapply feed_loop_0; eauto using wf_not_failed.
  - destruct b1 as [|c b1].
    + exists (mkResult p [] None), r.
      split; [now exists 0%nat|]. split; [reflexivity|].
      split; [assumption|]. split; [now exists (S n)|].
      split; [assumption | apply same_parser_refl].
    + pose proof (wf_not_failed p Hwf) as Hnf.
      change ((c :: b1) ++ b2) with (c :: (b1 ++ b2)) in H.
      rewrite feed_loop_step in H by assumption.
      destruct (step p (c :: b1 ++ b2)) as [[[p' b'] e]| |] eqn:Hstep;
        try discriminate.
      cbn [bind] in H.
      destruct e as [e|]; [inv_done H; discriminate|].
      assert (Hwf' : wf p' = true)
        by (eapply step_wf; [exact Hwf | | exact Hstep]; discriminate).
      change (c :: b1 ++ b2) with ((c :: b1) ++ b2) in Hstep.
      destruct (step_split p (c :: b1) b2 p' b' Hwf ltac:(discriminate) Hstep)
        as [(rr & H1 & ->) | (p1 & H1 & Hp1 & p'' & H2 & Hs)].
      * destruct (IH p' rr b2 r Hwf' Hb2 H Hret)
          as (r1 & r2 & Hr1 & He1 & Hw1 & Hr2 & He2 & Hsame).
        exists r1, r2. split; [eapply runs_step; eauto|]. auto.
      * assert (Hwf1 : wf p1 = true)
          by (eapply step_wf; [exact Hwf | | exact H1]; discriminate).
        destruct (feed_loop_congr n p' p'' b' r Hwf' Hs H)
          as (r2 & Hr2 & Hsame & He2 & _).
        exists (mkResult p1 [] None), r2.
        split; [exists 1%nat; rewrite feed_loop_step by assumption;
                now rewrite H1|].
        split; [reflexivity|]. split; [assumption|].
        split; [|split; [congruence | assumption]].
        destruct b2 as [|c2 b2]; [now contradiction Hb2|].
        eapply runs_step; eauto. now exists n.
Qed.

(** Feeding [b1] and then [b2] gives what feeding [b1 ++ b2] gives, when
    the latter returns without an error. *)
Lemma feed_split (p : Parser) (b1 b2 : list byte) (r : result) :
  wf p = true ->
  feed p (b1 ++ b2) = Done r -> ret r = None ->
  exists r1 r2,
    feed p b1 = Done r1 /\ ret r1 = None /\ wf (st r1) = true
    /\ feed (st r1) b2 = Done r2 /\ ret r2 = None
    /\ same_parser (st r) (st r2).
Proof.
  intros Hwf H Hret.
  destruct (feed_total vs ParseFloat Unmarshal p (b1 ++ b2) Hwf)
    as (r0 & Hr0 & Hwf0 & _).
  assert (r0 = r) by congruence. subst r0.
  destruct b2 as [|c2 b2].
  - rewrite app_nil_r in H. exists r, (mkResult (st r) [] None).
    split; [assumption|]. split; [assumption|]. split; [assumption|].
    split; [|split; [reflexivity | apply same_parser_refl]].
    apply runs_feed; [assumption | now exists 0%nat].
  - destruct (split_runs _ p b1 (c2 :: b2) r Hwf ltac:(discriminate) H Hret)
      as (r1 & r2 & Hr1 & He1 & Hw1 & Hr2 & He2 & Hsame).
    exists r1, r2. split; [now apply runs_feed|].
    split; [assumption|]. split; [assumption|].
    split; [now apply runs_feed|]. auto.
Qed.

(** Chunk invariance of the text decoder: when feeding the whole input to a
    well-formed parser returns without an error, feeding any list of
    fragments that make up the input returns without an error too, with the
    same events delivered and the same parser up to a dead [required]. *)
Lemma feed_all_concat (frags : list (list byte)) :
  forall p r,
  wf p = true ->
  feed p (concat frags) = Done r -> ret r = None ->
  exists r',
    feed_all vs ParseFloat Unmarshal p frags = Done r'
    /\ ret r' = None /\ same_parser (st r) (st r').
Proof.
  induction frags as [|f fs IH]; intros p r Hwf H Hret.
  - cbn [concat] in H. rewrite feed_nil in H. inv_done H. exists (mkResult p [] None).
    split; [reflexivity|]. split; [reflexivity | apply same_parser_refl].
  - cbn [concat] in H.
    destruct (feed_split p f (concat fs) r Hwf H Hret)
      as (r1 & r2 & Hr1 & He1 & Hw1 & Hr2 & He2 & Hsame).
    destruct (IH (st r1) r2 Hw1 Hr2 He2) as (r' & Hr' & He' & Hsame').
    exists r'. cbn [feed_all]. rewrite Hr1. cbn [bind]. rewrite He1.
    split; [assumption|]. split; [assumption|].
    eapply same_parser_trans; eauto.
Qed.

End Split.

End JsonChunks.
(** * Further properties of the text decoder *)

Module JsonExtras.
Import Json JsonProofs JsonChunks.

Section Extras.

Variable vs : Visitor.
Variable ParseFloat : list byte -> Z + error.
Variable Unmarshal : list byte -> list byte * option error.

Abbreviation feed_loop := (Json.feed_loop vs ParseFloat Unmarshal).
Abbreviation feed := (Json.feed vs ParseFloat Unmarshal).
Abbreviation feed_all := (Json.feed_all vs ParseFloat Unmarshal).
Abbreviation step := (Json.step vs ParseFloat Unmarshal).
Abbreviation finalize := (Json.finalize vs ParseFloat).
Abbreviation Parse := (Json.Parse vs ParseFloat Unmarshal).
Abbreviation reachable := (Json.reachable vs ParseFloat Unmarshal).

(** ** Fragments *)

Lemma finalize_same (p q : Parser) :
  same_parser p q ->
  snd (finalize p) = snd (finalize q)
  /\ trace (fst (finalize p)) = trace (fst (finalize q)).
Proof.
  destruct p as [e1 s1 c1 l1 d1 i1 r1 t1], q as [e2 s2 c2 l2 d2 i2 r2 t2].
  unfold same_parser. cbn [err states currentState literalBuffer isDouble
                             inEscape trace required].
  intros (-> & -> & -> & -> & -> & -> & -> & _).
  unfold Json.finalize, reportNumber, emit, popState.
  cbn [currentState literalBuffer isDouble trace states set_trace
         set_states set_currentState].
  destruct c2; try (destruct s2; split; reflexivity).
  destruct d2; [destruct (ParseFloat l2) | destruct (ParseInt l2)];
    try (split; reflexivity);
    (destruct (vs t2 _); [split; reflexivity|]);
    destruct s2 as [|x [|y s2]]; try (split; reflexivity);
    destruct x; split; reflexivity.
Qed.

(** X1. Chunk invariance of the text decoder: when feeding a byte
    sequence to a new parser in one call returns without an error, feeding
    it as any list of fragments (empty ones included) returns without an
    error as well, with the same events delivered in the same order.  The
    two parsers agree in every field except possibly the count of literal
    bytes still required, which is only read while a literal is open and
    agrees then; finalize returns the same error and delivers the same
    events on both. *)
Theorem text_chunk_invariance (frags : list (list byte)) (r : result) :
  feed NewParser (concat frags) = Done r -> ret r = None ->
  exists r',
    feed_all NewParser frags = Done r' /\ ret r' = None
    /\ trace (st r') = trace (st r)
    /\ same_parser (st r) (st r')
    /\ snd (finalize (st r')) = snd (finalize (st r))
    /\ trace (fst (finalize (st r'))) = trace (fst (finalize (st r))).
Proof.
  intros H Hret.
  destruct (feed_all_concat vs ParseFloat Unmarshal frags NewParser r
              eq_refl H Hret) as (r' & H1 & H2 & Hs).
  exists r'. split; [exact H1|]. split; [exact H2|].
  destruct (finalize_same _ _ Hs) as [F1 F2].
  destruct Hs as (S1 & S2 & S3 & S4 & S5 & S6 & S7 & S8).
  split; [now symmetry|].
  split; [unfold same_parser; auto 10|]. split; now symmetry.
Qed.

(** ** The failed state *)

Lemma stack_ok_no_failed (l : list state) :
  stack_ok l = true -> Forall (fun s => s <> failedState) l.
Proof.
  induction l as [|s l IH]; [constructor|].
  cbn [stack_ok]. destruct l as [|s' l'].
  - intros H. apply state_eqb_eq in H. subst s.
    constructor; [discriminate | constructor].
  - intros H. apply andb_prop in H as [H1 H2].
    constructor; [|now apply IH].
    intros ->. discriminate H1.
Qed.

(** X2. The failed state is never entered: a parser obtained from a new
    one by any calls of feed and Write, whatever they returned, is not in
    the failed state and holds no failed frame on its stack.  So no error
    is ever replayed by a later call. *)
Theorem failed_state_unreachable (p : Parser) :
  reachable p ->
  currentState p <> failedState
  /\ Forall (fun s => s <> failedState) (states p).
Proof.
  intros Hr. pose proof (reachable_wf vs ParseFloat Unmarshal p Hr) as Hwf.
  split; [now apply wf_not_failed|].
  unfold wf in Hwf.
  destruct (currentState p); try discriminate;
    try (now apply stack_ok_no_failed);
    try (destruct (states p); [constructor | discriminate]);
    apply andb_prop in Hwf as [Hwf _]; apply andb_prop in Hwf as [Hwf _];
    now apply stack_ok_no_failed.
Qed.

(** ** White space *)

Lemma feed_loop_nil (n : nat) (p : Parser) :
  feed_loop n p [] = Done (mkResult p [] None).
Proof. destruct n; reflexivity. Qed.

(** X3. White space between values: in every state that stands between
    two tokens (not inside a string, a number or a literal), a fragment
    made only of white space, or an empty one, is consumed without any
    event and leaves the parser exactly as it was.  White space is what
    [unicode.IsSpace] accepts for a byte. *)
Theorem white_space_is_skipped (p : Parser) (b : list byte) :
  skips_space (currentState p) = true -> forallb isSpace b = true ->
  feed p b = Done (mkResult p [] None).
Proof.
  intros Hs Hb. unfold Json.feed.
  destruct b as [|c b]; [apply feed_loop_nil|].
  replace (4 * length (c :: b) + 2 * length (states p) + 2)%nat
    with (S (4 * length (c :: b) + 2 * length (states p) + 1)) by lia.
  rewrite feed_loop_step
    by (intros E; rewrite E in Hs; discriminate).
  pose proof (trimLeft_all_space _ Hb) as Ht.
  assert (Hstep : step p (c :: b) = Done (p, [], None)).
  { unfold Json.step, stepStart, stepValue, stepDict, stepDictValueEnd,
      stepArray, stepArrValueEnd, stepDictSep.
    destruct (currentState p); try discriminate; now rewrite Ht. }
  rewrite Hstep. cbn [bind]. apply feed_loop_nil.
Qed.

(** ** Integer literals *)

Lemma digit_facts (c : byte) :
  isDigit c = true ->
  isSpace c = false /\ isStopChar c = false /\ isDoubleChar c = false
  /\ Byte.eqb c "{"%byte = false /\ Byte.eqb c "["%byte = false
  /\ Byte.eqb c "n"%byte = false /\ Byte.eqb c "f"%byte = false
  /\ Byte.eqb c "t"%byte = false /\ Byte.eqb c dquote = false
  /\ Byte.eqb c "-"%byte = false /\ Byte.eqb c "+"%byte = false
  /\ 0 <= byteZ c - 48 <= 9.
Proof.
  destruct c; vm_compute; intros H; try discriminate H;
    repeat split; discriminate.
Qed.

Lemma digits_no_stop (ds : list byte) :
  forallb isDigit ds = true ->
  no_stop ds /\ existsb isDoubleChar ds = false.
Proof.
  induction ds as [|c ds IH]; cbn [forallb existsb].
  - intros _. split; [intros x []|reflexivity].
  - intros H. apply andb_prop in H as [Hc Hds].
    destruct (digit_facts c Hc) as (_ & Hs & Hd & _).
    destruct (IH Hds) as [IH1 IH2]. rewrite Hd, IH2.
    split; [|reflexivity].
    intros x [<-|Hx]; [|now apply IH1].
    intros Hin. apply isStopChar_spec in Hin. congruence.
Qed.

Lemma fold_digits_ge (ds : list byte) :
  forall acc,
  forallb isDigit ds = true -> 0 <= acc ->
  acc <= fold_left (fun a c => 10 * a + (byteZ c - 48)) ds acc.
Proof.
  induction ds as [|c ds IH]; intros acc H Ha; cbn [fold_left]; [lia|].
  cbn [forallb] in H. apply andb_prop in H as [Hc Hds].
  destruct (digit_facts c Hc) as (_ & _ & _ & _ & _ & _ & _ & _ & _ & _ & _
                                  & Hd).
  specialize (IH (10 * acc + (byteZ c - 48)) Hds ltac:(lia)). lia.
Qed.

Lemma parseUint_digits (ds : list byte) :
  forall acc,
  forallb isDigit ds = true -> 0 <= acc < 2 ^ 64 ->
  parseUint acc ds =
  let v := fold_left (fun a c => 10 * a + (byteZ c - 48)) ds acc in
  if v <? 2 ^ 64 then Some (Some v) else Some None.
Proof.
  induction ds as [|c ds IH]; intros acc H Ha; cbn [parseUint fold_left].
  - cbv zeta. destruct (Z.ltb_spec acc (2 ^ 64)); [reflexivity | lia].
  - cbn [forallb] in H. apply andb_prop in H as [Hc Hds]. rewrite Hc.
    destruct (digit_facts c Hc) as (_ & _ & _ & _ & _ & _ & _ & _ & _ & _ & _
                                    & Hd).
    cbv zeta.
    destruct (Z.leb_spec (2 ^ 64) (10 * acc + (byteZ c - 48))) as [Hb|Hb].
    + pose proof (fold_digits_ge ds (10 * acc + (byteZ c - 48)) Hds
                    ltac:(lia)) as Hge.
      destruct (Z.ltb_spec
                  (fold_left (fun a c0 => 10 * a + (byteZ c0 - 48)) ds
                     (10 * acc + (byteZ c - 48))) (2 ^ 64));
        [lia | reflexivity].
    + apply IH; [exact Hds | lia].
Qed.

Lemma ParseInt_digits (ds : list byte) :
  ds <> [] -> forallb isDigit ds = true ->
  ParseInt ds
  = (if digitsValue ds <? 2 ^ 63 then inl (digitsValue ds)
     else inr (errNumRange ds))
  /\ ParseInt ("-"%byte :: ds)
     = (if digitsValue ds <=? 2 ^ 63 then inl (- digitsValue ds)
        else inr (errNumRange ("-"%byte :: ds))).
Proof.
  intros Hne H.
  pose proof (parseUint_digits ds 0 H ltac:(lia)) as Hp. cbv zeta in Hp.
  fold (digitsValue ds) in Hp.
  pose proof (fold_digits_ge ds 0 H ltac:(lia)) as Hge.
  fold (digitsValue ds) in Hge.
  destruct ds as [|c ds]; [now contradiction Hne|].
  cbn [forallb] in H. apply andb_prop in H as [Hc _].
  destruct (digit_facts c Hc) as (_ & _ & _ & _ & _ & _ & _ & _ & _ & Hm & Hpl
                                  & _).
  split.
  - unfold ParseInt. rewrite Hpl, Hm, Hp.
    destruct (Z.ltb_spec (digitsValue (c :: ds)) (2 ^ 64));
      destruct (Z.ltb_spec (digitsValue (c :: ds)) (2 ^ 63)); try lia;
      try reflexivity;
      destruct (Z.leb_spec (2 ^ 63) (digitsValue (c :: ds))); try lia;
      reflexivity.
  - unfold ParseInt.
    change (Byte.eqb "-"%byte "+"%byte) with false.
    change (Byte.eqb "-"%byte "-"%byte) with true. cbv iota. rewrite Hp.
    destruct (Z.ltb_spec (digitsValue (c :: ds)) (2 ^ 64));
      destruct (Z.leb_spec (digitsValue (c :: ds)) (2 ^ 63)); try lia;
      try reflexivity;
      destruct (Z.ltb_spec (2 ^ 63) (digitsValue (c :: ds))); try lia;
      reflexivity.
Qed.

(** A literal that starts a number and holds no stop byte is collected as a
    whole by one call of feed. *)
Lemma feed_number_literal (c : byte) (lit : list byte) :
  isSpace c = false ->
  Byte.eqb c "{"%byte = false -> Byte.eqb c "["%byte = false ->
  Byte.eqb c "n"%byte = false -> Byte.eqb c "f"%byte = false ->
  Byte.eqb c "t"%byte = false -> Byte.eqb c dquote = false ->
  Byte.eqb c "-"%byte || Byte.eqb c "+"%byte || Byte.eqb c "."%byte
  || isDigit c = true ->
  no_stop (c :: lit) -> existsb isDoubleChar (c :: lit) = false ->
  feed NewParser (c :: lit)
  = Done (mkResult
            (mkParser None [startState] numberState (c :: lit) false false
               0 []) [] None).
Proof.
  intros Hsp H1 H2 H3 H4 H5 H6 Hnum Hns Hd. unfold Json.feed.
  replace (4 * length (c :: lit) + 2 * length (states NewParser) + 2)%nat
    with (S (4 * length (c :: lit) + 1)) by (cbn [states NewParser length]; lia).
  rewrite feed_loop_step by discriminate.
  assert (Hstep : step NewParser (c :: lit)
                  = Done (mkParser None [startState] numberState (c :: lit)
                            false false 0 [], [], None)).
  { unfold Json.step. cbn [currentState NewParser]. unfold stepStart.
    unfold stepValue. cbn [trimLeft]. rewrite Hsp, H1, H2, H3, H4, H5, H6.
    cbv zeta. rewrite Hnum. cbn [negb]. unfold stepNumber.
    rewrite (scanNumber_no_stop _ _ _ Hns), Hd. reflexivity. }
  rewrite Hstep. cbn [bind]. apply feed_loop_nil.
Qed.

(** X4. Integer literals: for a non-empty run of decimal digits that
    writes the number [v], decoding the run as a complete input delivers
    the int64 event carrying [v] when [v] is below 2^63 and returns the
    range error of the conversion, with no event, otherwise; with a minus
    sign in front it delivers [-v] when [v] is at most 2^63 and returns
    the range error otherwise.  A delivered event's answer from the
    visitor is the result. *)
Theorem integer_literals (ds : list byte) :
  ds <> [] -> forallb isDigit ds = true ->
  let v := digitsValue ds in
  (exists p,
     Parse NewParser ds
     = Done (p, if v <? 2 ^ 63 then vs [] (OnInt64 v)
                else Some (errNumRange ds))
     /\ trace p = if v <? 2 ^ 63 then [OnInt64 v] else [])
  /\ (exists p,
        Parse NewParser ("-"%byte :: ds)
        = Done (p, if v <=? 2 ^ 63 then vs [] (OnInt64 (- v))
                   else Some (errNumRange ("-"%byte :: ds)))
        /\ trace p = if v <=? 2 ^ 63 then [OnInt64 (- v)] else []).
Proof.
  intros Hne H v.
  destruct (ParseInt_digits ds Hne H) as [P1 P2]. fold v in P1, P2.
  destruct (digits_no_stop ds H) as [Hns Hd].
  split.
  - destruct ds as [|c ds']; [now contradiction Hne|].
    pose proof H as H'. cbn [forallb] in H'.
    apply andb_prop in H' as [Hc _].
    destruct (digit_facts c Hc)
      as (F1 & _ & _ & F2 & F3 & F4 & F5 & F6 & F7 & _).
    unfold Json.Parse.
    rewrite feed_number_literal; auto;
      [|rewrite Hc; now rewrite !orb_true_r].
    cbn [bind ret st]. unfold Json.finalize, reportNumber, emit.
    cbn [currentState set_err literalBuffer isDouble]. rewrite P1.
    clearbody v.
    destruct (v <? 2 ^ 63); [|eexists; split; reflexivity].
    cbn [trace set_err]. destruct (vs [] (OnInt64 v));
      eexists; split; reflexivity.
  - unfold Json.Parse.
    assert (Hns' : no_stop ("-"%byte :: ds)).
    { intros x [<-|Hx]; [|now apply Hns].
      vm_compute. intuition discriminate. }
    assert (Hd' : existsb isDoubleChar ("-"%byte :: ds) = false).
    { cbn [existsb]. rewrite Hd. reflexivity. }
    rewrite (feed_number_literal "-"%byte ds eq_refl eq_refl eq_refl eq_refl
               eq_refl eq_refl eq_refl eq_refl Hns' Hd').
    cbn [bind ret st]. unfold Json.finalize, reportNumber, emit.
    cbn [currentState set_err literalBuffer isDouble]. rewrite P2.
    clearbody v.
    destruct (v <=? 2 ^ 63); [|eexists; split; reflexivity].
    cbn [trace set_err].
    destruct (vs [] (OnInt64 (- v))); eexists; split; reflexivity.
Qed.

(** ** The first step of a call *)

Lemma feed_first_step (p : Parser) (c : byte) (b : list byte) :
  currentState p <> failedState ->
  feed p (c :: b) =
  ('(p', b', e) <- step p (c :: b) ;;
   match e with
   | Some e => Done (mkResult p' b' (Some e))
   | None =>
       feed_loop (4 * length (c :: b) + 2 * length (states p) + 1) p' b'
   end).
Proof.
  intros H. unfold Json.feed.
  replace (4 * length (c :: b) + 2 * length (states p) + 2)%nat
    with (S (4 * length (c :: b) + 2 * length (states p) + 1)) by lia.
  now apply feed_loop_step.
Qed.

(** ** String literals *)

Lemma scanString_plain (s : list byte) :
  forall i rest,
  Forall (fun x => x <> dquote /\ x <> backslash) s ->
  scanString false (s ++ dquote :: rest) i = (false, Some (i + length s)%nat).
Proof.
  induction s as [|c s IH]; intros i rest H; cbn [app scanString length].
  - change (Byte.eqb dquote dquote) with true. cbv iota.
    now rewrite Nat.add_0_r.
  - inversion H as [|? ? [H1 H2] H']; subst.
    destruct (Byte.eqb c dquote) eqn:E1;
      [apply byte_eqb_eq in E1; contradiction|].
    destruct (Byte.eqb c backslash) eqn:E2;
      [apply byte_eqb_eq in E2; contradiction|].
    rewrite IH by assumption. do 2 f_equal. lia.
Qed.

(** X5. String literals without escapes: for any bytes [s] free of double
    quotes and backslashes, decoding [s] between double quotes as a
    complete input hands the whole literal, quotes included, to the
    unescape primitive.  When the primitive fails its error is returned and
    no event is delivered; otherwise the string event carrying its result
    is delivered and the visitor's answer is returned. *)
Theorem plain_string_literal (s : list byte) :
  Forall (fun x => x <> dquote /\ x <> backslash) s ->
  let lit := dquote :: s ++ [dquote] in
  exists p,
    Parse NewParser lit
    = Done (p, match snd (Unmarshal lit) with
               | Some e => Some e
               | None => vs [] (OnString (fst (Unmarshal lit)))
               end)
    /\ trace p = match snd (Unmarshal lit) with
                 | Some _ => []
                 | None => [OnString (fst (Unmarshal lit))]
                 end.
Proof.
  intros Hs lit. unfold Json.Parse.
  unfold lit at 1. rewrite feed_first_step by discriminate.
  assert (Hstep : step NewParser (dquote :: s ++ [dquote])
    = let '(str, ue) := Unmarshal lit in
      match ue with
      | Some e =>
          Done (mkParser None [startState] stringState [] false false 0 [],
                [], Some e)
      | None =>
          Done (mkParser None [] startState [] false false 0 [OnString str],
                [], vs [] (OnString str))
      end).
  { change (step NewParser (dquote :: s ++ [dquote]))
      with (stepString vs Unmarshal (dquote :: s ++ [dquote])
              (mkParser None [startState] stringState [] false false 0 [])).
    unfold stepString, doString.
    cbn [literalBuffer inEscape].
    rewrite (scanString_plain s 0 [] Hs). cbn [Nat.add].
    replace (length s + 2)%nat with (length (dquote :: s ++ [dquote]))
      by (cbn [length]; rewrite length_app; cbn [length]; lia).
    rewrite skipn_all, firstn_all. fold lit.
    cbn [literalBuffer set_inEscape].
    destruct (Unmarshal lit) as [str [e|]]; reflexivity. }
  rewrite Hstep. clearbody lit.
  destruct (Unmarshal lit) as [str [e|]]; cbn [bind snd fst].
  - eexists. split; reflexivity.
  - destruct (vs [] (OnString str)) eqn:E; cbn [bind].
    + eexists. split; reflexivity.
    + rewrite feed_loop_nil. cbn [bind ret st].
      eexists. split; reflexivity.
Qed.

(** ** Errors at the start of a value *)

(** X6. A byte that cannot start a value: when the first byte of a
    fragment that is not white space is none of the opening brace and
    bracket, [n], [f], [t], the double quote, a sign, the dot and the
    digits, a new parser returns the unknown-character error, delivers no
    event and is unchanged; the bytes from the offending one on are left
    unconsumed. *)
Theorem unknown_leading_byte (ws : list byte) (c : byte) (rest : list byte) :
  forallb isSpace ws = true -> isSpace c = false -> startsValue c = false ->
  feed NewParser (ws ++ c :: rest)
  = Done (mkResult NewParser (c :: rest) (Some errUnknownChar)).
Proof.
  intros Hws Hc Hv.
  assert (Ht : trimLeft (ws ++ c :: rest) = c :: rest).
  { clear Hv. induction ws as [|x ws IH]; cbn [app trimLeft].
    - now rewrite Hc.
    - cbn [forallb] in Hws. apply andb_prop in Hws as [Hx Hws].
      rewrite Hx. now apply IH. }
  unfold startsValue in Hv.
  repeat (apply orb_false_elim in Hv as [Hv ?]).
  destruct (ws ++ c :: rest) as [|x xs] eqn:E;
    [destruct ws; discriminate E|].
  rewrite feed_first_step by discriminate.
  assert (Hstep : step NewParser (x :: xs)
                  = Done (NewParser, c :: rest, Some errUnknownChar)).
  { unfold Json.step. cbn [currentState NewParser].
    unfold stepStart, stepValue. rewrite Ht. cbv zeta.
    repeat match goal with
           | H : Byte.eqb c _ = false |- _ => rewrite H; clear H
           end.
    match goal with H : isDigit c = false |- _ => rewrite H end.
    reflexivity. }
  rewrite Hstep. reflexivity.
Qed.

(** ** Literals *)

Lemma stepLiteral_mismatch (kind : list byte) (er : error) (ev : event)
  (b : list byte) (p : Parser) :
  (required p <= length kind)%nat ->
  hasPrefix b (firstn (length b)
                 (skipn (length kind - required p) kind)) = false ->
  exists p',
    stepLiteral vs kind er ev b p = Done (p', b, Some er)
    /\ trace p' = trace p.
Proof.
  intros Hn H. unfold stepLiteral, stepKind. cbv zeta.
  destruct (Nat.ltb_spec (length kind) (required p)) as [?|_]; [lia|].
  destruct (Nat.ltb_spec (length b) (required p)) as [Hl|Hl].
  - rewrite H. cbn [negb bind]. eexists. split; reflexivity.
  - rewrite firstn_all2 in H by (rewrite length_skipn; lia).
    rewrite H. cbn [negb bind]. eexists. split; reflexivity.
Qed.

(** X7. A literal that does not match: after the first byte [n], [t] or
    [f] of a value, bytes that differ from the rest of [null], [true] or
    [false] (compared as far as the fragment reaches) make a new parser
    return the error naming the expected literal; no event is delivered
    and the bytes after the first one are left unconsumed. *)
Theorem literal_mismatch (b : list byte) :
  let fails c tail e :=
    hasPrefix b (firstn (length b) (bytes tail)) = false ->
    exists r,
      feed NewParser (c :: b) = Done r
      /\ ret r = Some e /\ rest r = b /\ trace (st r) = [] in
  fails "n"%byte "ull"%string errExpectedNull
  /\ fails "t"%byte "rue"%string errExpectedTrue
  /\ fails "f"%byte "alse"%string errExpectedFalse.
Proof.
  cbv zeta. repeat split; intros H; rewrite feed_first_step by discriminate.
  - change (step NewParser ("n"%byte :: b))
      with (stepNULL vs b
              (set_required 3 (pushState nullState NewParser))).
    destruct (stepLiteral_mismatch (bytes "null") errExpectedNull OnNil b
                (set_required 3 (pushState nullState NewParser)))
      as (p' & Hs & Ht); [cbn; lia | exact H|].
    unfold stepNULL. rewrite Hs. cbn [bind].
    eexists. repeat split. exact Ht.
  - change (step NewParser ("t"%byte :: b))
      with (stepTRUE vs b
              (set_required 3 (pushState trueState NewParser))).
    destruct (stepLiteral_mismatch (bytes "true") errExpectedTrue
                (OnBool true) b
                (set_required 3 (pushState trueState NewParser)))
      as (p' & Hs & Ht); [cbn; lia | exact H|].
    unfold stepTRUE. rewrite Hs. cbn [bind].
    eexists. repeat split. exact Ht.
  - change (step NewParser ("f"%byte :: b))
      with (stepFALSE vs b
              (set_required 4 (pushState falseState NewParser))).
    destruct (stepLiteral_mismatch (bytes "false") errExpectedFalse
                (OnBool false) b
                (set_required 4 (pushState falseState NewParser)))
      as (p' & Hs & Ht); [cbn; lia | exact H|].
    unfold stepFALSE. rewrite Hs. cbn [bind].
    eexists. repeat split. exact Ht.
Qed.

End Extras.

Section Nesting.

Variable ParseFloat : list byte -> Z + error.
Variable Unmarshal : list byte -> list byte * option error.

Abbreviation step := (Json.step accept_all ParseFloat Unmarshal).
Abbreviation runs := (JsonChunks.runs accept_all ParseFloat Unmarshal).
Abbreviation Parse := (Json.Parse accept_all ParseFloat Unmarshal).

Abbreviation arrStart := (OnArrayStart (-1) AnyType).

Lemma step_open_first (tr : list event) (b : list byte) :
  step (in_arrays 0 startState tr) ("["%byte :: b)
  = Done (in_arrays 1 arrState (tr ++ [arrStart]), b, None).
Proof. reflexivity. Qed.

Lemma step_open_peek (j : nat) (tr : list event) (b : list byte) :
  step (in_arrays (S j) arrState tr) ("["%byte :: b)
  = Done (in_arrays (S j) arrStateValue tr, "["%byte :: b, None).
Proof. reflexivity. Qed.

Lemma step_open_next (j : nat) (tr : list event) (b : list byte) :
  step (in_arrays (S j) arrStateValue tr) ("["%byte :: b)
  = Done (in_arrays (S (S j)) arrState (tr ++ [arrStart]), b, None).
Proof. reflexivity. Qed.

Lemma step_close_empty (j : nat) (tr : list event) (b : list byte) :
  step (in_arrays (S j) arrState tr) ("]"%byte :: b)
  = Done (in_arrays j (array_return j) (tr ++ [OnArrayFinished]), b, None).
Proof. destruct j; reflexivity. Qed.

Lemma step_close_next (j : nat) (tr : list event) (b : list byte) :
  step (in_arrays (S j) arrStateNext tr) ("]"%byte :: b)
  = Done (in_arrays j (array_return j) (tr ++ [OnArrayFinished]), b, None).
Proof. destruct j; reflexivity. Qed.

Lemma runs_opens (n : nat) :
  forall j tr rest r,
  runs (in_arrays (S (j + n)) arrState (tr ++ repeat arrStart n)) rest r ->
  runs (in_arrays (S j) arrState tr) (repeat "["%byte n ++ rest) r.
Proof.
  induction n as [|n IH]; intros j tr rest r H.
  - cbn [repeat app] in *. now rewrite Nat.add_0_r, app_nil_r in H.
  - cbn [repeat app].
    eapply runs_step; [discriminate | apply step_open_peek|].
    eapply runs_step; [discriminate | apply step_open_next|].
    apply IH. cbn [repeat] in H.
    rewrite Nat.add_succ_r in H. rewrite <- app_assoc. exact H.
Qed.

Lemma runs_closes (n : nat) :
  forall tr rest r,
  runs (in_arrays 0 startState (tr ++ repeat OnArrayFinished n)) rest r ->
  runs (in_arrays n (array_return n) tr) (repeat "]"%byte n ++ rest) r.
Proof.
  induction n as [|n IH]; intros tr rest r H.
  - cbn [repeat app] in *. now rewrite app_nil_r in H.
  - cbn [repeat app array_return].
    eapply runs_step; [discriminate | apply step_close_next|].
    apply IH. cbn [repeat] in H. rewrite <- app_assoc. exact H.
Qed.

(** X8. Arrays nested to any depth, with a visitor that accepts every
    event: [n + 1] opening brackets followed by as many closing brackets,
    decoded as a complete input, deliver [n + 1] array start events and
    then [n + 1] array end events and no error, the frame stack being
    empty again; the opening brackets alone deliver the start events and
    finalize returns the incomplete-input error. *)
Theorem nested_arrays (n : nat) :
  (exists p,
     Parse NewParser (repeat "["%byte (S n) ++ repeat "]"%byte (S n))
     = Done (p, None)
     /\ trace p = repeat arrStart (S n) ++ repeat OnArrayFinished (S n)
     /\ states p = [] /\ currentState p = startState)
  /\ (exists p,
        Parse NewParser (repeat "["%byte (S n)) = Done (p, Some errIncomplete)
        /\ trace p = repeat arrStart (S n)
        /\ length (states p) = S n).
Proof.
  split.
  - assert (Hr : runs NewParser
                   (repeat "["%byte (S n) ++ repeat "]"%byte (S n))
                   (mkResult
                      (in_arrays 0 startState
                         (repeat arrStart (S n)
                          ++ repeat OnArrayFinished (S n))) [] None)).
    { cbn [repeat app].
      eapply runs_step; [discriminate | apply (step_open_first [])|].
      apply (runs_opens n 0). cbn [Nat.add app].
      eapply runs_step; [discriminate | apply step_close_empty|].
      rewrite <- (app_nil_r (repeat "]"%byte n)).
      apply runs_closes. exists 0%nat.
      rewrite <- !app_assoc. reflexivity. }
    apply runs_feed in Hr; [|reflexivity].
    unfold Json.Parse. rewrite Hr. cbn [bind ret st].
    eexists. split; [reflexivity|]. repeat split.
  - assert (Hr : runs NewParser (repeat "["%byte (S n))
                   (mkResult
                      (in_arrays (S n) arrState (repeat arrStart (S n)))
                      [] None)).
    { cbn [repeat].
      eapply runs_step; [discriminate | apply (step_open_first [])|].
      rewrite <- (app_nil_r (repeat "["%byte n)).
      apply (runs_opens n 0). now exists 0%nat. }
    apply runs_feed in Hr; [|reflexivity].
    unfold Json.Parse. rewrite Hr. cbn [bind ret st].
    unfold Json.finalize.
    cbn [currentState set_err in_arrays states array_frames].
    rewrite length_app, repeat_length. cbn [length].
    replace (n + 1)%nat with (S n) by lia.
    cbn [Nat.ltb Nat.leb andb negb state_eqb].
    eexists. split; [reflexivity|]. split; [reflexivity|].
    unfold set_err, in_arrays, array_frames. cbn [states].
    rewrite length_app, repeat_length. cbn [length]. lia.
Qed.

(** ** Objects *)

Lemma doString_plain (s rest : list byte) (p : Parser) :
  Forall (fun x => x <> dquote /\ x <> backslash) s ->
  literalBuffer p = [] -> inEscape p = false ->
  doString Unmarshal (dquote :: s ++ dquote :: rest) p
  = let '(str, e) := Unmarshal (dquote :: s ++ [dquote]) in
    Done (set_inEscape false p, str, true, rest, e).
Proof.
  intros Hs Hl He. unfold doString. rewrite Hl, He.
  rewrite (scanString_plain s 0 rest Hs). cbn [Nat.add].
  cbn [literalBuffer set_inEscape]. rewrite Hl.
  replace (dquote :: s ++ dquote :: rest)
    with ((dquote :: s ++ [dquote]) ++ rest)
    by (cbn [app]; now rewrite <- app_assoc).
  replace (length s + 2)%nat with (length (dquote :: s ++ [dquote]))
    by (cbn [length]; rewrite length_app; cbn [length]; lia).
  rewrite skipn_app, firstn_app, Nat.sub_diag, skipn_all, firstn_all.
  cbn [skipn firstn app]. rewrite app_nil_r. reflexivity.
Qed.

(** X9. An object with one member, with a visitor that accepts every
    event: for a key [s] free of double quotes and backslashes that the
    unescape primitive accepts, the input [{"s":true}] decoded as a
    complete input delivers the object start event, the key event carrying
    the result of the primitive on the quoted key, the boolean event and
    the object end event, and no error. *)
Theorem object_with_one_member (s key : list byte) :
  Forall (fun x => x <> dquote /\ x <> backslash) s ->
  Unmarshal (dquote :: s ++ [dquote]) = (key, None) ->
  exists p,
    Parse NewParser
      ("{"%byte :: dquote :: s ++ dquote :: bytes ":true}")
    = Done (p, None)
    /\ trace p = [OnObjectStart (-1) AnyType; OnKey key; OnBool true;
                  OnObjectFinished]
    /\ states p = [] /\ currentState p = startState.
Proof.
  intros Hs Hu.
  set (P1 := mkParser None [startState] dictState [] false false 0
               [OnObjectStart (-1) AnyType]).
  set (P3 := mkParser None [startState] dictFieldValueSep [] false false 0
               [OnObjectStart (-1) AnyType; OnKey key]).
  assert (H3 : step (set_currentState dictFieldState P1)
                 (dquote :: s ++ dquote :: bytes ":true}")
               = Done (P3, bytes ":true}", None)).
  { unfold Json.step. cbn [currentState set_currentState P1].
    unfold stepDictKey.
    rewrite doString_plain by (assumption || reflexivity).
    rewrite Hu. reflexivity. }
  assert (Hr : exists q,
    runs NewParser ("{"%byte :: dquote :: s ++ dquote :: bytes ":true}")
      (mkResult q [] None)
    /\ trace q = [OnObjectStart (-1) AnyType; OnKey key; OnBool true;
                  OnObjectFinished]
    /\ states q = [] /\ currentState q = startState).
  { eexists. split.
    - eapply runs_step; [discriminate | reflexivity|].
      eapply runs_step; [discriminate | reflexivity|].
      eapply runs_step; [discriminate | exact H3|].
      eapply runs_step; [discriminate | reflexivity|].
      eapply runs_step; [discriminate | reflexivity|].
      eapply runs_step; [discriminate | reflexivity|].
      exists 0%nat. reflexivity.
    - repeat split. }
  destruct Hr as (q & Hr & Ht & Hst & Hcs).
  apply runs_feed in Hr; [|reflexivity].
  unfold Json.Parse. rewrite Hr. cbn [bind ret st].
  rewrite (finalize_other accept_all ParseFloat (set_err None q))
    by (cbn [currentState set_err]; rewrite Hcs; discriminate).
  cbn [states currentState set_err]. rewrite Hst, Hcs.
  cbn [length Nat.ltb Nat.leb andb].
  eexists. split; [reflexivity|]. cbn [trace states currentState set_err].
  auto.
Qed.

End Nesting.

(** ** Concrete runs *)

Lemma text_chunk_invariance_witness :
  exists r',
    feed_all accept_all noFloat unquote NewParser
      [bytes "[tr"; bytes "ue,1"; bytes "2]"] = Done r'
    /\ ret r' = None
    /\ trace (st r')
       = [OnArrayStart (-1) AnyType; OnBool true; OnInt64 12;
          OnArrayFinished].
Proof.
  edestruct (text_chunk_invariance accept_all noFloat unquote
               [bytes "[tr"; bytes "ue,1"; bytes "2]"])
    as (r' & H1 & H2 & H3 & _); [vm_compute; reflexivity | reflexivity |].
  exists r'. split; [exact H1|]. split; [exact H2 | exact H3].
Defined.

Lemma failed_state_unreachable_witness :
  exists p,
    Write accept_all noFloat unquote NewParser (bytes "x")
    = Done (p, 0, Some errUnknownChar)
    /\ currentState p <> failedState.
Proof.
  eexists. split; [vm_compute; reflexivity|].
  apply (failed_state_unreachable accept_all noFloat unquote).
  apply reach_write
    with (p := NewParser) (b := bytes "x") (n := 0)
         (e := Some errUnknownChar);
    [apply reach_new | vm_compute; reflexivity].
Defined.

Lemma white_space_is_skipped_witness :
  feed accept_all noFloat unquote NewParser [x20; x0b; x0a; xa0]
  = Done (mkResult NewParser [] None).
Proof.
  apply white_space_is_skipped; reflexivity.
Defined.

Lemma integer_literals_witness :
  (exists p,
     Parse accept_all noFloat unquote NewParser (bytes "9223372036854775808")
     = Done (p, Some (errNumRange (bytes "9223372036854775808")))
     /\ trace p = [])
  /\ (exists p,
        Parse accept_all noFloat unquote NewParser
          (bytes "-9223372036854775808") = Done (p, None)
        /\ trace p = [OnInt64 (-9223372036854775808)]).
Proof.
  exact (integer_literals accept_all noFloat unquote
           (bytes "9223372036854775808") ltac:(discriminate) eq_refl).
Defined.

Lemma plain_string_literal_witness :
  exists p,
    Parse accept_all noFloat unquote NewParser
      (dquote :: bytes "hi" ++ [dquote]) = Done (p, None)
    /\ trace p = [OnString (bytes "hi")].
Proof.
  apply (plain_string_literal accept_all noFloat unquote (bytes "hi")).
  repeat constructor; discriminate.
Defined.

Lemma unknown_leading_byte_witness :
  feed accept_all noFloat unquote NewParser (bytes " x1")
  = Done (mkResult NewParser (bytes "x1") (Some errUnknownChar)).
Proof.
  apply (unknown_leading_byte accept_all noFloat unquote (bytes " ")
           "x"%byte (bytes "1")); reflexivity.
Defined.

Lemma literal_mismatch_witness :
  exists r,
    feed accept_all noFloat unquote NewParser (bytes "nulx") = Done r
    /\ ret r = Some errExpectedNull /\ rest r = bytes "ulx"
    /\ trace (st r) = [].
Proof.
  apply (proj1 (literal_mismatch accept_all noFloat unquote (bytes "ulx"))).
  reflexivity.
Defined.

Lemma object_with_one_member_witness :
  exists p,
    Parse accept_all noFloat unquote NewParser
      ("{"%byte :: dquote :: bytes "ok" ++ dquote :: bytes ":true}")
    = Done (p, None)
    /\ trace p = [OnObjectStart (-1) AnyType; OnKey (bytes "ok");
                  OnBool true; OnObjectFinished].
Proof.
  destruct (object_with_one_member noFloat unquote (bytes "ok") (bytes "ok"))
    as (p & H1 & H2 & _); [repeat constructor; discriminate | reflexivity|].
  exists p. split; [exact H1 | exact H2].
Defined.

End JsonExtras.

(** * Properties of the binary decoder *)

Module CborlProofs.
Import Cborl.

Lemma suffix_refl (b : list byte) : suffix b b.
Proof. now exists []. Qed.

Lemma suffix_nil (b : list byte) : suffix [] b.
Proof. exists b. now rewrite app_nil_r. Qed.

Lemma suffix_tail (c : byte) (b : list byte) : suffix b (c :: b).
Proof. now exists [c]. Qed.

Lemma suffix_skipn (n : nat) (b : list byte) : suffix (skipn n b) b.
Proof. exists (firstn n b). now rewrite firstn_skipn. Qed.

Lemma suffix_trans (a b c : list byte) : suffix a b -> suffix b c -> suffix a c.
Proof.
  intros [x ->] [y ->]. exists (y ++ x). now rewrite app_assoc.
Qed.

Lemma suffix_length (b' b : list byte) :
  suffix b' b -> (length b' <= length b)%nat.
Proof. intros [pre ->]. rewrite length_app. lia. Qed.

Lemma suffix_skipn_eq (b' b : list byte) :
  suffix b' b -> skipn (length b - length b') b = b'.
Proof.
  intros [pre ->]. rewrite length_app.
  replace (length pre + length b' - length b')%nat with (length pre) by lia.
  rewrite skipn_app, Nat.sub_diag, skipn_all. reflexivity.
Qed.

Create HintDb sfx.

#[local] Hint Resolve suffix_refl suffix_nil suffix_tail suffix_skipn : sfx.

Section Facts.

Variable vs : Visitor.

Lemma set_buffer_same (p : Parser) : set_buffer (buffer p) p = p.
Proof. destruct p; reflexivity. Qed.

(** ** What a step leaves of its input *)

Lemma collectFresh_suffix b count p q b' tmp :
  collectFresh b count p = Done (q, b', tmp) -> suffix b' b.
Proof.
  unfold collectFresh. destruct (count <=? len b).
  - destruct (count <? 0); [discriminate|]. intros H.
    injection H as _ <- _. auto with sfx.
  - intros H. injection H as _ <- _. auto with sfx.
Qed.

Lemma collect_suffix b count p q b' tmp :
  collect b count p = Done (q, b', tmp) -> suffix b' b.
Proof.
  unfold collect.
  destruct (buffer p) as [|x l]; [apply collectFresh_suffix|].
  destruct (0 <? wrap64 (count - len (x :: l))).
  - destruct (len b <? wrap64 (count - len (x :: l))).
    + intros H. injection H as _ <- _. auto with sfx.
    + set (p1 := set_buffer _ p).
      destruct (count <=? len (buffer p1)).
      * destruct (count <? 0); [discriminate|].
        intros H. injection H as _ <- _. auto with sfx.
      * intros H. apply collectFresh_suffix in H.
        eapply suffix_trans; eauto with sfx.
  - destruct (count <=? len (buffer p)).
    + destruct (count <? 0); [discriminate|].
      intros H. injection H as _ <- _. auto with sfx.
    + apply collectFresh_suffix.
Qed.

Lemma getUint_suffix w b p q b' d v :
  getUint w b p = Done (q, b', d, v) -> suffix b' b.
Proof.
  unfold getUint. destruct (collect b w p) as [[[q0 b0] tmp]| |] eqn:Hc;
    try discriminate.
  apply collect_suffix in Hc. cbn [bind].
  destruct tmp; intros H; injection H as _ <- _ _; auto with sfx.
Qed.

Lemma suffix_of_nil (b : list byte) : suffix b [] -> b = [].
Proof.
  intros [pre H]. symmetry in H. apply app_eq_nil in H. tauto.
Qed.

Lemma stepInt_suffix ev8 ev16 ev32 ev64 b p q b' d e :
  stepInt vs ev8 ev16 ev32 ev64 b p = Done (q, b', d, e) -> suffix b' b.
Proof.
  unfold stepInt. intros H.
  apply bind_done in H as ([[[p1 b1] d1] e1] & H1 & H2).
  assert (Hs : suffix b1 b).
  { assert (Hw : forall w ev,
              ('(p0, b0, done, v) <- getUint w b p ;;
               (if done : bool
                then let '(p2, e0) := emit vs (ev v) p0 in
                     Done (p2, b0, done, e0)
                else Done (p0, b0, done, None)))
              = Done (p1, b1, d1, e1) -> suffix b1 b).
    { intros w ev Hw. apply bind_done in Hw as ([[[p0 b0] d0] v] & Ha & Hb).
      apply getUint_suffix in Ha. destruct d0; cbn in Hb; inv_done Hb;
        assumption. }
    destruct (minor (cur p) =? len8b).
    - destruct b as [|c b]; [discriminate|]. cbn in H1. inv_done H1.
      auto with sfx.
    - destruct (minor (cur p) =? len16b); [now apply (Hw 2 ev16)|].
      destruct (minor (cur p) =? len32b); [now apply (Hw 4 ev32)|].
      destruct (minor (cur p) =? len64b); [now apply (Hw 8 ev64)|].
      inv_done H1. auto with sfx. }
  destruct (d1 && negb (is_some e1)).
  - destruct (popState p1). inv_done H2. assumption.
  - inv_done H2. assumption.
Qed.

Lemma stepFloat_suffix w ev b p q b' d e :
  stepFloat vs w ev b p = Done (q, b', d, e) -> suffix b' b.
Proof.
  unfold stepFloat. intros H.
  apply bind_done in H as ([[[p1 b1] d1] v] & H1 & H2).
  apply getUint_suffix, suffix_of_nil in H1. subst b1.
  destruct d1; cbn in H2; inv_done H2; auto with sfx.
Qed.

Lemma initByteSeq_suffix mj mn b p q b' d e :
  initByteSeq mj mn b p = (q, b', d, e) -> b' = b.
Proof.
  unfold initByteSeq. destruct (mn <? len8b); intros H; now inversion H.
Qed.

Lemma initSub_suffix mj mn b p q b' d e :
  initSub mj mn b p = (q, b', d, e) -> b' = b.
Proof.
  unfold initSub. destruct (mn =? lenIndef); [|destruct (mn <? len8b)];
    intros H; now inversion H.
Qed.

Lemma simpleValue_suffix ev b p q b' d e :
  simpleValue vs ev b p = (q, b', d, e) -> b' = b.
Proof.
  unfold simpleValue, emit. destruct (onValue _). intros H. now inversion H.
Qed.

Lemma stepValue_suffix b p q b' d e :
  stepValue vs b p = Done (q, b', d, e) -> suffix b' b.
Proof.
  unfold stepValue. destruct b as [|c b]; [discriminate|].
  intros H.
  repeat match type of H with
  | (if ?c then _ else _) = _ => destruct c
  end;
  inv_done H;
  try match goal with
  | H : simpleValue _ _ _ _ = _ |- _ => apply simpleValue_suffix in H; subst
  | H : initByteSeq _ _ _ _ = _ |- _ => apply initByteSeq_suffix in H; subst
  | H : initSub _ _ _ _ = _ |- _ => apply initSub_suffix in H; subst
  end; auto with sfx.
Qed.

Lemma stepBytes_suffix b p q b' d e :
  stepBytes vs b p = Done (q, b', d, e) -> suffix b' b.
Proof.
  unfold stepBytes. intros H.
  destruct (if minor (cur p) =? stStart then _ else _) as [p1 [e1|]];
    [inv_done H; auto with sfx|].
  destruct (if lenCur p1 <=? len b then _ else _) as [L p2].
  destruct (L <? 0); [discriminate|].
  destruct (visitBytes vs _ p2) as [p3 [e3|]]; [inv_done H; auto with sfx|].
  destruct (lenCur p1 <=? len b).
  - destruct (emit vs OnArrayFinished p3) as [p4 [e4|]].
    + inv_done H. auto with sfx.
    + destruct (popState (lpop p4)). inv_done H. auto with sfx.
  - inv_done H. auto with sfx.
Qed.

Lemma stepText_suffix b p q b' d e :
  stepText vs b p = Done (q, b', d, e) -> suffix b' b.
Proof.
  unfold stepText. intros H.
  apply bind_done in H as ([[p1 b1] tmp] & H1 & H2).
  apply collect_suffix in H1.
  destruct tmp; [|inv_done H2; auto with sfx].
  destruct (emit vs _ p1) as [p2 [e2|]].
  - inv_done H2. assumption.
  - destruct (popState p2). inv_done H2. assumption.
Qed.

Lemma stepKey_suffix b p q b' d e :
  stepKey vs b p = Done (q, b', d, e) -> suffix b' b.
Proof.
  unfold stepKey. intros H.
  apply bind_done in H as ([[p1 b1] tmp] & H1 & H2).
  apply collect_suffix in H1.
  destruct tmp; [|inv_done H2; auto with sfx].
  destruct (emit vs _ p1) as [p2 [e2|]]; inv_done H2; assumption.
Qed.

Lemma initMapKey_suffix b p q b' d e :
  initMapKey b p = Done (q, b', d, e) -> suffix b' b.
Proof.
  unfold initMapKey. destruct b as [|c b]; [discriminate|]. intros H.
  destruct (negb _); [inv_done H; auto with sfx|].
  destruct (_ =? lenIndef); [inv_done H; auto with sfx|].
  inv_done H.
  match goal with
  | H : initByteSeq _ _ _ _ = _ |- _ => apply initByteSeq_suffix in H; subst
  end. auto with sfx.
Qed.

Lemma stepAggregate_suffix fin next b p q b' d e :
  (forall b0 p0 q0 b1 d0 e0,
     next b0 p0 = Done (q0, b1, d0, e0) -> suffix b1 b0) ->
  stepAggregate vs fin next b p = Done (q, b', d, e) -> suffix b' b.
Proof.
  intros Hnext. unfold stepAggregate.
  destruct (lenCur p =? 0); [|apply Hnext].
  destruct (emit vs fin p) as [p1 [e1|]]; intros H.
  - inv_done H. auto with sfx.
  - destruct (popState (lpop p1)). inv_done H. auto with sfx.
Qed.

Lemma stepLen_suffix b p q b' :
  stepLen b p = Done (q, b') -> suffix b' b.
Proof.
  unfold stepLen. intros H.
  apply bind_done in H as ([[p1 b1] d1] & H1 & H2).
  assert (Hs : suffix b1 b).
  { assert (Hw : forall w conv,
              ('(p0, b0, done, v) <- getUint w b p ;;
               (if done : bool then Done (lpush (conv v) p0, b0, done)
                else Done (p0, b0, done)))
              = Done (p1, b1, d1) -> suffix b1 b).
    { intros w conv Hw.
      apply bind_done in Hw as ([[[p0 b0] d0] v] & Ha & Hb).
      apply getUint_suffix in Ha. destruct d0; inv_done Hb; assumption. }
    destruct (minor (cur p) =? len8b).
    - destruct b as [|c b]; [discriminate|]. inv_done H1. auto with sfx.
    - destruct (minor (cur p) =? len16b); [now apply (Hw 2 (fun v => v))|].
      destruct (minor (cur p) =? len32b); [now apply (Hw 4 (fun v => v))|].
      destruct (minor (cur p) =? len64b); [now apply (Hw 8 (toSigned 64))|].
      inv_done H1. auto with sfx. }
  destruct d1; inv_done H2; assumption.
Qed.

Lemma startThen_suffix ev next b p q b' d e :
  (forall b0 p0 q0 b1 d0 e0,
     next b0 p0 = Done (q0, b1, d0, e0) -> suffix b1 b0) ->
  startThen vs ev next b p = Done (q, b', d, e) -> suffix b' b.
Proof.
  intros Hnext. unfold startThen.
  destruct (emit vs ev p) as [p1 [e1|]]; intros H.
  - inv_done H. auto with sfx.
  - now apply Hnext in H.
Qed.

Lemma stepIndef_suffix fin next b p q b' d e :
  (forall b0 p0 q0 b1 d0 e0,
     next b0 p0 = Done (q0, b1, d0, e0) -> suffix b1 b0) ->
  stepIndef vs fin next b p = Done (q, b', d, e) -> suffix b' b.
Proof.
  intros Hnext. unfold stepIndef. destruct b as [|c b]; [discriminate|].
  destruct (byteZ c =? codeBreak); [|apply Hnext].
  destruct (emit vs fin p) as [p1 e1]. destruct (popState p1).
  intros H. inv_done H. auto with sfx.
Qed.

(** What [execStep] returns as the rest of its input is a suffix of that
    input. *)
Lemma execStep_suffix b p q b' d e :
  execStep vs b p = Done (q, b', d, e) -> suffix b' b.
Proof.
  unfold execStep, stepUint, stepNeg, stepSingleFloat, stepDoubleFloat,
    stepArray, stepMap.
  intros H.
  repeat match type of H with
  | (if ?c then _ else _) = _ => destruct c
  end;
  try (inv_done H; auto with sfx; fail);
  eauto using stepValue_suffix, stepInt_suffix, stepFloat_suffix,
    stepBytes_suffix, stepText_suffix, stepKey_suffix, stepAggregate_suffix,
    startThen_suffix, stepIndef_suffix, initMapKey_suffix.
  apply bind_done in H as ([p1 b1] & H1 & H2). inv_done H2.
  now apply stepLen_suffix in H1.
Qed.

(** ** The two loops of feed as one *)

Lemma run_nil (k : nat) (p : Parser) : run vs k p [] = Done (p, None).
Proof. destruct k; reflexivity. Qed.

Lemma run_S (k : nat) (p : Parser) (c : byte) (b : list byte) :
  run vs (S k) p (c :: b) =
  ('(p', b', _, e) <- execStep vs (c :: b) p ;;
   match e with
   | Some e => Done (p', Some e)
   | None => run vs k p' b'
   end).
Proof. reflexivity. Qed.

Lemma feedUntil_loop_S (F : nat) (b : list byte) (p : Parser) :
  feedUntil_loop vs (S F) b p =
  ('(p', b', done, e) <- execStep vs b p ;;
   if (len b' =? 0) || (done : bool) || is_some e
   then Done (p', b', done, e)
   else feedUntil_loop vs F b' p').
Proof. reflexivity. Qed.

Lemma feed_S (F : nat) (p : Parser) (c : byte) (b : list byte) :
  feed vs (S F) p (c :: b) =
  ('(p', n, _, e) <- feedUntil vs (S F) (c :: b) p ;;
   match e with
   | Some e => Done (mkResult p' (c :: b) (Some e))
   | None =>
       if (n <? 0) || (len (c :: b) <? n) then Panic
       else feed vs F p' (skipn (Z.to_nat n) (c :: b))
   end).
Proof. reflexivity. Qed.

Lemma len_zero (b : list byte) : (len b =? 0) = true <-> b = [].
Proof.
  unfold len. destruct b; cbn [length]; [tauto|].
  split; [|discriminate]. intros H. apply Z.eqb_eq in H. lia.
Qed.

Lemma run_mono (k : nat) :
  forall k' p b x, run vs k p b = Done x -> (k <= k')%nat ->
  run vs k' p b = Done x.
Proof.
  induction k as [|k IH]; intros k' p b x H Hle.
  - destruct b; [now rewrite run_nil in *|discriminate].
  - destruct b as [|c b]; [now rewrite run_nil in *|].
    destruct k' as [|k']; [lia|]. rewrite run_S in *.
    destruct (execStep vs (c :: b) p) as [[[[p1 b1] d1] e1]| |];
      try discriminate.
    cbn [bind] in *. destruct e1; [assumption|].
    apply IH; [assumption | lia].
Qed.

Lemma feedUntil_loop_of_run (k : nat) :
  forall F b p x,
  b <> [] -> run vs k p b = Done x -> (k <= F)%nat ->
  exists p' b' d e j,
    feedUntil_loop vs F b p = Done (p', b', d, e)
    /\ suffix b' b /\ (1 <= j <= k)%nat
    /\ match e with
       | Some e0 => x = (p', Some e0)
       | None => run vs (k - j) p' b' = Done x
       end.
Proof.
  induction k as [|k IH]; intros F b p x Hb Hrun Hle.
  - destruct b; [now contradiction Hb | discriminate].
  - destruct b as [|c b]; [now contradiction Hb|].
    destruct F as [|F]; [lia|].
    rewrite run_S in Hrun. rewrite feedUntil_loop_S.
    destruct (execStep vs (c :: b) p) as [[[[p1 b1] d1] e1]| |] eqn:Hstep;
      try discriminate.
    pose proof (execStep_suffix _ _ _ _ _ _ Hstep) as Hsfx.
    cbn [bind] in *.
    destruct e1 as [e1|].
    + rewrite !orb_true_r. inv_done Hrun.
      exists p1, b1, d1, (Some e1), 1%nat. repeat split; auto; lia.
    + cbn [is_some]. rewrite orb_false_r.
      destruct ((len b1 =? 0) || d1) eqn:Hterm.
      * exists p1, b1, d1, None, 1%nat. repeat split; auto; try lia.
        now rewrite Nat.sub_succ, Nat.sub_0_r.
      * apply orb_false_elim in Hterm as [Hlen _].
        assert (Hb1 : b1 <> []).
        { intros E. apply len_zero in E. congruence. }
        destruct (IH F b1 p1 x Hb1 Hrun ltac:(lia))
          as (p' & b' & d & e & j & H1 & H2 & H3 & H4).
        exists p', b', d, e, (S j). repeat split; auto; try lia.
        eapply suffix_trans; eauto.
Qed.

Lemma len_sub_suffix (b' b : list byte) :
  suffix b' b ->
  ((len b - len b' <? 0) || (len b <? len b - len b')) = false
  /\ skipn (Z.to_nat (len b - len b')) b = b'.
Proof.
  intros Hs. pose proof (suffix_length _ _ Hs) as Hl. unfold len. split.
  - apply orb_false_intro; apply Z.ltb_ge; lia.
  - replace (Z.to_nat (Z.of_nat (length b) - Z.of_nat (length b')))
      with (length b - length b')%nat by lia.
    now apply suffix_skipn_eq.
Qed.

(** A run of the single loop gives the result of [feed], with any fuel that
    is at least the number of steps. *)
Lemma feed_of_run (F : nat) :
  forall k p b x,
  run vs k p b = Done x -> (k <= F)%nat ->
  exists r, feed vs F p b = Done r /\ (st r, ret r) = x.
Proof.
  induction F as [|F IH]; intros k p b x Hrun Hle.
  - destruct b as [|c b].
    + rewrite run_nil in Hrun. inv_done Hrun. eexists; split; reflexivity.
    + assert (k = 0)%nat by lia. subst k. discriminate.
  - destruct b as [|c b].
    + rewrite run_nil in Hrun. inv_done Hrun. eexists; split; reflexivity.
    + destruct (feedUntil_loop_of_run k (S F) (c :: b) p x
                  ltac:(discriminate) Hrun Hle)
        as (p' & b' & d & e & j & H1 & H2 & H3 & H4).
      rewrite feed_S. unfold feedUntil. rewrite H1. cbn [bind].
      destruct e as [e|].
      * eexists. split; [reflexivity|]. now subst x.
      * destruct (len_sub_suffix _ _ H2) as [Hn Hskip].
        rewrite Hn, Hskip. apply (IH (k - j)%nat); [assumption | lia].
Qed.

Lemma run_of_feedUntil_loop (F : nat) :
  forall b p p' b' d e k x,
  feedUntil_loop vs F b p = Done (p', b', d, e) ->
  b <> [] ->
  match e with
  | Some e0 => x = (p', Some e0)
  | None => run vs k p' b' = Done x
  end ->
  run vs (F + k) p b = Done x.
Proof.
  induction F as [|F IH]; intros b p p' b' d e k x H Hb Hx;
    [discriminate|].
  destruct b as [|c b]; [now contradiction Hb|].
  rewrite feedUntil_loop_S in H. cbn [Nat.add]. rewrite run_S.
  destruct (execStep vs (c :: b) p) as [[[[p1 b1] d1] e1]| |];
    try discriminate.
  cbn [bind] in *.
  destruct ((len b1 =? 0) || d1 || is_some e1) eqn:Hterm.
  - inv_done H. destruct e; [now subst x|].
    apply run_mono with (k := k); [assumption | lia].
  - apply orb_false_elim in Hterm as [Hterm He].
    apply orb_false_elim in Hterm as [Hlen _].
    destruct e1; [discriminate|].
    apply (IH b1 p1 p' b' d e); auto.
    intros E. apply len_zero in E. congruence.
Qed.

(** Conversely, what [feed] returns is the result of a run of the single
    loop. *)
Lemma run_of_feed (F : nat) :
  forall p b r,
  feed vs F p b = Done r -> exists k, run vs k p b = Done (st r, ret r).
Proof.
  induction F as [|F IH]; intros p b r H.
  - destruct b; [|discriminate]. cbn [feed] in H. inv_done H.
    exists 0%nat. reflexivity.
  - destruct b as [|c b].
    + cbn [feed] in H. inv_done H. exists 0%nat. reflexivity.
    + rewrite feed_S in H. unfold feedUntil in H.
      destruct (feedUntil_loop vs (S F) (c :: b) p)
        as [[[[p' b'] d] e]| |] eqn:Hl; try discriminate.
      cbn [bind] in H.
      assert (Hs : suffix b' (c :: b)).
      { clear H. revert Hl. generalize (c :: b) as b0. generalize p.
        generalize (S F). intros n. induction n as [|n IHn]; intros p0 b0 Hl;
          [discriminate|].
        rewrite feedUntil_loop_S in Hl.
        destruct (execStep vs b0 p0) as [[[[p1 b1] d1] e1]| |] eqn:Hstep;
          try discriminate.
        apply execStep_suffix in Hstep. cbn [bind] in Hl.
        destruct ((len b1 =? 0) || d1 || is_some e1).
        - inv_done Hl. assumption.
        - eapply suffix_trans; eauto. }
      destruct e as [e|].
      * inv_done H. exists (S F + 0)%nat.
        now apply (run_of_feedUntil_loop (S F) _ _ _ _ _ _ 0%nat _ Hl).
      * destruct (len_sub_suffix _ _ Hs) as [Hn Hskip].
        rewrite Hn, Hskip in H. apply IH in H as [k Hk].
        exists (S F + k)%nat.
        now apply (run_of_feedUntil_loop (S F) _ _ _ _ _ _ k _ Hl).
Qed.

Lemma run_step (k : nat) (p p1 : Parser) (c : byte) (b b1 : list byte)
  (d : bool) (e : option error) :
  execStep vs (c :: b) p = Done (p1, b1, d, e) ->
  run vs (S k) p (c :: b) =
  match e with
  | Some e => Done (p1, Some e)
  | None => run vs k p1 b1
  end.
Proof. intros H. rewrite run_S, H. reflexivity. Qed.

(** ** Integers *)

(** C4. The unsigned-integer token followed by the eight bytes 0xFF yields
    the uint64 event carrying 2^64-1, and the negative-integer token whose
    one following byte encodes 99 yields the int8 event carrying -100, which
    is -1-99 obtained by inverting the bits of 99. *)
Theorem numeric_exactness (n : nat) :
  (exists r,
     feed vs (2 + n) NewParser
       [x1b; xff; xff; xff; xff; xff; xff; xff; xff] = Done r
     /\ trace (st r) = [OnUint64 (2 ^ 64 - 1)]
     /\ ret r = vs [] (OnUint64 (2 ^ 64 - 1)))
  /\ (exists r,
        feed vs (2 + n) NewParser [x38; x63] = Done r
        /\ trace (st r) = [OnInt8 (-100)]
        /\ ret r = vs [] (OnInt8 (-100)))
  /\ toSigned 8 (lnot 8 99) = -1 - 99.
Proof.
  split; [|split; [|reflexivity]].
  - assert (H : exists q,
              run vs 2 NewParser [x1b; xff; xff; xff; xff; xff; xff; xff; xff]
              = Done (q, vs [] (OnUint64 (2 ^ 64 - 1)))
              /\ trace q = [OnUint64 (2 ^ 64 - 1)]).
    { erewrite run_step by (vm_compute; reflexivity). cbv iota.
      destruct (vs [] (OnUint64 (2 ^ 64 - 1))) eqn:E; vm_compute in E;
        (erewrite run_step by (vm_compute; rewrite E; reflexivity));
        cbv iota; rewrite ?run_nil; eexists; split; reflexivity. }
    destruct H as (q & Hrun & Ht).
    destruct (feed_of_run (2 + n) 2 _ _ _ Hrun ltac:(lia)) as (r & Hr & Hx).
    exists r. inversion Hx. subst. auto.
  - assert (H : exists q,
              run vs 2 NewParser [x38; x63] = Done (q, vs [] (OnInt8 (-100)))
              /\ trace q = [OnInt8 (-100)]).
    { erewrite run_step by (vm_compute; reflexivity). cbv iota.
      destruct (vs [] (OnInt8 (-100))) eqn:E;
        (erewrite run_step by (vm_compute; rewrite E; reflexivity));
        cbv iota; rewrite ?run_nil; eexists; split; reflexivity. }
    destruct H as (q & Hrun & Ht).
    destruct (feed_of_run (2 + n) 2 _ _ _ Hrun ltac:(lia)) as (r & Hr & Hx).
    exists r. inversion Hx. subst. auto.
Qed.

(** ** Floats *)

Lemma collect_nil (count : Z) (p : Parser) :
  buffer p = [] -> 0 < count -> collect [] count p = Done (p, [], None).
Proof.
  intros Hb Hc. unfold collect. rewrite Hb. unfold collectFresh.
  destruct (Z.leb_spec count (len [])) as [H|_]; [unfold len in H; simpl in H; lia|].
  rewrite Hb. cbn [app]. rewrite <- Hb. now rewrite set_buffer_same.
Qed.

Lemma float_state_step (p : Parser) (b : list byte) :
  major (cur p) = codeSingleFloat \/ major (cur p) = codeDoubleFloat ->
  buffer p = [] ->
  execStep vs b p = Done (p, [], false, None).
Proof.
  intros Hm Hb. unfold execStep.
  destruct Hm as [Hm | Hm]; rewrite Hm; cbv iota beta;
    change (codeSingleFloat =? stFail) with false;
    change (codeSingleFloat =? stValue) with false;
    change (codeSingleFloat =? stLen) with false;
    change (codeSingleFloat =? majorUint) with false;
    change (codeSingleFloat =? majorNeg) with false;
    change (codeSingleFloat =? codeSingleFloat) with true;
    change (codeDoubleFloat =? stFail) with false;
    change (codeDoubleFloat =? stValue) with false;
    change (codeDoubleFloat =? stLen) with false;
    change (codeDoubleFloat =? majorUint) with false;
    change (codeDoubleFloat =? majorNeg) with false;
    change (codeDoubleFloat =? codeSingleFloat) with false;
    change (codeDoubleFloat =? codeDoubleFloat) with true;
    cbv iota;
    unfold stepSingleFloat, stepDoubleFloat, stepFloat, getUint;
    rewrite collect_nil by (assumption || reflexivity); reflexivity.
Qed.

Lemma float_state_swallows (k : nat) (p : Parser) (b : list byte) :
  major (cur p) = codeSingleFloat \/ major (cur p) = codeDoubleFloat ->
  buffer p = [] ->
  run vs (S k) p b = Done (p, None).
Proof.
  intros Hm Hb. destruct b as [|c b]; [reflexivity|].
  rewrite (run_step _ _ _ _ _ _ _ _ (float_state_step p (c :: b) Hm Hb)).
  apply run_nil.
Qed.

Lemma float_token_run (c : byte) (payload : list byte) :
  byteZ c = codeSingleFloat \/ byteZ c = codeDoubleFloat ->
  run vs 2 NewParser (c :: payload)
  = Done (push (mkState (byteZ c) stStart) NewParser, None).
Proof.
  intros Hc.
  assert (Hstep : execStep vs (c :: payload) NewParser
                  = Done (push (mkState (byteZ c) stStart) NewParser,
                          payload, false, None)).
  { destruct Hc as [Hc | Hc]; unfold execStep, stepValue;
      cbn [NewParser cur pstate stateStack_init current major];
      rewrite Hc; reflexivity. }
  rewrite (run_step _ _ _ _ _ _ _ _ Hstep).
  apply float_state_swallows.
  - destruct Hc as [Hc | Hc]; rewrite Hc; [left | right]; reflexivity.
  - reflexivity.
Qed.

(** C3, at the failing input. After the single-precision (0xFA) or the
    double-precision (0xFB) token, the bytes that follow, in the same or in
    a later fragment, are consumed without any event and without an error:
    the float event is never delivered. *)
Theorem float_token_emits_nothing (n : nat) (payload later : list byte) :
  (exists r r',
     feed vs (2 + n) NewParser (xfa :: payload) = Done r
     /\ trace (st r) = [] /\ ret r = None
     /\ cur (st r) = mkState codeSingleFloat stStart
     /\ feed vs (1 + n) (st r) later = Done r'
     /\ st r' = st r /\ ret r' = None)
  /\ (exists r r',
        feed vs (2 + n) NewParser (xfb :: payload) = Done r
        /\ trace (st r) = [] /\ ret r = None
        /\ cur (st r) = mkState codeDoubleFloat stStart
        /\ feed vs (1 + n) (st r) later = Done r'
        /\ st r' = st r /\ ret r' = None).
Proof.
  split.
  - destruct (feed_of_run (2 + n) 2 _ _ _
                (float_token_run xfa payload (or_introl eq_refl))
                ltac:(lia)) as (r & Hr & Hx).
    injection Hx as Hst Hret.
    destruct (feed_of_run (1 + n) 1 _ _ _
                (float_state_swallows 0 (st r) later
                   ltac:(rewrite Hst; left; reflexivity)
                   ltac:(rewrite Hst; reflexivity))
                ltac:(lia)) as (r' & Hr' & Hx').
    injection Hx' as Hst' Hret'.
    exists r, r'. rewrite Hst. repeat split; auto.
    all: rewrite <- Hst; assumption.
  - destruct (feed_of_run (2 + n) 2 _ _ _
                (float_token_run xfb payload (or_intror eq_refl))
                ltac:(lia)) as (r & Hr & Hx).
    injection Hx as Hst Hret.
    destruct (feed_of_run (1 + n) 1 _ _ _
                (float_state_swallows 0 (st r) later
                   ltac:(rewrite Hst; right; reflexivity)
                   ltac:(rewrite Hst; reflexivity))
                ltac:(lia)) as (r' & Hr' & Hx').
    injection Hx' as Hst' Hret'.
    exists r, r'. rewrite Hst. repeat split; auto.
    all: rewrite <- Hst; assumption.
Qed.

End Facts.

(** ** Simple values *)

(** C10. The simple value undefined (0xF7) is decoded exactly like null
    (0xF6): the nil event is delivered, no error is raised by the decoder,
    and decoding goes on with the bytes that follow. *)
Theorem undefined_decoded_as_nil (vs : Visitor) (b : list byte) (p : Parser)
  (n : nat) :
  stepValue vs (xf7 :: b) p = stepValue vs (xf6 :: b) p
  /\ stepValue vs (xf7 :: b) p = Done (simpleValue vs OnNil b p)
  /\ exists r,
       feed accept_all (2 + n) NewParser [xf7; x01] = Done r
       /\ trace (st r) = [OnNil; OnUint8 1] /\ ret r = None.
Proof.
  split; [reflexivity|]. split; [reflexivity|].
  assert (Hrun : run accept_all 2 NewParser [xf7; x01]
                 = Done (set_trace [OnNil; OnUint8 1] NewParser, None))
    by (vm_compute; reflexivity).
  destruct (feed_of_run accept_all (2 + n) 2 _ _ _ Hrun ltac:(lia))
    as (r & Hr & Hx).
  injection Hx as Hst Hret. exists r. rewrite Hst. auto.
Qed.

End CborlProofs.
(** * Chunk invariance of the binary decoder *)

Module CborlChunks.
Import Cborl CborlProofs.

(** ** Arithmetic of lengths *)

Lemma wrap64_id (z : Z) : in64 z -> wrap64 z = z.
Proof.
  unfold in64, wrap64. intros H. rewrite Z.mod_small; lia.
Qed.

Lemma wrap64_in64 (z : Z) : in64 (wrap64 z).
Proof.
  unfold in64, wrap64.
  pose proof (Z.mod_pos_bound (z + 2 ^ 63) (2 ^ 64) ltac:(lia)). lia.
Qed.

Lemma wrap64_sub (a b : Z) : wrap64 (wrap64 a - b) = wrap64 (a - b).
Proof.
  unfold wrap64. f_equal.
  replace ((a + 2 ^ 63) mod 2 ^ 64 - 2 ^ 63 - b + 2 ^ 63)
    with ((a + 2 ^ 63) mod 2 ^ 64 - b) by lia.
  rewrite Zminus_mod_idemp_l. f_equal. lia.
Qed.

Lemma len_app (x y : list byte) : len (x ++ y) = len x + len y.
Proof. unfold len. rewrite length_app. lia. Qed.

Lemma len_nonneg (x : list byte) : 0 <= len x.
Proof. unfold len. lia. Qed.

Lemma len_nil : len [] = 0.
Proof. reflexivity. Qed.

Lemma bigEndian_app (x : list byte) :
  forall acc,
  fold_left (fun a c => a * 256 + byteZ c) x acc
  = acc * 256 ^ len x + bigEndian x.
Proof.
  unfold bigEndian.
  induction x as [|c x IH]; intros acc.
  - cbn. lia.
  - cbn [fold_left]. rewrite IH. rewrite (IH (0 * 256 + byteZ c)).
    replace (len (c :: x)) with (1 + len x)
      by (unfold len; cbn [length]; lia).
    rewrite Z.pow_add_r by (pose proof (len_nonneg x); lia). lia.
Qed.

Lemma byteZ_range (c : byte) : 0 <= byteZ c < 256.
Proof.
  unfold byteZ. pose proof (Byte.to_N_bounded c). lia.
Qed.

Lemma bigEndian_range (x : list byte) : 0 <= bigEndian x < 256 ^ len x.
Proof.
  induction x as [|c x IH].
  - cbn. lia.
  - unfold bigEndian. cbn [fold_left]. rewrite bigEndian_app.
    replace (len (c :: x)) with (1 + len x)
      by (unfold len; cbn [length]; lia).
    rewrite Z.pow_add_r by (pose proof (len_nonneg x); lia).
    pose proof (byteZ_range c). nia.
Qed.

(** ** What collect does under the invariant *)

Section Collect.

Lemma collect_spec (b : list byte) (count : Z) (p : Parser) :
  buffer p = [] \/ len (buffer p) < count -> count < 2 ^ 63 ->
  collect b count p =
  if count <? 0 then Panic
  else if count <=? len (buffer p) + len b
  then Done (set_buffer [] p,
             skipn (Z.to_nat (count - len (buffer p))) b,
             Some (buffer p
                   ++ firstn (Z.to_nat (count - len (buffer p))) b))
  else Done (set_buffer (buffer p ++ b) p, [], None).
Proof.
  intros Hpre Hr. unfold collect.
  destruct (buffer p) as [|c0 buf] eqn:Hb.
  - unfold collectFresh. rewrite Hb, len_nil, Z.add_0_l, Z.sub_0_r.
    cbn [app].
    destruct (count <=? len b) eqn:Hc.
    + destruct (count <? 0); [reflexivity|].
      repeat f_equal. rewrite <- Hb. symmetry. apply set_buffer_same.
    + destruct (Z.ltb_spec count 0) as [Hn|_]; [|reflexivity].
      apply Z.leb_gt in Hc. pose proof (len_nonneg b). lia.
  - destruct Hpre as [Hpre | Hpre]; [discriminate|].
    pose proof (len_nonneg (c0 :: buf)) as Hl0.
    assert (Hl1 : 0 < len (c0 :: buf))
      by (unfold len; cbn [length]; lia).
    rewrite wrap64_id by (unfold in64; lia).
    destruct (Z.ltb_spec 0 (count - len (c0 :: buf))) as [_|?]; [|lia].
    destruct (Z.ltb_spec count 0) as [?|_]; [lia|].
    destruct (Z.ltb_spec (len b) (count - len (c0 :: buf))) as [Hlt|Hge].
    + destruct (Z.leb_spec count (len (c0 :: buf) + len b)) as [?|_]; [lia|].
      reflexivity.
    + destruct (Z.leb_spec count (len (c0 :: buf) + len b)) as [_|?]; [|lia].
      cbn [buffer set_buffer].
      assert (Hlen : len ((c0 :: buf)
                          ++ firstn (Z.to_nat (count - len (c0 :: buf))) b)
                     = count).
      { rewrite len_app. unfold len in *. rewrite length_firstn. lia. }
      rewrite Hlen, Z.leb_refl, Z.eqb_refl.
      destruct (Z.ltb_spec count 0) as [?|_]; [lia|].
      rewrite (firstn_all2 (n := Z.to_nat count)) by (unfold len in *; lia).
      reflexivity.
Qed.

Lemma set_buffer_twice (x y : list byte) (p : Parser) :
  set_buffer x (set_buffer y p) = set_buffer x p.
Proof. reflexivity. Qed.

(** The input [b1 ++ b2] seen by [collect] at once, or [b1] first: either
    [b1] holds the end of the field, or [b1] is saved as a whole and [b2]
    is then treated as the whole input was. *)
Lemma collect_split (b1 b2 : list byte) (count : Z) (p : Parser) :
  buffer p = [] \/ len (buffer p) < count -> count < 2 ^ 63 ->
  collect (b1 ++ b2) count p = Panic
  \/ (exists r1 tmp,
        collect b1 count p = Done (set_buffer [] p, r1, Some tmp)
        /\ collect (b1 ++ b2) count p
           = Done (set_buffer [] p, r1 ++ b2, Some tmp)
        /\ len tmp = count)
  \/ (collect b1 count p = Done (set_buffer (buffer p ++ b1) p, [], None)
      /\ collect b2 count (set_buffer (buffer p ++ b1) p)
         = collect (b1 ++ b2) count p
      /\ len (buffer p ++ b1) < count).
Proof.
  intros Hpre Hr.
  pose proof (len_nonneg (buffer p)) as Hlb.
  pose proof (len_nonneg b1) as Hl1. pose proof (len_nonneg b2) as Hl2.
  rewrite (collect_spec (b1 ++ b2)), (collect_spec b1) by assumption.
  rewrite len_app.
  destruct (Z.ltb_spec count 0) as [Hn|Hn]; [now left|right].
  assert (Hge : len (buffer p) <= count).
  { destruct Hpre as [E|E]; [rewrite E, len_nil; lia | lia]. }
  destruct (Z.leb_spec count (len (buffer p) + len b1)) as [Hc|Hc].
  - left. eexists _, _. split; [reflexivity|].
    destruct (Z.leb_spec count (len (buffer p) + (len b1 + len b2)))
      as [_|?]; [|lia].
    assert (Hk : (Z.to_nat (count - len (buffer p)) <= length b1)%nat)
      by (unfold len in *; lia).
    rewrite JsonChunks.skipn_app_l, JsonChunks.firstn_app_l by exact Hk.
    split; [reflexivity|].
    rewrite len_app. unfold len in *. rewrite length_firstn. lia.
  - right. split; [reflexivity|].
    assert (Hlt : len (buffer p ++ b1) < count) by (rewrite len_app; lia).
    split; [|exact Hlt].
    rewrite collect_spec by (cbn [buffer set_buffer]; auto).
    cbn [buffer set_buffer]. rewrite !set_buffer_twice, len_app.
    destruct (Z.ltb_spec count 0) as [?|_]; [lia|].
    rewrite <- Z.add_assoc.
    destruct (count <=? len (buffer p) + (len b1 + len b2));
      [|now rewrite app_assoc].
    rewrite skipn_app, firstn_app.
    rewrite (skipn_all2 (n := Z.to_nat (count - len (buffer p))) b1),
      (firstn_all2 (n := Z.to_nat (count - len (buffer p))) b1)
      by (unfold len in *; lia).
    cbn [app]. rewrite <- app_assoc.
    replace (Z.to_nat (count - len (buffer p)) - length b1)%nat
      with (Z.to_nat (count - (len (buffer p) + len b1)))
      by (unfold len in *; lia).
    reflexivity.
Qed.

End Collect.

(** ** Steps that leave the carry buffer alone *)

Lemma quiet_refl (p : Parser) : quiet p p.
Proof. split; auto. Qed.

Lemma quiet_trans (p q r : Parser) : quiet p q -> quiet q r -> quiet p r.
Proof. intros [A1 A2] [B1 B2]. split; [congruence | auto]. Qed.

Lemma quiet_push (s : state) (p : Parser) : quiet p (push s p).
Proof. split; auto. Qed.

Lemma quiet_pop (p : Parser) : quiet p (pop p).
Proof. split; auto. Qed.

Lemma quiet_set_cur (s : state) (p : Parser) : quiet p (set_cur s p).
Proof. split; auto. Qed.

Lemma quiet_set_trace (t : list event) (p : Parser) : quiet p (set_trace t p).
Proof. split; auto. Qed.

Lemma quiet_set_lenCur (z : Z) (p : Parser) :
  quiet p (set_lenCur (wrap64 z) p).
Proof.
  split; [reflexivity|]. intros [_ H]. split; [apply wrap64_in64 | exact H].
Qed.

Lemma quiet_lpush (v : Z) (p : Parser) : in64 v -> quiet p (lpush v p).
Proof.
  intros Hv. split; [reflexivity|]. intros [H1 H2].
  split; [exact Hv | constructor; assumption].
Qed.

Lemma quiet_lpop (p : Parser) : quiet p (lpop p).
Proof.
  split; [reflexivity|]. intros [H1 H2]. unfold lens_ok, lpop, lenCur.
  cbn [length_ set_length]. unfold lengthStack_pop.
  destruct (lstack (length_ p)) as [|z l]; cbn [lstack lcurrent].
  - split; [unfold in64; lia | constructor].
  - inversion H2; subst. split; assumption.
Qed.

Lemma quiet_onValue (p : Parser) : quiet p (fst (onValue p)).
Proof.
  unfold onValue.
  destruct ((major (cur p) =? majorArr) || (major (cur p) =? majorMap));
    cbn [fst]; [apply quiet_set_lenCur | apply quiet_refl].
Qed.

Lemma quiet_popState (p : Parser) : quiet p (fst (popState p)).
Proof.
  unfold popState. eapply quiet_trans; [apply quiet_pop|].
  apply quiet_onValue.
Qed.

Lemma minor_in64 (c : byte) : in64 (Z.land (byteZ c) minorMask).
Proof.
  assert (H : 0 <= Z.land (byteZ c) minorMask < 32).
  { destruct c; vm_compute; (split; [discriminate | reflexivity]). }
  unfold in64. lia.
Qed.

Lemma byteZ_in64 (c : byte) : in64 (byteZ c).
Proof. pose proof (byteZ_range c). unfold in64. lia. Qed.

Create HintDb quiet.

#[local] Hint Resolve quiet_refl quiet_push quiet_pop quiet_set_cur
  quiet_set_trace quiet_set_lenCur quiet_lpush quiet_lpop quiet_onValue
  quiet_popState minor_in64 byteZ_in64 : quiet.

Ltac quiet_chain :=
  repeat first
    [ apply quiet_refl
    | assumption
    | eapply quiet_trans; [| eassumption]
    | eapply quiet_trans;
      [| first [ apply quiet_push | apply quiet_pop | apply quiet_set_cur
               | apply quiet_set_trace | apply quiet_set_lenCur
               | apply quiet_lpop
               | apply quiet_lpush; auto with quiet ] ] ].

(** Names the parser returned by [popState] or [onValue] in [H] and records
    that the call was quiet. *)
Ltac name_pop H :=
  repeat match type of H with
  | context [popState ?p] =>
      let Hq := fresh "Hq" in
      pose proof (quiet_popState p) as Hq;
      destruct (popState p) as [? ?]; cbn [fst] in Hq
  | context [onValue ?p] =>
      let Hq := fresh "Hq" in
      pose proof (quiet_onValue p) as Hq;
      destruct (onValue p) as [? ?]; cbn [fst] in Hq
  end.

Section Steps.

Variable vs : Visitor.

Abbreviation step_fun :=
  (list byte -> Parser -> outcome (Parser * list byte * bool * option error)).

Definition quiet_fun (f : step_fun) : Prop :=
  forall b p p' b' d e, f b p = Done (p', b', d, e) -> quiet p p'.

Lemma simpleValue_quiet ev b p p' b' d e :
  simpleValue vs ev b p = (p', b', d, e) -> quiet p p'.
Proof.
  unfold simpleValue, emit. intros H. name_pop H.
  injection H as <- _ _ _. quiet_chain.
Qed.

Lemma initByteSeq_quiet mj mn b p p' b' d e :
  in64 mn -> initByteSeq mj mn b p = (p', b', d, e) -> quiet p p'.
Proof.
  unfold initByteSeq. intros Hm H.
  destruct (mn <? len8b); injection H as <- _ _ _; quiet_chain.
Qed.

Lemma initSub_quiet mj mn b p p' b' d e :
  in64 mn -> initSub mj mn b p = (p', b', d, e) -> quiet p p'.
Proof.
  unfold initSub. intros Hm H.
  destruct (mn =? lenIndef); [|destruct (mn <? len8b)];
    injection H as <- _ _ _; quiet_chain.
Qed.

Lemma stepValue_quiet : quiet_fun (stepValue vs).
Proof.
  intros b p p' b' d e H. unfold stepValue in H.
  destruct b as [|c b]; [discriminate|]. cbv zeta in H.
  pose proof (minor_in64 c) as Hm.
  repeat match type of H with
  | (if ?c then _ else _) = _ => destruct c
  end;
  match type of H with
  | Done (simpleValue _ _ _ _) = _ =>
      injection H as H; now apply simpleValue_quiet in H
  | Done (initByteSeq _ _ _ _) = _ =>
      injection H as H; now apply initByteSeq_quiet in H
  | Done (initSub _ _ _ _) = _ =>
      injection H as H; now apply initSub_quiet in H
  | _ => inv_done H; quiet_chain
  end.
Qed.

Lemma visitBytes_quiet (l : list byte) :
  forall p p' e, visitBytes vs l p = (p', e) -> quiet p p'.
Proof.
  induction l as [|c l IH]; intros p p' e H; cbn [visitBytes] in H.
  - injection H as <- _. apply quiet_refl.
  - unfold emit in H. destruct (vs (trace p) (OnByte c)).
    + injection H as <- _. quiet_chain.
    + apply IH in H. quiet_chain.
Qed.

Lemma stepBytes_quiet : quiet_fun (stepBytes vs).
Proof.
  intros b p p' b' d e H. unfold stepBytes, emit in H.
  assert (Hstart : exists q, quiet p q /\
    match
      (let '(q, e0) :=
         if minor (cur p) =? stStart
         then match vs (trace p) (OnArrayStart (lenCur p) ByteType) with
              | Some e1 =>
                  (set_trace (trace p ++ [OnArrayStart (lenCur p) ByteType])
                     p, Some e1)
              | None =>
                  (set_cur
                     (mkState
                        (major
                           (cur (set_trace
                                   (trace p
                                    ++ [OnArrayStart (lenCur p) ByteType])
                                   p))) stCont)
                     (set_trace
                        (trace p ++ [OnArrayStart (lenCur p) ByteType]) p),
                   None)
              end
         else (p, None) in (q, e0))
    with (q', _) => q' = q end).
  { destruct (minor (cur p) =? stStart);
      [destruct (vs (trace p) (OnArrayStart (lenCur p) ByteType))|];
      eexists; (split; [|reflexivity]); quiet_chain. }
  destruct Hstart as (q & Hq & Hs).
  destruct (if minor (cur p) =? stStart then _ else _) as [q0 e0].
  subst q0. destruct e0; [inv_done H; assumption|].
  destruct (lenCur q <=? len b).
  - destruct (lenCur q <? 0); [discriminate|].
    destruct (visitBytes vs _ q) as [q1 e1] eqn:Hv.
    apply visitBytes_quiet in Hv.
    destruct e1; [inv_done H; quiet_chain|].
    destruct (vs (trace q1) OnArrayFinished); [inv_done H; quiet_chain|].
    name_pop H. inv_done H. quiet_chain.
  - destruct (len b <? 0); [discriminate|].
    destruct (visitBytes vs _ _) as [q1 e1] eqn:Hv.
    apply visitBytes_quiet in Hv.
    destruct e1; inv_done H; quiet_chain.
Qed.

Lemma stepAggregate_quiet fin next :
  quiet_fun next -> quiet_fun (stepAggregate vs fin next).
Proof.
  intros Hn b p p' b' d e H. unfold stepAggregate, emit in H.
  destruct (lenCur p =? 0); [|now apply Hn in H].
  destruct (vs (trace p) fin); [inv_done H; quiet_chain|].
  name_pop H. inv_done H. quiet_chain.
Qed.

Lemma initMapKey_quiet : quiet_fun initMapKey.
Proof.
  intros b p p' b' d e H. unfold initMapKey in H.
  destruct b as [|c b]; [discriminate|]. cbv zeta in H.
  pose proof (minor_in64 c) as Hm.
  destruct (negb _); [inv_done H; quiet_chain|].
  destruct (_ =? lenIndef); [inv_done H; quiet_chain|].
  injection H as H. now apply initByteSeq_quiet in H.
Qed.

Lemma startThen_quiet ev next :
  quiet_fun next -> quiet_fun (startThen vs ev next).
Proof.
  intros Hn b p p' b' d e H. unfold startThen, emit in H.
  destruct (vs (trace p) ev); [inv_done H; quiet_chain|].
  apply Hn in H. quiet_chain.
Qed.

Lemma stepIndef_quiet fin next :
  quiet_fun next -> quiet_fun (stepIndef vs fin next).
Proof.
  intros Hn b p p' b' d e H. unfold stepIndef, emit in H.
  destruct b as [|c b]; [discriminate|].
  destruct (byteZ c =? codeBreak); [|now apply Hn in H].
  name_pop H. inv_done H. quiet_chain.
Qed.

(** ** The invariant is kept by every step *)

Lemma collect_cases b count p q r tmp :
  buffer p = [] \/ len (buffer p) < count -> count < 2 ^ 63 ->
  collect b count p = Done (q, r, tmp) ->
  (exists t, tmp = Some t /\ q = set_buffer [] p /\ len t = count)
  \/ (tmp = None /\ r = [] /\ q = set_buffer (buffer p ++ b) p
      /\ len (buffer p ++ b) < count).
Proof.
  intros Hpre Hr H.
  destruct (collect_split b [] count p Hpre Hr) as [Hc|[Hc|Hc]];
    rewrite ?app_nil_r in Hc.
  - congruence.
  - destruct Hc as (r1 & t & Hc & _ & Ht). rewrite Hc in H. inv_done H.
    left. eauto.
  - destruct Hc as (Hc & _ & Hlt). rewrite Hc in H. inv_done H.
    right. auto.
Qed.

Lemma pre_of_inv (p : Parser) (count : Z) :
  inv p -> pending p = Some count ->
  buffer p = [] \/ len (buffer p) < count.
Proof.
  intros [_ [Hb | (c & Hc & Hlt)]] Hp; [now left|].
  right. congruence.
Qed.

Lemma idle_of_inv (p : Parser) :
  inv p -> pending p = None -> buffer p = [].
Proof.
  intros [_ [Hb | (c & Hc & Hlt)]] Hp; [assumption | congruence].
Qed.

Lemma inv_quiet (p p' : Parser) :
  inv p -> buffer p = [] -> quiet p p' -> inv p'.
Proof.
  intros [Hl _] Hb [Q1 Q2]. split; [auto|]. left. congruence.
Qed.

Lemma inv_reset (p p' : Parser) :
  inv p -> quiet (set_buffer [] p) p' -> inv p'.
Proof.
  intros [Hl _] [Q1 Q2]. split; [exact (Q2 Hl)|]. left. exact Q1.
Qed.

Lemma inv_saved (p : Parser) (b : list byte) (count : Z) :
  inv p -> pending p = Some count -> len (buffer p ++ b) < count ->
  inv (set_buffer (buffer p ++ b) p).
Proof.
  intros [Hl _] Hp Hlt. split; [exact Hl|]. right. exists count. auto.
Qed.

Lemma getUint_cases w b p q r dn v :
  inv p -> pending p = Some w -> w < 2 ^ 63 ->
  getUint w b p = Done (q, r, dn, v) ->
  (dn = true /\ q = set_buffer [] p /\ 0 <= v < 256 ^ w)
  \/ (dn = false /\ r = [] /\ q = set_buffer (buffer p ++ b) p
      /\ len (buffer p ++ b) < w).
Proof.
  intros Hi Hp Hw H. unfold getUint in H.
  apply bind_done in H as ([[q0 r0] tmp] & H1 & H2).
  apply collect_cases in H1; [|now apply pre_of_inv | assumption].
  destruct H1 as [(t & -> & -> & Ht) | (-> & -> & -> & Hlt)]; inv_done H2.
  - left. repeat split; apply bigEndian_range.
  - right. auto.
Qed.

Lemma width_of_cases (m : Z) :
  (m = len16b /\ width_of m = Some 2)
  \/ (m = len32b /\ width_of m = Some 4)
  \/ (m = len64b /\ width_of m = Some 8)
  \/ (m <> len16b /\ m <> len32b /\ m <> len64b /\ width_of m = None).
Proof.
  unfold width_of.
  destruct (Z.eqb_spec m len16b) as [->|?]; [now left|].
  destruct (Z.eqb_spec m len32b) as [->|?]; [now right; left|].
  destruct (Z.eqb_spec m len64b) as [->|?]; [now right; right; left|].
  now right; right; right.
Qed.

Lemma wideInt_inv w (ev : Z -> event) b p q r dn e :
  inv p -> pending p = Some w -> w < 2 ^ 63 ->
  ('(p, b, done, v) <- getUint w b p ;;
   if done : bool then
     let '(p, e) := emit vs (ev v) p in Done (p, b, done, e)
   else Done (p, b, done, None)) = Done (q, r, dn, e) ->
  inv q /\ (dn = true -> buffer q = []).
Proof.
  intros Hi Hp Hw H.
  apply bind_done in H as ([[[q1 r1] d1] v] & G1 & G2).
  apply getUint_cases in G1; try assumption.
  destruct G1 as [(-> & -> & Hv) | (-> & -> & -> & Hlt)].
  - unfold emit in G2. inv_done G2.
    split; [eapply inv_reset; eauto; quiet_chain | reflexivity].
  - inv_done G2. split; [now apply inv_saved with (count := w) | discriminate].
Qed.

Lemma stepInt_inv ev8 ev16 ev32 ev64 b p p' b' d e :
  inv p -> pending p = width_of (minor (cur p)) ->
  stepInt vs ev8 ev16 ev32 ev64 b p = Done (p', b', d, e) -> inv p'.
Proof.
  intros Hi Hp H. unfold stepInt in H. cbv zeta in H.
  apply bind_done in H as ([[[q r] dn] e0] & H1 & H2).
  assert (Hq : inv q /\ (dn = true -> buffer q = [])).
  { clear H2. unfold width_of in Hp.
    destruct (Z.eqb_spec (minor (cur p)) len8b) as [E|E].
    - rewrite E in Hp. change (Some 2) with (Some 2) in Hp.
      assert (Hb : buffer p = []) by (apply idle_of_inv; assumption).
      destruct b; [discriminate|]. unfold emit in H1. inv_done H1.
      split; [eapply inv_quiet; eauto; quiet_chain | intros _; exact Hb].
    - destruct (minor (cur p) =? len16b);
        [eapply wideInt_inv; [| | | exact H1]; auto; lia|].
      destruct (minor (cur p) =? len32b);
        [eapply wideInt_inv; [| | | exact H1]; auto; lia|].
      destruct (minor (cur p) =? len64b);
        [eapply wideInt_inv; [| | | exact H1]; auto; lia|].
      inv_done H1. split; [assumption | discriminate]. }
  destruct Hq as [Hq Hb].
  destruct dn; cbn [andb] in H2; [destruct e0; cbn [is_some negb] in H2|];
    try (inv_done H2; assumption).
  name_pop H2. inv_done H2. eapply inv_quiet; eauto.
Qed.

Lemma stepLen_inv b p p' b' :
  inv p -> pending p = width_of (minor (cur p)) ->
  stepLen b p = Done (p', b') -> inv p'.
Proof.
  intros Hi Hp H. unfold stepLen in H. cbv zeta in H.
  apply bind_done in H as ([[q r] dn] & H1 & H2).
  assert (Hq : inv q /\ (dn = true -> buffer q = [])).
  { clear H2. unfold width_of in Hp.
    assert (Hwide : forall w (conv : Z -> Z),
      pending p = Some w -> w < 2 ^ 63 ->
      (forall v, 0 <= v < 256 ^ w -> in64 (conv v)) ->
      ('(p, b, done, v) <- getUint w b p ;;
       if done : bool then Done (lpush (conv v) p, b, done)
       else Done (p, b, done)) = Done (q, r, dn) ->
      inv q /\ (dn = true -> buffer q = [])).
    { intros w conv Hw Hlt Hconv G.
      apply bind_done in G as ([[[q1 r1] d1] v] & G1 & G2).
      apply getUint_cases in G1; try assumption.
      destruct G1 as [(-> & -> & Hv) | (-> & -> & -> & Hlt')].
      - inv_done G2. split; [|reflexivity].
        eapply inv_reset; eauto. apply quiet_lpush. auto.
      - inv_done G2.
        split; [now apply inv_saved with (count := w) | discriminate]. }
    destruct (Z.eqb_spec (minor (cur p)) len8b) as [E|E].
    - rewrite E in Hp.
      assert (Hb : buffer p = []) by (apply idle_of_inv; assumption).
      destruct b; [discriminate|]. inv_done H1.
      split; [eapply inv_quiet; eauto; quiet_chain | intros _; exact Hb].
    - destruct (minor (cur p) =? len16b).
      { eapply (Hwide 2 (fun v => v)); [| | | exact H1]; auto; try lia.
        intros v Hv. unfold in64. lia. }
      destruct (minor (cur p) =? len32b).
      { eapply (Hwide 4 (fun v => v)); [| | | exact H1]; auto; try lia.
        intros v Hv. unfold in64. lia. }
      destruct (minor (cur p) =? len64b).
      { eapply (Hwide 8 (toSigned 64)); [| | | exact H1]; auto; try lia.
        intros v Hv. unfold in64, toSigned.
        destruct (2 ^ (64 - 1) <=? v) eqn:Ev;
          [apply Z.leb_le in Ev | apply Z.leb_gt in Ev]; lia. }
      inv_done H1. split; [assumption | discriminate]. }
  destruct Hq as [Hq Hb].
  destruct dn; inv_done H2; [|assumption].
  eapply inv_quiet; eauto; quiet_chain.
Qed.

Lemma stepText_inv b p p' b' d e :
  inv p -> pending p = Some (lenCur p) ->
  stepText vs b p = Done (p', b', d, e) -> inv p'.
Proof.
  intros Hi Hp H. unfold stepText in H.
  apply bind_done in H as ([[q r] tmp] & H1 & H2).
  apply collect_cases in H1;
    [| now apply pre_of_inv | destruct Hi as [[[_ Hr] _] _]; exact Hr].
  destruct H1 as [(t & -> & -> & Ht) | (-> & -> & -> & Hlt)].
  - unfold emit in H2. cbn [trace set_buffer] in H2.
    destruct (vs (trace p) (OnStringRef t)).
    + inv_done H2. eapply inv_reset; eauto; quiet_chain.
    + name_pop H2. inv_done H2. eapply inv_reset; eauto; quiet_chain.
  - inv_done H2. now apply inv_saved with (count := lenCur p).
Qed.

Lemma stepKey_inv b p p' b' d e :
  inv p -> pending p = Some (lenCur p) ->
  stepKey vs b p = Done (p', b', d, e) -> inv p'.
Proof.
  intros Hi Hp H. unfold stepKey in H.
  apply bind_done in H as ([[q r] tmp] & H1 & H2).
  apply collect_cases in H1;
    [| now apply pre_of_inv | destruct Hi as [[[_ Hr] _] _]; exact Hr].
  destruct H1 as [(t & -> & -> & Ht) | (-> & -> & -> & Hlt)].
  - unfold emit in H2. cbn [trace set_buffer] in H2.
    destruct (vs (trace p) (OnKeyRef t));
      inv_done H2; eapply inv_reset; eauto; quiet_chain.
  - inv_done H2. now apply inv_saved with (count := lenCur p).
Qed.

Ltac quiet_fun_solve :=
  repeat first
    [ apply stepValue_quiet | apply initMapKey_quiet | apply stepBytes_quiet
    | apply stepAggregate_quiet | apply startThen_quiet
    | apply stepIndef_quiet ].

(** The step of [H] is quiet. *)
Ltac quiet_in H :=
  match type of H with
  | ?f ?b ?q = Done _ =>
      let Hf := fresh "Hf" in
      assert (Hf : quiet_fun f) by quiet_fun_solve;
      apply Hf in H
  end.

Ltac pending_eq E := unfold pending; rewrite E; reflexivity.

Lemma execStep_inv b p p' b' d :
  inv p -> execStep vs b p = Done (p', b', d, None) -> inv p'.
Proof.
  intros Hi H. pose proof H as H0. unfold execStep in H. cbv zeta in H.
  unfold stepArray, stepMap, stepUint, stepNeg in H.
  destruct (Z.eqb_spec (major (cur p)) stFail) as [E|_];
    [inv_done H; assumption|].
  destruct (Z.eqb_spec (major (cur p)) stValue) as [E|_].
  { quiet_in H. eapply inv_quiet; eauto.
    apply idle_of_inv; [assumption | pending_eq E]. }
  destruct (Z.eqb_spec (major (cur p)) stLen) as [E|_].
  { apply bind_done in H as ([q r] & H1 & H2). inv_done H2.
    eapply stepLen_inv; [exact Hi | pending_eq E | exact H1]. }
  destruct (Z.eqb_spec (major (cur p)) majorUint) as [E|_].
  { eapply stepInt_inv; [exact Hi | pending_eq E | exact H]. }
  destruct (Z.eqb_spec (major (cur p)) majorNeg) as [E|_].
  { eapply stepInt_inv; [exact Hi | pending_eq E | exact H]. }
  destruct (Z.eqb_spec (major (cur p)) codeSingleFloat) as [E|_].
  { rewrite float_state_step in H0;
      [inv_done H0; assumption | now left
      | apply idle_of_inv; [assumption | pending_eq E]]. }
  destruct (Z.eqb_spec (major (cur p)) codeDoubleFloat) as [E|_].
  { rewrite float_state_step in H0;
      [inv_done H0; assumption | now right
      | apply idle_of_inv; [assumption | pending_eq E]]. }
  destruct (Z.eqb_spec (major (cur p)) majorBytes) as [E|_].
  { quiet_in H. eapply inv_quiet; eauto.
    apply idle_of_inv; [assumption | pending_eq E]. }
  destruct (Z.eqb_spec (major (cur p)) majorText) as [E|_].
  { eapply stepText_inv; [exact Hi | pending_eq E | exact H]. }
  do 8 (match type of H with
        | (if major (cur p) =? ?K then _ else _) = _ =>
            destruct (Z.eqb_spec (major (cur p)) K) as [E|_];
            [ quiet_in H; eapply inv_quiet; eauto;
              apply idle_of_inv; [assumption | pending_eq E] |]
        end).
  destruct (Z.eqb_spec (major (cur p)) stKey) as [E|_].
  { eapply stepKey_inv; [exact Hi | pending_eq E | exact H]. }
  destruct (Z.eqb_spec (major (cur p)) stElem) as [E|_]; [|discriminate].
  quiet_in H. eapply inv_quiet; [exact Hi | | quiet_chain].
  apply idle_of_inv; [assumption | pending_eq E].
Qed.

Lemma run_inv (k : nat) :
  forall p b p', inv p -> run vs k p b = Done (p', None) -> inv p'.
Proof.
  induction k as [|k IH]; intros p b p' Hi H.
  - destruct b; [|discriminate]. rewrite run_nil in H. inv_done H.
    assumption.
  - destruct b as [|c b]; [rewrite run_nil in H; inv_done H; assumption|].
    rewrite run_S in H.
    apply bind_done in H as ([[[q r] dn] e] & H1 & H2).
    destruct e; [discriminate|].
    apply execStep_inv in H1; [|assumption]. eapply IH; eauto.
Qed.

Lemma inv_NewParser : inv NewParser.
Proof.
  split; [split; [unfold in64; cbn; lia | constructor] | now left].
Qed.

(** ** One step on a split input *)

(** A step that looks only at the head of its input. *)
Definition local (f : step_fun) : Prop :=
  forall b1 b2 p p' b' d,
  b1 <> [] -> f (b1 ++ b2) p = Done (p', b', d, None) ->
  exists r1, f b1 p = Done (p', r1, d, None) /\ b' = r1 ++ b2.

Lemma simpleValue_rest ev b p p' b' d e :
  simpleValue vs ev b p = (p', b', d, e) ->
  b' = b /\ forall x, simpleValue vs ev x p = (p', x, d, e).
Proof.
  unfold simpleValue, emit. destruct (onValue _) as [q dn].
  intros H. injection H as <- <- <- <-. auto.
Qed.

Lemma initByteSeq_rest mj mn b p p' b' d e :
  initByteSeq mj mn b p = (p', b', d, e) ->
  b' = b /\ forall x, initByteSeq mj mn x p = (p', x, d, e).
Proof.
  unfold initByteSeq. destruct (mn <? len8b);
    intros H; injection H as <- <- <- <-; auto.
Qed.

Lemma initSub_rest mj mn b p p' b' d e :
  initSub mj mn b p = (p', b', d, e) ->
  b' = b /\ forall x, initSub mj mn x p = (p', x, d, e).
Proof.
  unfold initSub. destruct (mn =? lenIndef); [|destruct (mn <? len8b)];
    intros H; injection H as <- <- <- <-; auto.
Qed.

Lemma stepValue_local : local (stepValue vs).
Proof.
  intros b1 b2 p p' b' d Hb H.
  destruct b1 as [|c b1]; [now contradiction Hb|].
  cbn [app] in H. unfold stepValue in H |- *. cbv zeta in H |- *.
  repeat match type of H with
  | (if ?c then _ else _) = _ => destruct c
  end;
  match type of H with
  | Done (simpleValue _ _ _ _) = _ =>
      injection H as H; apply simpleValue_rest in H as [-> H];
      exists b1; now rewrite H
  | Done (initByteSeq _ _ _ _) = _ =>
      injection H as H; apply initByteSeq_rest in H as [-> H];
      exists b1; now rewrite H
  | Done (initSub _ _ _ _) = _ =>
      injection H as H; apply initSub_rest in H as [-> H];
      exists b1; now rewrite H
  | _ => inv_done H; first [congruence | eexists; split; reflexivity]
  end.
Qed.

Lemma initMapKey_local : local initMapKey.
Proof.
  intros b1 b2 p p' b' d Hb H.
  destruct b1 as [|c b1]; [now contradiction Hb|].
  cbn [app] in H. unfold initMapKey in H |- *. cbv zeta in H |- *.
  destruct (negb _); [discriminate|].
  destruct (_ =? lenIndef); [discriminate|].
  injection H as H. apply initByteSeq_rest in H as [-> H].
  exists b1. now rewrite H.
Qed.

Lemma stepAggregate_local fin next :
  local next -> local (stepAggregate vs fin next).
Proof.
  intros Hn b1 b2 p p' b' d Hb H. unfold stepAggregate, emit in H |- *.
  destruct (lenCur p =? 0); [|now apply Hn].
  destruct (vs (trace p) fin); [discriminate|].
  destruct (popState _) as [q dn]. inv_done H.
  eexists; split; reflexivity.
Qed.

Lemma startThen_local ev next :
  local next -> local (startThen vs ev next).
Proof.
  intros Hn b1 b2 p p' b' d Hb H. unfold startThen, emit in H |- *.
  destruct (vs (trace p) ev); [discriminate|]. now apply Hn.
Qed.

Lemma stepIndef_local fin next :
  local next -> local (stepIndef vs fin next).
Proof.
  intros Hn b1 b2 p p' b' d Hb H.
  destruct b1 as [|c b1]; [now contradiction Hb|].
  cbn [app] in H. unfold stepIndef, emit in H |- *.
  destruct (byteZ c =? codeBreak); [|now apply (Hn (c :: b1))].
  destruct (popState _) as [q dn]. injection H as -> <- -> H.
  rewrite H. eexists; split; reflexivity.
Qed.

(** A step that either finds the end of its field in [b1], or saves [b1]
    and then treats [b2] as it would have treated the whole input. *)
Definition resumes (f : step_fun) (p : Parser) : Prop :=
  forall b1 b2 p' b' d,
  b1 <> [] -> f (b1 ++ b2) p = Done (p', b', d, None) ->
  (exists r1 d1, f b1 p = Done (p', r1, d1, None) /\ b' = r1 ++ b2)
  \/ (f b1 p = Done (set_buffer (buffer p ++ b1) p, [], false, None)
      /\ f b2 (set_buffer (buffer p ++ b1) p) = f (b1 ++ b2) p).

Lemma stepText_split (p : Parser) :
  inv p -> pending p = Some (lenCur p) -> resumes (stepText vs) p.
Proof.
  intros Hi Hp b1 b2 p' b' d _ H.
  assert (Hr : lenCur p < 2 ^ 63) by (destruct Hi as [[[_ Hr] _] _]; exact Hr).
  destruct (collect_split b1 b2 (lenCur p) p (pre_of_inv _ _ Hi Hp) Hr)
    as [Hc|[(r1 & t & C1 & C2 & Ht)|(C1 & C2 & Hlt)]];
    unfold stepText in H |- *.
  - rewrite Hc in H. discriminate.
  - left. rewrite C2 in H. rewrite C1. cbn [bind] in H |- *.
    unfold emit in H |- *. cbn [trace set_buffer] in H |- *.
    destruct (vs (trace p) (OnStringRef t)); [discriminate|].
    destruct (popState _) as [q dn]. inv_done H.
    eexists _, _. split; reflexivity.
  - right. rewrite C1.
    change (lenCur (set_buffer (buffer p ++ b1) p)) with (lenCur p).
    rewrite C2. split; reflexivity.
Qed.

Lemma stepKey_split (p : Parser) :
  inv p -> pending p = Some (lenCur p) -> resumes (stepKey vs) p.
Proof.
  intros Hi Hp b1 b2 p' b' d _ H.
  assert (Hr : lenCur p < 2 ^ 63) by (destruct Hi as [[[_ Hr] _] _]; exact Hr).
  destruct (collect_split b1 b2 (lenCur p) p (pre_of_inv _ _ Hi Hp) Hr)
    as [Hc|[(r1 & t & C1 & C2 & Ht)|(C1 & C2 & Hlt)]];
    unfold stepKey in H |- *.
  - rewrite Hc in H. discriminate.
  - left. rewrite C2 in H. rewrite C1. cbn [bind] in H |- *.
    unfold emit in H |- *. cbn [trace set_buffer] in H |- *.
    destruct (vs (trace p) (OnKeyRef t)); [discriminate|].
    inv_done H. eexists _, _. split; reflexivity.
  - right. rewrite C1.
    change (lenCur (set_buffer (buffer p ++ b1) p)) with (lenCur p).
    rewrite C2. split; reflexivity.
Qed.

Lemma getUint_split (w : Z) (b1 b2 : list byte) (p : Parser) :
  inv p -> pending p = Some w -> w < 2 ^ 63 ->
  getUint w (b1 ++ b2) p = Panic
  \/ (exists r1 v,
        getUint w b1 p = Done (set_buffer [] p, r1, true, v)
        /\ getUint w (b1 ++ b2) p
           = Done (set_buffer [] p, r1 ++ b2, true, v))
  \/ (getUint w b1 p
      = Done (set_buffer (buffer p ++ b1) p, [], false, 0)
      /\ getUint w b2 (set_buffer (buffer p ++ b1) p)
         = getUint w (b1 ++ b2) p).
Proof.
  intros Hi Hp Hw.
  destruct (collect_split b1 b2 w p (pre_of_inv _ _ Hi Hp) Hw)
    as [Hc|[(r1 & t & C1 & C2 & Ht)|(C1 & C2 & Hlt)]];
    unfold getUint.
  - left. now rewrite Hc.
  - right; left. rewrite C1, C2. eexists _, _. split; reflexivity.
  - right; right. rewrite C1, C2. split; reflexivity.
Qed.

Lemma stepInt_split ev8 ev16 ev32 ev64 (p : Parser) :
  inv p -> pending p = width_of (minor (cur p)) ->
  resumes (stepInt vs ev8 ev16 ev32 ev64) p.
Proof.
  intros Hi Hp b1 b2 p' b' d Hb H. unfold stepInt in H |- *.
  change (cur (set_buffer (buffer p ++ b1) p)) with (cur p).
  cbv zeta in H |- *. unfold width_of in Hp.
  assert (Hwide : forall w (ev : Z -> event),
    pending p = Some w -> w < 2 ^ 63 ->
    forall (f : step_fun),
    (forall b q,
       f b q =
       ('(p, b, done, e) <-
          ('(p, b, done, v) <- getUint w b q ;;
           if done : bool then
             let '(p, e) := emit vs (ev v) p in Done (p, b, done, e)
           else Done (p, b, done, None)) ;;
        if (done : bool) && negb (is_some e) then
          let '(p, done) := popState p in Done (p, b, done, e)
        else Done (p, b, done, e))) ->
    f (b1 ++ b2) p = Done (p', b', d, None) ->
    (exists r1 d1, f b1 p = Done (p', r1, d1, None) /\ b' = r1 ++ b2)
    \/ (f b1 p = Done (set_buffer (buffer p ++ b1) p, [], false, None)
        /\ f b2 (set_buffer (buffer p ++ b1) p) = f (b1 ++ b2) p)).
  { intros w ev Hw Hlt f Hf G. rewrite !Hf. rewrite Hf in G.
    destruct (getUint_split w b1 b2 p Hi Hw Hlt)
      as [G0|[(r1 & v & G1 & G2)|(G1 & G2)]].
    - rewrite G0 in G. discriminate.
    - left. rewrite G2 in G. rewrite G1. cbn [bind] in G |- *.
      unfold emit in G |- *. cbn [trace set_buffer] in G |- *.
      destruct (vs (trace p) (ev v)); cbn [bind andb negb is_some] in G |- *;
        [inv_done G; congruence|].
      destruct (popState _) as [q dn]. inv_done G.
      eexists _, _. split; reflexivity.
    - right. rewrite G1, G2. split; reflexivity. }
  destruct (minor (cur p) =? len8b).
  - left. destruct b1 as [|c b1]; [now contradiction Hb|].
    cbn [app bind] in H |- *. unfold emit in H |- *.
    destruct (vs (trace p) (ev8 (byteZ c)));
      cbn [bind andb negb is_some] in H |- *; [inv_done H; congruence|].
    destruct (popState _) as [q dn]. inv_done H.
    eexists _, _. split; reflexivity.
  - destruct (minor (cur p) =? len16b).
    { apply (Hwide 2 ev16 Hp ltac:(lia)
               (fun b q => _ <- _ ;; _)); [reflexivity | exact H]. }
    destruct (minor (cur p) =? len32b).
    { apply (Hwide 4 ev32 Hp ltac:(lia)
               (fun b q => _ <- _ ;; _)); [reflexivity | exact H]. }
    destruct (minor (cur p) =? len64b).
    { apply (Hwide 8 ev64 Hp ltac:(lia)
               (fun b q => _ <- _ ;; _)); [reflexivity | exact H]. }
    left. cbn [bind andb] in H |- *. inv_done H.
    eexists _, _. split; reflexivity.
Qed.

Lemma stepLen_split (p : Parser) :
  inv p -> pending p = width_of (minor (cur p)) ->
  resumes (fun b q => '(p, b) <- stepLen b q ;; Done (p, b, false, None)) p.
Proof.
  intros Hi Hp b1 b2 p' b' d Hb H. unfold stepLen in H |- *.
  change (cur (set_buffer (buffer p ++ b1) p)) with (cur p).
  cbv zeta in H |- *. unfold width_of in Hp.
  assert (Hwide : forall w (conv : Z -> Z),
    pending p = Some w -> w < 2 ^ 63 ->
    forall (f : step_fun),
    (forall b q,
       f b q =
       ('(p, b) <-
          ('(p, b, done) <-
             ('(p, b, done, v) <- getUint w b q ;;
              if done : bool then Done (lpush (conv v) p, b, done)
              else Done (p, b, done)) ;;
           if done : bool then Done (pop p, b) else Done (p, b)) ;;
        Done (p, b, false, None))) ->
    f (b1 ++ b2) p = Done (p', b', d, None) ->
    (exists r1 d1, f b1 p = Done (p', r1, d1, None) /\ b' = r1 ++ b2)
    \/ (f b1 p = Done (set_buffer (buffer p ++ b1) p, [], false, None)
        /\ f b2 (set_buffer (buffer p ++ b1) p) = f (b1 ++ b2) p)).
  { intros w conv Hw Hlt f Hf G. rewrite !Hf. rewrite Hf in G.
    destruct (getUint_split w b1 b2 p Hi Hw Hlt)
      as [G0|[(r1 & v & G1 & G2)|(G1 & G2)]].
    - rewrite G0 in G. discriminate.
    - left. rewrite G2 in G. rewrite G1. cbn [bind] in G |- *.
      inv_done G. eexists _, _. split; reflexivity.
    - right. rewrite G1, G2. split; reflexivity. }
  destruct (minor (cur p) =? len8b).
  - left. destruct b1 as [|c b1]; [now contradiction Hb|].
    cbn [app bind] in H |- *. inv_done H.
    eexists _, _. split; reflexivity.
  - destruct (minor (cur p) =? len16b).
    { apply (Hwide 2 (fun v => v) Hp ltac:(lia)
               (fun b q => _ <- _ ;; _)); [reflexivity | exact H]. }
    destruct (minor (cur p) =? len32b).
    { apply (Hwide 4 (fun v => v) Hp ltac:(lia)
               (fun b q => _ <- _ ;; _)); [reflexivity | exact H]. }
    destruct (minor (cur p) =? len64b).
    { apply (Hwide 8 (toSigned 64) Hp ltac:(lia)
               (fun b q => _ <- _ ;; _)); [reflexivity | exact H]. }
    left. cbn [bind] in H |- *. inv_done H.
    eexists _, _. split; reflexivity.
Qed.

(** ** Byte strings *)

Lemma stepBytes_eq (b : list byte) (p : Parser) :
  stepBytes vs b p =
  let '(q, e) := bytesStart vs p in
  match e with
  | Some e => Done (q, [], false, Some e)
  | None => bytesBody vs b q
  end.
Proof. reflexivity. Qed.

Lemma visitBytes_app (x y : list byte) :
  forall p,
  visitBytes vs (x ++ y) p =
  let '(q, e) := visitBytes vs x p in
  match e with
  | Some e => (q, Some e)
  | None => visitBytes vs y q
  end.
Proof.
  induction x as [|c x IH]; intros p; [reflexivity|].
  cbn [app visitBytes]. unfold emit.
  destruct (vs (trace p) (OnByte c)); [reflexivity|]. apply IH.
Qed.

Lemma visitBytes_set_lenCur (l : list byte) (z : Z) :
  forall p,
  visitBytes vs l (set_lenCur z p) =
  let '(q, e) := visitBytes vs l p in (set_lenCur z q, e).
Proof.
  induction l as [|c l IH]; intros p; [reflexivity|].
  cbn [visitBytes]. unfold emit. cbn [trace set_lenCur set_length].
  destruct (vs (trace p) (OnByte c)); [reflexivity|].
  apply (IH (set_trace (trace p ++ [OnByte c]) p)).
Qed.

Lemma visitBytes_frame (l : list byte) :
  forall p q e, visitBytes vs l p = (q, e) -> q = set_trace (trace q) p.
Proof.
  induction l as [|c l IH]; intros p q e H; cbn [visitBytes] in H.
  - injection H as <- _. now destruct p.
  - unfold emit in H. destruct (vs (trace p) (OnByte c)).
    + injection H as <- _. reflexivity.
    + apply IH in H. rewrite H. reflexivity.
Qed.

Lemma bytesStart_minor (p q : Parser) :
  bytesStart vs p = (q, None) ->
  (minor (cur q) =? stStart) = false /\ major (cur q) = major (cur p)
  /\ lenCur q = lenCur p.
Proof.
  unfold bytesStart, emit.
  destruct (minor (cur p) =? stStart) eqn:E.
  - destruct (vs (trace p) _); [discriminate|].
    intros H. injection H as <-. repeat split.
  - intros H. injection H as <-. auto.
Qed.

Lemma trace_set_lenCur (z : Z) (p : Parser) :
  trace (set_lenCur z p) = trace p.
Proof. reflexivity. Qed.

Lemma lpop_set_lenCur (t : list event) (z : Z) (p : Parser) :
  lpop (set_trace t (set_lenCur z p)) = lpop (set_trace t p).
Proof. reflexivity. Qed.

Lemma bytesBody_short (q : Parser) (b1 : list byte) :
  len b1 < lenCur q ->
  bytesBody vs b1 q =
  let '(qa, ea) := visitBytes vs b1 q in
  Done (set_lenCur (wrap64 (lenCur q - len b1)) qa, [], false, ea).
Proof.
  intros Hc. pose proof (len_nonneg b1) as Hl.
  unfold bytesBody. cbv zeta.
  replace (lenCur q <=? len b1) with false by (symmetry; apply Z.leb_gt; lia).
  cbv beta iota.
  replace (len b1 <? 0) with false by (symmetry; apply Z.ltb_ge; lia).
  replace (Z.to_nat (len b1)) with (length b1) by (unfold len; lia).
  rewrite firstn_all, skipn_all, visitBytes_set_lenCur.
  destruct (visitBytes vs b1 q) as [qa [ea|]]; reflexivity.
Qed.

Lemma bytesBody_split (q : Parser) (b1 b2 : list byte) p' b' d :
  in64 (lenCur q) ->
  bytesBody vs (b1 ++ b2) q = Done (p', b', d, None) ->
  (exists r1 d1,
     bytesBody vs b1 q = Done (p', r1, d1, None) /\ b' = r1 ++ b2)
  \/ (exists p1 d2,
        bytesBody vs b1 q = Done (p1, [], false, None)
        /\ cur p1 = cur q
        /\ bytesBody vs b2 p1 = Done (p', b', d2, None)).
Proof.
  intros Hr H.
  pose proof (len_nonneg b1) as Hl1. pose proof (len_nonneg b2) as Hl2.
  destruct (Z.leb_spec (lenCur q) (len b1)) as [Hc|Hc].
  - left. unfold bytesBody in H |- *. cbv zeta in H |- *.
    rewrite len_app in H.
    replace (lenCur q <=? len b1 + len b2) with true in H
      by (symmetry; apply Z.leb_le; lia).
    replace (lenCur q <=? len b1) with true
      by (symmetry; apply Z.leb_le; lia).
    cbv beta iota in H |- *.
    destruct (lenCur q <? 0) eqn:En; [discriminate|]. apply Z.ltb_ge in En.
    rewrite JsonChunks.firstn_app_l, JsonChunks.skipn_app_l in H
      by (unfold len in *; lia).
    destruct (visitBytes vs _ q) as [qa [ea|]]; [discriminate|].
    unfold emit in H |- *.
    destruct (vs (trace qa) OnArrayFinished); [discriminate|].
    destruct (popState _) as [q' d']. inv_done H.
    eexists _, _. split; reflexivity.
  - right.
    assert (Hz1 : wrap64 (lenCur q - len b1) = lenCur q - len b1)
      by (apply wrap64_id; unfold in64 in *; lia).
    pose proof (bytesBody_short q b1 Hc) as B1.
    destruct (visitBytes vs b1 q) as [qa ea] eqn:Va.
    assert (Hcur : cur (set_lenCur (wrap64 (lenCur q - len b1)) qa) = cur q).
    { apply visitBytes_frame in Va. rewrite Va. reflexivity. }
    unfold bytesBody in H. cbv zeta in H. rewrite len_app in H.
    destruct (Z.leb_spec (lenCur q) (len b1 + len b2)) as [Hd|Hd];
      cbv beta iota in H.
    + replace (lenCur q <? 0) with false in H
        by (symmetry; apply Z.ltb_ge; lia).
      replace (firstn (Z.to_nat (lenCur q)) (b1 ++ b2))
        with (b1 ++ firstn (Z.to_nat (lenCur q - len b1)) b2) in H
        by (rewrite firstn_app, (firstn_all2 b1) by (unfold len in *; lia);
            do 2 f_equal; unfold len; lia).
      replace (skipn (Z.to_nat (lenCur q)) (b1 ++ b2))
        with (skipn (Z.to_nat (lenCur q - len b1)) b2) in H
        by (rewrite skipn_app, (skipn_all2 b1) by (unfold len in *; lia);
            cbn [app]; f_equal; unfold len; lia).
      rewrite visitBytes_app, Va in H. cbv beta iota in H.
      destruct ea; [discriminate|].
      destruct (visitBytes vs (firstn _ b2) qa) as [qb eb] eqn:Vb.
      destruct eb; [discriminate|].
      unfold emit in H.
      destruct (vs (trace qb) OnArrayFinished) eqn:Ev; [discriminate|].
      destruct (popState (lpop (set_trace (trace qb ++ [OnArrayFinished]) qb)))
        as [q' d'] eqn:Ep.
      inv_done H.
      exists (set_lenCur (wrap64 (lenCur q - len b1)) qa), d.
      split; [exact B1|]. split; [exact Hcur|].
      unfold bytesBody. cbv zeta.
      cbn [lenCur set_lenCur set_length length_ lcurrent]. rewrite Hz1.
      replace (lenCur q - len b1 <=? len b2) with true
        by (symmetry; apply Z.leb_le; lia).
      cbv beta iota.
      replace (lenCur q - len b1 <? 0) with false
        by (symmetry; apply Z.ltb_ge; lia).
      pose proof (visitBytes_set_lenCur
                    (firstn (Z.to_nat (lenCur q - len b1)) b2)
                    (lenCur q - len b1) qa) as Hv.
      rewrite Vb in Hv. rewrite Hv.
      unfold emit. rewrite trace_set_lenCur, Ev, lpop_set_lenCur.
      rewrite Ep. reflexivity.
    + replace (len b1 + len b2 <? 0) with false in H
        by (symmetry; apply Z.ltb_ge; lia).
      replace (Z.to_nat (len b1 + len b2)) with (length (b1 ++ b2)) in H
        by (rewrite length_app; unfold len; lia).
      rewrite firstn_all, skipn_all, visitBytes_set_lenCur, visitBytes_app,
        Va in H.
      cbv beta iota in H. destruct ea; [discriminate|].
      destruct (visitBytes vs b2 qa) as [qb eb] eqn:Vb.
      destruct eb; [discriminate|]. inv_done H.
      exists (set_lenCur (wrap64 (lenCur q - len b1)) qa), false.
      split; [exact B1|]. split; [exact Hcur|].
      rewrite bytesBody_short
        by (cbn [lenCur set_lenCur set_length length_ lcurrent]; lia).
      rewrite visitBytes_set_lenCur, Vb.
      cbn [lenCur set_lenCur set_length length_ lcurrent lstack].
      rewrite wrap64_sub.
      replace (lenCur q - len b1 - len b2)
        with (lenCur q - (len b1 + len b2)) by lia.
      reflexivity.
Qed.

Lemma stepBytes_split (p : Parser) (b1 b2 : list byte) p' b' d :
  inv p ->
  stepBytes vs (b1 ++ b2) p = Done (p', b', d, None) ->
  (exists r1 d1,
     stepBytes vs b1 p = Done (p', r1, d1, None) /\ b' = r1 ++ b2)
  \/ (exists p1 d2,
        stepBytes vs b1 p = Done (p1, [], false, None)
        /\ major (cur p1) = major (cur p)
        /\ stepBytes vs b2 p1 = Done (p', b', d2, None)).
Proof.
  intros Hi H. rewrite stepBytes_eq in H. rewrite (stepBytes_eq b1).
  destruct (bytesStart vs p) as [q [e|]] eqn:Es; [discriminate|].
  apply bytesStart_minor in Es as (Hm & HM & HL).
  assert (Hr : in64 (lenCur q))
    by (rewrite HL; destruct Hi as [[Hr _] _]; exact Hr).
  destruct (bytesBody_split q b1 b2 p' b' d Hr H)
    as [HA | (p1 & d2 & B1 & Hcur & B2)]; [now left|].
  right. exists p1, d2. split; [exact B1|].
  split; [rewrite Hcur; exact HM|].
  rewrite stepBytes_eq. unfold bytesStart. rewrite Hcur, Hm. exact B2.
Qed.

(** ** The step function on a split input *)

Ltac local_solve :=
  repeat first
    [ apply stepValue_local | apply initMapKey_local
    | apply stepAggregate_local | apply startThen_local
    | apply stepIndef_local ].

(** The arm of [execStep] taken in the state [E]. *)
Ltac exec_arm E := unfold execStep; rewrite E; reflexivity.

Ltac local_arm H E Hb :=
  match type of H with
  | ?f (?b1 ++ ?b2) ?q = Done _ =>
      let Hf := fresh "Hf" in
      let r1 := fresh "r1" in
      let H1 := fresh "H1" in
      assert (Hf : local f) by local_solve;
      apply Hf in H; [|exact Hb];
      destruct H as (r1 & H1 & ->);
      left; eexists r1, _; split; [|reflexivity];
      rewrite <- H1; exec_arm E
  end.

Ltac resume_arm H E HR :=
  let r1 := fresh "r1" in
  let d1 := fresh "d1" in
  let H1 := fresh "H1" in
  let H2 := fresh "H2" in
  pose proof H as H2;
  apply HR in H2;
  destruct H2 as [(r1 & d1 & H1 & ->) | (H1 & H2)];
  [ left; exists r1, d1; split; [|reflexivity]; rewrite <- H1; exec_arm E
  | right; eexists _, false, _; split;
    [ rewrite <- H1; exec_arm E
    | rewrite <- H, <- H2; unfold execStep;
      match goal with
      | |- context [cur (set_buffer ?x ?q)] =>
          change (cur (set_buffer x q)) with (cur q)
      end;
      rewrite E; reflexivity ] ].

Lemma execStep_split (b1 b2 : list byte) (p : Parser) p' b' d :
  inv p -> b1 <> [] ->
  execStep vs (b1 ++ b2) p = Done (p', b', d, None) ->
  (exists r1 d1,
     execStep vs b1 p = Done (p', r1, d1, None) /\ b' = r1 ++ b2)
  \/ (exists p1 d1 d2,
        execStep vs b1 p = Done (p1, [], d1, None)
        /\ execStep vs b2 p1 = Done (p', b', d2, None)).
Proof.
  intros Hi Hb H. pose proof H as H0. unfold execStep in H. cbv zeta in H.
  unfold stepArray, stepMap, stepUint, stepNeg in H.
  destruct (Z.eqb_spec (major (cur p)) stFail) as [E|_].
  { left. exists b1, false. injection H as <- <- <- He.
    split; [|reflexivity].
    unfold execStep. rewrite E. cbv iota. rewrite He. reflexivity. }
  destruct (Z.eqb_spec (major (cur p)) stValue) as [E|_];
    [local_arm H E Hb|].
  destruct (Z.eqb_spec (major (cur p)) stLen) as [E|_].
  { resume_arm H E
      (stepLen_split p Hi ltac:(pending_eq E) b1 b2 p' b' d Hb). }
  destruct (Z.eqb_spec (major (cur p)) majorUint) as [E|_].
  { resume_arm H E
      (stepInt_split OnUint8 OnUint16 OnUint32 OnUint64 p Hi
         ltac:(pending_eq E) b1 b2 p' b' d Hb). }
  destruct (Z.eqb_spec (major (cur p)) majorNeg) as [E|_].
  { match type of H with
    | stepInt vs ?e8 ?e16 ?e32 ?e64 _ _ = _ =>
        resume_arm H E
          (stepInt_split e8 e16 e32 e64 p Hi ltac:(pending_eq E)
             b1 b2 p' b' d Hb)
    end. }
  destruct (Z.eqb_spec (major (cur p)) codeSingleFloat) as [E|_].
  { assert (Hbuf : buffer p = [])
      by (apply idle_of_inv; [assumption | pending_eq E]).
    rewrite float_state_step in H0 by auto. inv_done H0.
    right. exists p', false, false.
    split; apply float_state_step; auto. }
  destruct (Z.eqb_spec (major (cur p)) codeDoubleFloat) as [E|_].
  { assert (Hbuf : buffer p = [])
      by (apply idle_of_inv; [assumption | pending_eq E]).
    rewrite float_state_step in H0 by auto. inv_done H0.
    right. exists p', false, false.
    split; apply float_state_step; auto. }
  destruct (Z.eqb_spec (major (cur p)) majorBytes) as [E|_].
  { apply stepBytes_split in H; [|exact Hi].
    destruct H as [(r1 & d1 & H1 & ->) | (p1 & d2 & H1 & Hm & H2)].
    - left. exists r1, d1. split; [|reflexivity]. rewrite <- H1. exec_arm E.
    - right. exists p1, false, d2. split; [rewrite <- H1; exec_arm E|].
      rewrite <- H2. unfold execStep. rewrite Hm, E. reflexivity. }
  destruct (Z.eqb_spec (major (cur p)) majorText) as [E|_].
  { resume_arm H E
      (stepText_split p Hi ltac:(pending_eq E) b1 b2 p' b' d Hb). }
  do 8 (match type of H with
        | (if major (cur p) =? ?K then _ else _) = _ =>
            destruct (Z.eqb_spec (major (cur p)) K) as [E|_];
            [local_arm H E Hb|]
        end).
  destruct (Z.eqb_spec (major (cur p)) stKey) as [E|_].
  { resume_arm H E
      (stepKey_split p Hi ltac:(pending_eq E) b1 b2 p' b' d Hb). }
  destruct (Z.eqb_spec (major (cur p)) stElem) as [E|_]; [|discriminate].
  local_arm H E Hb.
Qed.

(** ** A run on a split input *)

Lemma run_split (k : nat) :
  forall p b1 b2 p',
  inv p -> b2 <> [] ->
  run vs k p (b1 ++ b2) = Done (p', None) ->
  exists p1,
    run vs k p b1 = Done (p1, None) /\ inv p1
    /\ run vs k p1 b2 = Done (p', None).
Proof.
  induction k as [|k IH]; intros p b1 b2 p' Hi Hb2 H.
  - destruct b1 as [|c b1]; [|discriminate].
    exists p. rewrite run_nil. auto.
  - destruct b1 as [|c b1]; [exists p; rewrite run_nil; auto|].
    cbn [app] in H. rewrite run_S in H.
    apply bind_done in H as ([[[q r] dn] e] & H1 & H2).
    destruct e; [discriminate|].
    change (c :: b1 ++ b2) with ((c :: b1) ++ b2) in H1.
    pose proof (execStep_inv _ _ _ _ _ Hi H1) as Hq.
    destruct (execStep_split (c :: b1) b2 p q r dn Hi
                ltac:(discriminate) H1)
      as [(r1 & d1 & G1 & ->) | (p1 & d1 & d2 & G1 & G2)].
    + destruct (IH q r1 b2 p' Hq Hb2 H2) as (p1 & R1 & Hi1 & R2).
      exists p1. rewrite (run_step vs _ _ _ _ _ _ _ _ G1).
      split; [exact R1|]. split; [exact Hi1|].
      apply (run_mono vs k (S k)); [exact R2 | lia].
    + exists p1. rewrite (run_step vs _ _ _ _ _ _ _ _ G1), run_nil.
      split; [reflexivity|].
      split; [exact (execStep_inv _ _ _ _ _ Hi G1)|].
      destruct b2 as [|c2 b2]; [now contradiction Hb2|].
      rewrite (run_step vs _ _ _ _ _ _ _ _ G2). exact H2.
Qed.

(** Feeding the fragments one after the other reaches the parser that the
    run over their concatenation reaches. *)
Lemma feed_all_of_run (frags : list (list byte)) :
  forall k F p p',
  inv p -> run vs k p (concat frags) = Done (p', None) -> (k <= F)%nat ->
  exists r,
    feed_all vs F p frags = Done r /\ ret r = None /\ st r = p'.
Proof.
  induction frags as [|f fs IH]; intros k F p p' Hi H Hle.
  - cbn [concat] in H. rewrite run_nil in H. inv_done H.
    eexists. repeat split.
  - cbn [concat] in H. cbn [feed_all].
    assert (Hsplit : exists p1,
      run vs k p f = Done (p1, None) /\ inv p1
      /\ run vs k p1 (concat fs) = Done (p', None)).
    { destruct (concat fs) as [|c0 rest] eqn:Ec.
      - rewrite app_nil_r in H. exists p'. split; [exact H|].
        split; [exact (run_inv k _ _ _ Hi H) | apply run_nil].
      - apply run_split; [exact Hi | discriminate | exact H]. }
    destruct Hsplit as (p1 & R1 & Hi1 & R2).
    destruct (feed_of_run vs F k p f _ R1 Hle) as (r1 & F1 & Hx).
    rewrite F1. cbn [bind]. injection Hx as Hst Hret. rewrite Hret, Hst.
    exact (IH k F p1 p' Hi1 R2 Hle).
Qed.

Lemma feed_all_chunks (frags : list (list byte)) (F : nat) (p : Parser)
  (r : result) :
  inv p -> feed vs F p (concat frags) = Done r -> ret r = None ->
  exists F0, forall F', (F0 <= F')%nat ->
  exists r',
    feed_all vs F' p frags = Done r' /\ ret r' = None /\ st r' = st r.
Proof.
  intros Hi H Hret.
  destruct (run_of_feed vs F p _ r H) as [k Hk]. rewrite Hret in Hk.
  exists k. intros F' Hle. exact (feed_all_of_run frags k F' p _ Hi Hk Hle).
Qed.

End Steps.

End CborlChunks.
(** * Further properties of the binary decoder *)

Module CborlExtras.
Import Cborl CborlProofs CborlChunks.

Section Extras.

Variable vs : Visitor.

(** ** Fragments *)

(** X10. Chunk invariance of the binary decoder: when feeding a byte
    sequence to a new parser in one call returns without an error, feeding
    it as any list of fragments (empty ones included) returns without an
    error as well and leaves the parser in the very same state, with the
    same events delivered in the same order.  The loops of the fragment
    calls finish within any fuel above a bound. *)
Theorem binary_chunk_invariance (frags : list (list byte)) (F : nat)
  (r : result) :
  feed vs F NewParser (concat frags) = Done r -> ret r = None ->
  exists F0, forall F', (F0 <= F')%nat ->
  exists r',
    feed_all vs F' NewParser frags = Done r' /\ ret r' = None
    /\ st r' = st r /\ trace (st r') = trace (st r).
Proof.
  intros H Hret.
  destruct (feed_all_chunks vs frags F NewParser r inv_NewParser H Hret)
    as [F0 HF].
  exists F0. intros F' Hle. destruct (HF F' Hle) as (r' & H1 & H2 & H3).
  exists r'. rewrite H3. auto.
Qed.

(** X11. The carry buffer between two calls: a new parser satisfies the
    invariant, and a call of feed that returns without an error keeps it.
    Under the invariant the pending lengths are in the range of [int64] and
    the carry buffer is empty unless the current state is one that collects
    a field of known size (a 2, 4 or 8 byte length or integer, or the bytes
    of a text string or key) and fewer bytes than that size have been
    saved. *)
Theorem carry_buffer_invariant :
  inv NewParser
  /\ forall (F : nat) (p : Parser) (b : list byte) (r : result),
     inv p -> feed vs F p b = Done r -> ret r = None ->
     inv (st r)
     /\ (buffer (st r) = [] \/
         exists count,
           pending (st r) = Some count /\ len (buffer (st r)) < count).
Proof.
  split; [exact inv_NewParser|].
  intros F p b r Hi H Hret.
  destruct (run_of_feed vs F p b r H) as [k Hk]. rewrite Hret in Hk.
  pose proof (run_inv vs k _ _ _ Hi Hk) as Hinv.
  split; [exact Hinv | exact (proj2 Hinv)].
Qed.

(** ** Single steps *)

Lemma execStep_value (b : list byte) (p : Parser) :
  major (cur p) = stValue -> execStep vs b p = stepValue vs b p.
Proof. intros E. unfold execStep. rewrite E. reflexivity. Qed.

Lemma execStep_uint (b : list byte) (p : Parser) :
  major (cur p) = majorUint -> execStep vs b p = stepUint vs b p.
Proof. intros E. unfold execStep. rewrite E. reflexivity. Qed.

Lemma execStep_neg (b : list byte) (p : Parser) :
  major (cur p) = majorNeg -> execStep vs b p = stepNeg vs b p.
Proof. intros E. unfold execStep. rewrite E. reflexivity. Qed.

Lemma execStep_text (b : list byte) (p : Parser) :
  major (cur p) = majorText -> execStep vs b p = stepText vs b p.
Proof. intros E. unfold execStep. rewrite E. reflexivity. Qed.

Lemma execStep_bytes (b : list byte) (p : Parser) :
  major (cur p) = majorBytes -> execStep vs b p = stepBytes vs b p.
Proof. intros E. unfold execStep. rewrite E. reflexivity. Qed.

Lemma execStep_len (b : list byte) (p : Parser) :
  major (cur p) = stLen ->
  execStep vs b p = ('(p, b) <- stepLen b p ;; Done (p, b, false, None)).
Proof. intros E. unfold execStep. rewrite E. reflexivity. Qed.

Lemma head_small_uint (c : byte) :
  byteZ c < 24 -> Z.land (byteZ c) majorMask = majorUint.
Proof.
  destruct c; vm_compute; intros H; first [reflexivity | discriminate H].
Qed.

Lemma head_small_neg (c : byte) :
  32 <= byteZ c < 56 ->
  Z.land (byteZ c) majorMask = majorNeg
  /\ Z.land (byteZ c) minorMask = byteZ c - 32
  /\ toSigned 8 (lnot 8 (byteZ c - 32)) = -1 - (byteZ c - 32).
Proof.
  intros [H1 H2]. destruct c; vm_compute in H1, H2;
    first [discriminate H2 | exfalso; apply H1; reflexivity
          | vm_compute; repeat split].
Qed.

Lemma stepValue_small_uint (c : byte) (b : list byte) (p : Parser) :
  byteZ c < 24 ->
  stepValue vs (c :: b) p = Done (simpleValue vs (OnUint8 (byteZ c)) b p).
Proof.
  intros H. unfold stepValue. cbv zeta. rewrite (head_small_uint c H).
  change (majorUint =? majorUint) with true. cbv iota.
  destruct (Z.ltb_spec (byteZ c) len8b) as [_|H']; [reflexivity|].
  unfold len8b in H'. lia.
Qed.

Lemma stepValue_small_neg (c : byte) (b : list byte) (p : Parser) :
  32 <= byteZ c < 56 ->
  stepValue vs (c :: b) p
  = Done (simpleValue vs (OnInt8 (-1 - (byteZ c - 32))) b p).
Proof.
  intros H. destruct (head_small_neg c H) as (H1 & H2 & H3).
  unfold stepValue. cbv zeta. rewrite H1, H2, H3.
  change (majorNeg =? majorUint) with false.
  change (majorNeg =? majorNeg) with true. cbv iota.
  destruct (Z.ltb_spec (byteZ c - 32) len8b) as [_|H']; [reflexivity|].
  unfold len8b in H'. lia.
Qed.

Lemma getUint_fresh (w : Z) (payload rest : list byte) (p : Parser) :
  buffer p = [] -> len payload = w ->
  getUint w (payload ++ rest) p = Done (p, rest, true, bigEndian payload).
Proof.
  intros Hb Hl. pose proof (len_nonneg payload) as H0.
  pose proof (len_nonneg rest) as H1.
  unfold getUint, collect. rewrite Hb. unfold collectFresh.
  rewrite len_app.
  destruct (Z.leb_spec w (len payload + len rest)) as [_|?]; [|lia].
  destruct (Z.ltb_spec w 0) as [?|_]; [lia|].
  replace (Z.to_nat w) with (length payload) by (unfold len in Hl; lia).
  rewrite skipn_app, firstn_app, Nat.sub_diag, skipn_all, firstn_all.
  cbn [skipn firstn app]. rewrite app_nil_r. reflexivity.
Qed.

(** ** Integers *)

(** X12. The integers held in the leading byte itself: a byte below 24 fed
    to a new parser is delivered as the uint8 event carrying that byte, and
    a byte [0x20 + m] with [m] below 24 as the int8 event carrying
    [-1 - m]; the call returns what the visitor returned for the event and
    the parser is back in its initial state. *)
Theorem immediate_integers (c : byte) (n : nat) :
  (byteZ c < 24 ->
   exists r,
     feed vs (1 + n) NewParser [c] = Done r
     /\ st r = set_trace [OnUint8 (byteZ c)] NewParser
     /\ ret r = vs [] (OnUint8 (byteZ c)))
  /\ (32 <= byteZ c < 56 ->
      exists r,
        feed vs (1 + n) NewParser [c] = Done r
        /\ st r = set_trace [OnInt8 (-1 - (byteZ c - 32))] NewParser
        /\ ret r = vs [] (OnInt8 (-1 - (byteZ c - 32)))).
Proof.
  assert (Hfeed : forall ev,
    stepValue vs [c] NewParser = Done (simpleValue vs ev [] NewParser) ->
    exists r,
      feed vs (1 + n) NewParser [c] = Done r
      /\ st r = set_trace [ev] NewParser /\ ret r = vs [] ev).
  { intros ev H. cbn [Nat.add]. rewrite feed_S. unfold feedUntil.
    rewrite feedUntil_loop_S, execStep_value by reflexivity.
    rewrite H. cbn [bind simpleValue emit onValue]. cbn.
    destruct (vs [] ev); [eexists; repeat split|].
    destruct n; eexists; repeat split. }
  split; intros H; apply Hfeed.
  - now apply stepValue_small_uint.
  - now apply stepValue_small_neg.
Qed.

Lemma stepInt_len8 ev8 ev16 ev32 ev64 (c : byte) (rest : list byte)
  (p : Parser) :
  minor (cur p) = len8b ->
  stepInt vs ev8 ev16 ev32 ev64 (c :: rest) p =
  match vs (trace p) (ev8 (byteZ c)) with
  | Some e =>
      Done (set_trace (trace p ++ [ev8 (byteZ c)]) p, rest, true, Some e)
  | None =>
      let '(q, d) := popState (set_trace (trace p ++ [ev8 (byteZ c)]) p) in
      Done (q, rest, d, None)
  end.
Proof.
  intros Hm. unfold stepInt. cbv zeta. rewrite Hm.
  change (len8b =? len8b) with true. cbv iota. unfold emit.
  cbn [bind]. destruct (vs (trace p) (ev8 (byteZ c))); reflexivity.
Qed.

Lemma stepInt_wide ev8 ev16 ev32 ev64 (payload rest : list byte)
  (p : Parser) (w : Z) :
  width_of (minor (cur p)) = Some w -> buffer p = [] -> len payload = w ->
  exists ev,
    (minor (cur p) = len16b /\ ev = ev16 (bigEndian payload)
     \/ minor (cur p) = len32b /\ ev = ev32 (bigEndian payload)
     \/ minor (cur p) = len64b /\ ev = ev64 (bigEndian payload))
    /\ stepInt vs ev8 ev16 ev32 ev64 (payload ++ rest) p =
       match vs (trace p) ev with
       | Some e => Done (set_trace (trace p ++ [ev]) p, rest, true, Some e)
       | None =>
           let '(q, d) := popState (set_trace (trace p ++ [ev]) p) in
           Done (q, rest, d, None)
       end.
Proof.
  intros Hw Hb Hl. unfold stepInt. cbv zeta.
  destruct (width_of_cases (minor (cur p)))
    as [[E W]|[[E W]|[[E W]|(_ & _ & _ & W)]]];
    rewrite W in Hw; [| | |discriminate]; injection Hw as <-; rewrite E.
  - exists (ev16 (bigEndian payload)). split; [auto|].
    change (len16b =? len8b) with false.
    change (len16b =? len16b) with true. cbv iota.
    rewrite getUint_fresh by assumption. cbn [bind]. unfold emit.
    destruct (vs (trace p) _); reflexivity.
  - exists (ev32 (bigEndian payload)). split; [auto|].
    change (len32b =? len8b) with false.
    change (len32b =? len16b) with false.
    change (len32b =? len32b) with true. cbv iota.
    rewrite getUint_fresh by assumption. cbn [bind]. unfold emit.
    destruct (vs (trace p) _); reflexivity.
  - exists (ev64 (bigEndian payload)). split; [auto|].
    change (len64b =? len8b) with false.
    change (len64b =? len16b) with false.
    change (len64b =? len32b) with false.
    change (len64b =? len64b) with true. cbv iota.
    rewrite getUint_fresh by assumption. cbn [bind]. unfold emit.
    destruct (vs (trace p) _); reflexivity.
Qed.

(** A value that takes two steps from a new parser: the leading byte, then
    the payload. *)
Lemma two_step_run (hd : byte) (payload : list byte) (p1 q0 : Parser)
  (ev : event) (n : nat) :
  execStep vs (hd :: payload) NewParser = Done (p1, payload, false, None) ->
  payload <> [] ->
  execStep vs payload p1 =
  match vs [] ev with
  | Some e => Done (set_trace [ev] p1, [], true, Some e)
  | None => Done (set_trace [ev] q0, [], true, None)
  end ->
  exists r,
    feed vs (2 + n) NewParser (hd :: payload) = Done r
    /\ trace (st r) = [ev] /\ ret r = vs [] ev
    /\ (ret r = None -> st r = set_trace [ev] q0).
Proof.
  intros H1 Hne H2.
  assert (Hrun : exists q,
    run vs 2 NewParser (hd :: payload) = Done (q, vs [] ev)
    /\ trace q = [ev] /\ (vs [] ev = None -> q = set_trace [ev] q0)).
  { rewrite (run_step vs _ _ _ _ _ _ _ _ H1).
    destruct payload as [|c0 pl]; [now contradiction Hne|].
    destruct (vs [] ev) eqn:E;
      rewrite (run_step vs _ _ _ _ _ _ _ _ H2); rewrite ?run_nil;
      eexists; (split; [reflexivity|]); split; try reflexivity;
      discriminate. }
  destruct Hrun as (q & Hrun & Ht & Hq).
  destruct (feed_of_run vs (2 + n) 2 _ _ _ Hrun ltac:(lia)) as (r & Hr & Hx).
  exists r. injection Hx as <- Hret. rewrite Hret. auto.
Qed.

Lemma two_step_value (hd : byte) (payload : list byte) (p1 : Parser)
  (ev : event) (n : nat) :
  execStep vs (hd :: payload) NewParser = Done (p1, payload, false, None) ->
  payload <> [] ->
  execStep vs payload p1 =
  match vs [] ev with
  | Some e => Done (set_trace [ev] p1, [], true, Some e)
  | None => Done (set_trace [ev] NewParser, [], true, None)
  end ->
  exists r,
    feed vs (2 + n) NewParser (hd :: payload) = Done r
    /\ trace (st r) = [ev] /\ ret r = vs [] ev
    /\ (ret r = None -> st r = set_trace [ev] NewParser).
Proof. apply two_step_run. Qed.

Lemma payload_nonempty (payload : list byte) (w : Z) :
  len payload = w -> 0 < w -> payload <> [].
Proof. intros Hl Hw E. subst payload. rewrite len_nil in Hl. lia. Qed.

(** The second step of an integer whose payload follows the leading byte. *)
Lemma wide_second_step ev8 ev16 ev32 ev64 (mj : Z) (payload : list byte)
  (w : Z) (mn : Z) :
  mj = majorUint \/ mj = majorNeg ->
  (mj = majorUint -> ev8 = OnUint8 /\ ev16 = OnUint16 /\ ev32 = OnUint32
                     /\ ev64 = OnUint64) ->
  (mj = majorNeg ->
   ev8 = (fun v => OnInt8 (toSigned 8 (lnot 8 v)))
   /\ ev16 = (fun v => OnInt16 (toSigned 16 (lnot 16 v)))
   /\ ev32 = (fun v => OnInt32 (toSigned 32 (lnot 32 v)))
   /\ ev64 = (fun v => OnInt64 (toSigned 64 (lnot 64 v)))) ->
  width_of mn = Some w -> len payload = w ->
  exists ev,
    (mn = len16b /\ ev = ev16 (bigEndian payload)
     \/ mn = len32b /\ ev = ev32 (bigEndian payload)
     \/ mn = len64b /\ ev = ev64 (bigEndian payload))
    /\ execStep vs payload (push (mkState mj mn) NewParser) =
       match vs [] ev with
       | Some e =>
           Done (set_trace [ev] (push (mkState mj mn) NewParser), [], true,
                 Some e)
       | None => Done (set_trace [ev] NewParser, [], true, None)
       end.
Proof.
  intros Hmj HU HN Hw Hl.
  set (p1 := push (mkState mj mn) NewParser).
  destruct (stepInt_wide ev8 ev16 ev32 ev64 payload [] p1 w Hw eq_refl Hl)
    as (ev & Hev & Hstep).
  exists ev. split; [exact Hev|].
  rewrite app_nil_r in Hstep.
  assert (Hexec : execStep vs payload p1
                  = stepInt vs ev8 ev16 ev32 ev64 payload p1).
  { destruct Hmj as [-> | ->].
    - destruct (HU eq_refl) as (-> & -> & -> & ->).
      now rewrite execStep_uint.
    - destruct (HN eq_refl) as (-> & -> & -> & ->).
      now rewrite execStep_neg. }
  rewrite Hexec, Hstep. cbn [trace p1 push set_state NewParser app].
  destruct (vs [] ev); [reflexivity|].
  destruct Hmj as [-> | ->]; reflexivity.
Qed.

Lemma len_one (payload : list byte) :
  len payload = 1 -> exists c, payload = [c].
Proof.
  destruct payload as [|c [|c' l]]; unfold len; cbn [length]; intros H;
    [lia | now exists c | lia].
Qed.

(** X13. Unsigned integers with a payload: the leading bytes 0x18, 0x19,
    0x1A and 0x1B followed by 1, 2, 4 and 8 payload bytes are delivered as
    the uint8, uint16, uint32 and uint64 event carrying the big-endian
    value of the payload, whatever the payload is; the call returns what
    the visitor returned, and after an accepted event the parser is back in
    its initial state. *)
Theorem unsigned_integers (payload : list byte) (n : nat) :
  forall hd w ev,
  In (hd, w, ev)
     [(x18, 1, OnUint8); (x19, 2, OnUint16); (x1a, 4, OnUint32);
      (x1b, 8, OnUint64)] ->
  len payload = w ->
  0 <= bigEndian payload < 256 ^ w
  /\ exists r,
       feed vs (2 + n) NewParser (hd :: payload) = Done r
       /\ trace (st r) = [ev (bigEndian payload)]
       /\ ret r = vs [] (ev (bigEndian payload))
       /\ (ret r = None ->
           st r = set_trace [ev (bigEndian payload)] NewParser).
Proof.
  intros hd w ev Hin Hl.
  split; [rewrite <- Hl; apply bigEndian_range|].
  cbn [In] in Hin.
  destruct Hin as [E|[E|[E|[E|[]]]]]; injection E as <- <- <-.
  - destruct (len_one payload Hl) as [c ->].
    apply (two_step_value x18 [c] (push (mkState majorUint len8b) NewParser));
      [reflexivity | discriminate|].
    rewrite execStep_uint by reflexivity. unfold stepUint.
    rewrite stepInt_len8 by reflexivity.
    change (bigEndian [c]) with (byteZ c).
    cbn [trace push set_state NewParser app].
    destruct (vs [] (OnUint8 (byteZ c))); reflexivity.
  - destruct (wide_second_step OnUint8 OnUint16 OnUint32 OnUint64
                majorUint payload 2 len16b) as (ev & Hev & Hstep);
      auto; try discriminate.
    destruct Hev as [[_ ->]|[[E _]|[E _]]]; try discriminate E.
    apply (two_step_value x19 payload _ _ n eq_refl
             (payload_nonempty _ _ Hl ltac:(lia)) Hstep).
  - destruct (wide_second_step OnUint8 OnUint16 OnUint32 OnUint64
                majorUint payload 4 len32b) as (ev & Hev & Hstep);
      auto; try discriminate.
    destruct Hev as [[E _]|[[_ ->]|[E _]]]; try discriminate E.
    apply (two_step_value x1a payload _ _ n eq_refl
             (payload_nonempty _ _ Hl ltac:(lia)) Hstep).
  - destruct (wide_second_step OnUint8 OnUint16 OnUint32 OnUint64
                majorUint payload 8 len64b) as (ev & Hev & Hstep);
      auto; try discriminate.
    destruct Hev as [[E _]|[[E _]|[_ ->]]]; try discriminate E.
    apply (two_step_value x1b payload _ _ n eq_refl
             (payload_nonempty _ _ Hl ltac:(lia)) Hstep).
Qed.

Lemma lnot_sub (w v : Z) :
  0 < w -> 0 <= v < 2 ^ w -> lnot w v = 2 ^ w - 1 - v.
Proof.
  intros Hw Hv. unfold lnot.
  replace (2 ^ w - 1) with (Z.ones w)
    by (rewrite Z.ones_equiv; unfold Z.pred; lia).
  assert (Hlog : Z.log2 v < w).
  { destruct (Z.eq_dec v 0) as [->|Hn]; [cbn; lia|].
    apply Z.log2_lt_pow2; lia. }
  rewrite <- Z.ldiff_ones_l_low by lia.
  symmetry. apply Z.sub_nocarry_ldiff.
  apply Z.ldiff_ones_r_low; lia.
Qed.

(** What [int8(^v)], [int16(^v)], ... deliver for an unsigned [v] of [w]
    bits. *)
Lemma neg_decoded (w v : Z) :
  0 < w -> 0 <= v < 2 ^ w ->
  toSigned w (lnot w v)
  = if v <? 2 ^ (w - 1) then -1 - v else 2 ^ w - 1 - v.
Proof.
  intros Hw Hv. rewrite lnot_sub by assumption. unfold toSigned.
  assert (Hp : 2 ^ w = 2 * 2 ^ (w - 1)).
  { replace w with (1 + (w - 1)) at 1 by lia.
    rewrite Z.pow_add_r by lia. reflexivity. }
  destruct (Z.ltb_spec v (2 ^ (w - 1)));
    destruct (Z.leb_spec (2 ^ (w - 1)) (2 ^ w - 1 - v)); lia.
Qed.

(** X14. Negative integers with a payload: the leading bytes 0x38, 0x39,
    0x3A and 0x3B followed by 1, 2, 4 and 8 payload bytes of big-endian
    value [v] are delivered as the int8, int16, int32 and int64 event.
    The event carries [-1 - v] when [v] is below half the range of the
    payload; for a larger [v] the conversion wraps around and the event
    carries the non-negative number [2^bits - 1 - v]. *)
Theorem negative_integers (payload : list byte) (n : nat) :
  forall hd w ev,
  In (hd, w, ev)
     [(x38, 1, OnInt8); (x39, 2, OnInt16); (x3a, 4, OnInt32);
      (x3b, 8, OnInt64)] ->
  len payload = w ->
  let v := bigEndian payload in
  let d := if v <? 2 ^ (8 * w - 1) then -1 - v else 2 ^ (8 * w) - 1 - v in
  exists r,
    feed vs (2 + n) NewParser (hd :: payload) = Done r
    /\ trace (st r) = [ev d]
    /\ ret r = vs [] (ev d)
    /\ (ret r = None -> st r = set_trace [ev d] NewParser).
Proof.
  intros hd w ev Hin Hl v d.
  assert (Hv : 0 <= v < 256 ^ w) by (rewrite <- Hl; apply bigEndian_range).
  assert (Hd : 0 < w -> d = toSigned (8 * w) (lnot (8 * w) v)).
  { intros Hw. rewrite neg_decoded; [reflexivity | lia |].
    replace (2 ^ (8 * w)) with (256 ^ w); [exact Hv|].
    change 256 with (2 ^ 8). rewrite <- Z.pow_mul_r by lia. reflexivity. }
  cbn [In] in Hin.
  destruct Hin as [E|[E|[E|[E|[]]]]]; injection E as <- <- <-;
    rewrite (Hd ltac:(lia)); clear Hd; subst v.
  - destruct (len_one payload Hl) as [c ->].
    apply (two_step_value x38 [c] (push (mkState majorNeg len8b) NewParser));
      [reflexivity | discriminate|].
    rewrite execStep_neg by reflexivity. unfold stepNeg.
    rewrite stepInt_len8 by reflexivity.
    change (bigEndian [c]) with (byteZ c).
    cbn [trace push set_state NewParser app].
    destruct (vs [] _); reflexivity.
  - destruct (wide_second_step _ _ _ _ majorNeg payload 2 len16b
                (or_intror eq_refl) ltac:(discriminate)
                (fun _ => conj eq_refl (conj eq_refl (conj eq_refl eq_refl)))
                eq_refl Hl) as (ev & Hev & Hstep).
    destruct Hev as [[_ ->]|[[E _]|[E _]]]; try discriminate E.
    apply (two_step_value x39 payload _ _ n eq_refl
             (payload_nonempty _ _ Hl ltac:(lia)) Hstep).
  - destruct (wide_second_step _ _ _ _ majorNeg payload 4 len32b
                (or_intror eq_refl) ltac:(discriminate)
                (fun _ => conj eq_refl (conj eq_refl (conj eq_refl eq_refl)))
                eq_refl Hl) as (ev & Hev & Hstep).
    destruct Hev as [[E _]|[[_ ->]|[E _]]]; try discriminate E.
    apply (two_step_value x3a payload _ _ n eq_refl
             (payload_nonempty _ _ Hl ltac:(lia)) Hstep).
  - destruct (wide_second_step _ _ _ _ majorNeg payload 8 len64b
                (or_intror eq_refl) ltac:(discriminate)
                (fun _ => conj eq_refl (conj eq_refl (conj eq_refl eq_refl)))
                eq_refl Hl) as (ev & Hev & Hstep).
    destruct Hev as [[E _]|[[E _]|[_ ->]]]; try discriminate E.
    apply (two_step_value x3b payload _ _ n eq_refl
             (payload_nonempty _ _ Hl ltac:(lia)) Hstep).
Qed.

(** ** Strings *)

Lemma head_text (c : byte) :
  96 <= byteZ c < 120 ->
  Z.land (byteZ c) majorMask = majorText
  /\ Z.land (byteZ c) minorMask = byteZ c - 96.
Proof.
  intros [H1 H2]. destruct c; vm_compute in H1, H2;
    first [discriminate H2 | exfalso; apply H1; reflexivity
          | vm_compute; repeat split].
Qed.

Lemma head_bytes (c : byte) :
  64 <= byteZ c < 88 ->
  Z.land (byteZ c) majorMask = majorBytes
  /\ Z.land (byteZ c) minorMask = byteZ c - 64.
Proof.
  intros [H1 H2]. destruct c; vm_compute in H1, H2;
    first [discriminate H2 | exfalso; apply H1; reflexivity
          | vm_compute; repeat split].
Qed.

Lemma collect_fresh_all (s : list byte) (p : Parser) :
  buffer p = [] -> collect s (len s) p = Done (p, [], Some s).
Proof.
  intros Hb. pose proof (len_nonneg s) as H0.
  unfold collect. rewrite Hb. unfold collectFresh.
  rewrite Z.leb_refl.
  destruct (Z.ltb_spec (len s) 0) as [?|_]; [lia|].
  replace (Z.to_nat (len s)) with (length s) by (unfold len; lia).
  now rewrite skipn_all, firstn_all.
Qed.

(** X15. A text string of 1 to 23 bytes: the leading byte [0x60 + len]
    followed by the bytes of the string is delivered as one string
    reference event carrying exactly those bytes, whatever they are.
    After an accepted event the parser is back in the value state, but the
    length pushed for the string is still the current pending length:
    [stepText] does not pop the length stack. *)
Theorem short_text_string (c : byte) (s : list byte) (n : nat) :
  byteZ c = 96 + len s -> 0 < len s < 24 ->
  exists r,
    feed vs (2 + n) NewParser (c :: s) = Done r
    /\ trace (st r) = [OnStringRef s]
    /\ ret r = vs [] (OnStringRef s)
    /\ (ret r = None ->
        st r = set_trace [OnStringRef s] (lpush (len s) NewParser)).
Proof.
  intros Hc Hl.
  destruct (head_text c ltac:(lia)) as [Hmj Hmn].
  assert (Hmn' : Z.land (byteZ c) minorMask = len s) by lia.
  apply (two_step_run c s
           (lpush (len s) (push (mkState majorText stStart) NewParser))).
  - rewrite execStep_value by reflexivity. unfold stepValue. cbv zeta.
    rewrite Hmj, Hmn'.
    change (majorText =? majorUint) with false.
    change (majorText =? majorNeg) with false.
    change ((majorText =? majorBytes) || (majorText =? majorText)) with true.
    cbv iota. unfold initByteSeq.
    destruct (Z.eqb_spec (len s) lenIndef) as [E|_];
      [unfold lenIndef in E; lia|].
    destruct (Z.ltb_spec (len s) len8b) as [_|E];
      [reflexivity | unfold len8b in E; lia].
  - apply payload_nonempty with (w := len s); [reflexivity | lia].
  - rewrite execStep_text by reflexivity. unfold stepText.
    change (lenCur (lpush (len s) (push (mkState majorText stStart)
                                     NewParser))) with (len s).
    rewrite collect_fresh_all by reflexivity. cbn [bind]. unfold emit.
    cbn [trace lpush push set_length set_state NewParser app].
    destruct (vs [] (OnStringRef s)); reflexivity.
Qed.

End Extras.

Lemma visitBytes_accept_all (l : list byte) :
  forall p,
  visitBytes accept_all l p
  = (set_trace (trace p ++ map OnByte l) p, None).
Proof.
  induction l as [|c l IH]; intros p; cbn [visitBytes map].
  - rewrite app_nil_r. now destruct p.
  - unfold emit, accept_all at 1. rewrite IH.
    cbn [trace set_trace]. rewrite <- app_assoc. reflexivity.
Qed.

(** X16. A byte string of 1 to 23 bytes, with a visitor that accepts every
    event: the leading byte [0x40 + len] followed by the bytes is delivered
    as an array of bytes, that is the array start event with the length and
    the byte element type, one byte event per byte in order, and the array
    end event; the parser is then back in its initial state. *)
Theorem short_byte_string (c : byte) (s : list byte) (n : nat) :
  byteZ c = 64 + len s -> 0 < len s < 24 ->
  exists r,
    feed accept_all (2 + n) NewParser (c :: s) = Done r
    /\ ret r = None
    /\ st r = set_trace
                (OnArrayStart (len s) ByteType :: map OnByte s
                 ++ [OnArrayFinished]) NewParser.
Proof.
  intros Hc Hl.
  destruct (head_bytes c ltac:(lia)) as [Hmj Hmn].
  assert (Hmn' : Z.land (byteZ c) minorMask = len s) by lia.
  set (p1 := lpush (len s) (push (mkState majorBytes stStart) NewParser)).
  assert (H1 : execStep accept_all (c :: s) NewParser
               = Done (p1, s, false, None)).
  { rewrite (execStep_value accept_all) by reflexivity. unfold stepValue. cbv zeta.
    rewrite Hmj, Hmn'.
    change (majorBytes =? majorUint) with false.
    change (majorBytes =? majorNeg) with false.
    change ((majorBytes =? majorBytes) || (majorBytes =? majorText))
      with true.
    cbv iota. unfold initByteSeq.
    destruct (Z.eqb_spec (len s) lenIndef) as [E|_];
      [unfold lenIndef in E; lia|].
    destruct (Z.ltb_spec (len s) len8b) as [_|E];
      [reflexivity | unfold len8b in E; lia]. }
  assert (H2 : execStep accept_all s p1
               = Done (set_trace
                         (OnArrayStart (len s) ByteType :: map OnByte s
                          ++ [OnArrayFinished]) NewParser,
                       [], true, None)).
  { rewrite (execStep_bytes accept_all) by reflexivity. rewrite stepBytes_eq.
    unfold bytesStart, emit, accept_all at 1.
    change (minor (cur p1) =? stStart) with true. cbv iota.
    unfold bytesBody. cbv zeta.
    change (lenCur (set_cur _ _)) with (len s).
    rewrite Z.leb_refl. cbv iota.
    destruct (Z.ltb_spec (len s) 0) as [?|_]; [lia|].
    replace (Z.to_nat (len s)) with (length s) by (unfold len; lia).
    rewrite firstn_all, skipn_all, visitBytes_accept_all.
    unfold emit, accept_all at 1. reflexivity. }
  assert (Hne : s <> [])
    by (apply payload_nonempty with (w := len s); [reflexivity | lia]).
  assert (Hrun : run accept_all 2 NewParser (c :: s)
                 = Done (set_trace
                           (OnArrayStart (len s) ByteType :: map OnByte s
                            ++ [OnArrayFinished]) NewParser, None)).
  { rewrite (run_step accept_all _ _ _ _ _ _ _ _ H1).
    destruct s as [|c0 s0]; [now contradiction Hne|].
    rewrite (run_step accept_all _ _ _ _ _ _ _ _ H2). apply run_nil. }
  destruct (feed_of_run accept_all (2 + n) 2 _ _ _ Hrun ltac:(lia))
    as (r & Hr & Hx).
  exists r. injection Hx as Hst Hret. auto.
Qed.


Section Rejects.

Variable vs : Visitor.

(** ** Leading bytes that are not decoded *)

Ltac absurd_byte H :=
  exfalso; vm_compute in H; intuition (discriminate || congruence).

(** X17. Leading bytes that a new parser rejects: a tag (major type 6) and
    the half-precision float 0xF9 with the unsupported-feature error, the
    indefinite-length byte and text strings 0x5F and 0x7F with their own
    error, and the simple values that are neither booleans, null,
    undefined nor floats (break included) with the invalid-code error.
    The call returns the error at once, whatever follows the byte; no
    event is delivered and the parser is unchanged. *)
Theorem rejected_leading_bytes (c : byte) (rest : list byte) (n : nat) :
  let reject e :=
    feed vs (1 + n) NewParser (c :: rest)
    = Done (mkResult NewParser (c :: rest) (Some e)) in
  (192 <= byteZ c < 224 -> reject errTODO)
  /\ (byteZ c = 95 \/ byteZ c = 127 -> reject errIndefByteSeq)
  /\ (byteZ c = 249 -> reject errTODO)
  /\ (224 <= byteZ c < 244 \/ byteZ c = 248 \/ 252 <= byteZ c ->
      reject errInvalidCode).
Proof.
  intros reject.
  assert (Hfeed : forall x e,
    stepValue vs (c :: rest) NewParser = Done (NewParser, x, false, Some e)
    -> reject e).
  { intros x e H. unfold reject. cbn [Nat.add]. rewrite feed_S.
    unfold feedUntil.
    rewrite feedUntil_loop_S, (execStep_value vs) by reflexivity.
    rewrite H. cbn [bind is_some]. rewrite !orb_true_r. reflexivity. }
  clearbody reject.
  repeat split; intros H; destruct c;
    first [ eapply Hfeed; reflexivity | absurd_byte H ].
Qed.

(** ** Reserved length codes *)

Lemma stuck_loop (p : Parser) :
  (forall b, execStep vs b p = Done (p, b, false, None)) ->
  forall k b, b <> [] -> feedUntil_loop vs k b p = OutOfFuel.
Proof.
  intros H k. induction k as [|k IH]; intros b Hb; [reflexivity|].
  rewrite feedUntil_loop_S, H. cbn [bind is_some].
  destruct (len b =? 0) eqn:E; [apply len_zero in E; contradiction|].
  cbn [orb]. now apply IH.
Qed.

(** X18. The length codes 28, 29 and 30, which the encoding reserves, and
    the code 31 on an integer: when a new parser is fed such a leading byte
    (of an integer, string, array or map) together with at least one more
    byte, the loop of feed never ends.  After the leading byte the parser
    is in a state whose step consumes nothing and changes nothing, so the
    call runs out of any amount of fuel. *)
Theorem reserved_length_codes_never_return (c : byte) (rest : list byte)
  (F : nat) :
  byteZ c < 192 -> 28 <= Z.land (byteZ c) minorMask ->
  (Z.land (byteZ c) minorMask = 31 -> byteZ c < 64) ->
  rest <> [] ->
  feed vs F NewParser (c :: rest) = OutOfFuel.
Proof.
  intros H1 H2 H3 Hne.
  assert (Hstep : exists p1,
    execStep vs (c :: rest) NewParser = Done (p1, rest, false, None)
    /\ forall b, execStep vs b p1 = Done (p1, b, false, None)).
  { destruct c;
      first [ eexists; split; [reflexivity | intros b; reflexivity]
            | exfalso; vm_compute in H1, H2, H3;
              first [ discriminate H1 | apply H2; reflexivity
                    | specialize (H3 eq_refl); discriminate H3 ] ]. }
  destruct Hstep as (p1 & S1 & S2).
  destruct F as [|F]; [reflexivity|].
  rewrite feed_S. unfold feedUntil. rewrite feedUntil_loop_S, S1.
  cbn [bind is_some].
  destruct (len rest =? 0) eqn:E; [apply len_zero in E; contradiction|].
  cbn [orb]. rewrite (stuck_loop p1 S2 F rest Hne). reflexivity.
Qed.

(** X19. [numBytes] and the payload sizes of the decoder: for a leading
    byte with the length code 24 it gives 1, and for the codes 25, 26 and
    27 it gives the 2, 4 and 8 bytes that the steps for lengths and
    integers collect; for a code below 24 the shift count wraps around and
    it gives 0. *)
Theorem numBytes_is_payload_size (c : byte) :
  let m := Z.land (byteZ c) minorMask in
  (m = len8b -> numBytes (byteZ c) = 1)
  /\ (forall w, width_of m = Some w -> numBytes (byteZ c) = w)
  /\ (m < len8b -> numBytes (byteZ c) = 0).
Proof.
  destruct c; vm_compute; repeat split; intros;
    first [ reflexivity | discriminate | congruence ].
Qed.

End Rejects.

(** ** Arrays *)

Lemma head_array (c : byte) :
  128 <= byteZ c < 152 ->
  Z.land (byteZ c) majorMask = majorArr
  /\ Z.land (byteZ c) minorMask = byteZ c - 128.
Proof.
  intros [H1 H2]. destruct c; vm_compute in H1, H2;
    first [discriminate H2 | exfalso; apply H1; reflexivity
          | vm_compute; repeat split].
Qed.

Lemma after_elements_nil (p : Parser) : after_elements [] p = p.
Proof.
  unfold after_elements, uint8_events. cbn [map]. rewrite len_nil.
  destruct p as [e s [ls lc] bf tr].
  unfold set_lenCur, set_length, set_trace, lenCur. cbn.
  now rewrite app_nil_r, Z.sub_0_r.
Qed.

Lemma after_elements_cons (c : byte) (l : list byte) (p : Parser) :
  after_elements l
    (set_lenCur (lenCur p - 1)
       (set_trace (trace p ++ [OnUint8 (byteZ c)]) p))
  = after_elements (c :: l) p.
Proof.
  unfold after_elements, uint8_events. cbn [map].
  replace (len (c :: l)) with (1 + len l)
    by (unfold len; cbn [length]; lia).
  destruct p as [e s [ls lc] bf tr].
  unfold set_lenCur, set_length, set_trace, lenCur.
  cbn [trace length_ lstack lcurrent err pstate buffer].
  rewrite <- app_assoc. cbn [app].
  do 2 f_equal. lia.
Qed.

(** One element of a definite-length array whose count is not used up. *)
Lemma array_element (c : byte) (b : list byte) (p : Parser) :
  major (cur p) = majorArr -> 0 < lenCur p < 2 ^ 62 -> byteZ c < 24 ->
  execStep accept_all (c :: b) p
  = Done (set_lenCur (lenCur p - 1)
            (set_trace (trace p ++ [OnUint8 (byteZ c)]) p),
          b, false, None).
Proof.
  intros Hm Hl Hc. unfold execStep. rewrite Hm.
  change (majorArr =? stFail) with false.
  change (majorArr =? stValue) with false.
  change (majorArr =? stLen) with false.
  change (majorArr =? majorUint) with false.
  change (majorArr =? majorNeg) with false.
  change (majorArr =? codeSingleFloat) with false.
  change (majorArr =? codeDoubleFloat) with false.
  change (majorArr =? majorBytes) with false.
  change (majorArr =? majorText) with false.
  change (majorArr =? stStartArr) with false.
  change (majorArr =? majorArr) with true. cbv iota.
  unfold stepArray, stepAggregate.
  destruct (Z.eqb_spec (lenCur p) 0) as [E|_]; [lia|].
  rewrite (stepValue_small_uint accept_all) by assumption.
  unfold simpleValue, emit, accept_all at 1, onValue.
  change (cur (set_trace _ p)) with (cur p). rewrite Hm.
  change ((majorArr =? majorArr) || (majorArr =? majorMap)) with true.
  cbv iota. change (lenCur (set_trace _ p)) with (lenCur p).
  rewrite wrap64_id by (unfold in64; lia). reflexivity.
Qed.

Lemma array_elements (l : list byte) :
  forall p rest k,
  major (cur p) = majorArr -> len l <= lenCur p < 2 ^ 62 ->
  Forall (fun c => byteZ c < 24) l ->
  run accept_all (length l + k) p (l ++ rest)
  = run accept_all k (after_elements l p) rest.
Proof.
  induction l as [|c l IH]; intros p rest k Hm Hl Hs.
  - now rewrite after_elements_nil.
  - inversion Hs as [|? ? Hc Hs']; subst.
    assert (Hlen : len (c :: l) = 1 + len l)
      by (unfold len; cbn [length]; lia).
    pose proof (len_nonneg l) as H0.
    cbn [app length Nat.add].
    rewrite (run_step accept_all _ _ _ _ _ _ _ _
               (array_element c (l ++ rest) p Hm ltac:(lia) Hc)).
    rewrite IH; [now rewrite after_elements_cons | exact Hm | | exact Hs'].
    change (lenCur (set_lenCur (lenCur p - 1) _)) with (lenCur p - 1). lia.
Qed.

Lemma execStep_startArr (vs : Visitor) (b : list byte) (p : Parser) :
  major (cur p) = stStartArr ->
  execStep vs b p
  = startThen vs (OnArrayStart (lenCur p) AnyType) (stepArray vs) b p.
Proof. intros E. unfold execStep. rewrite E. reflexivity. Qed.

Lemma execStep_arr (vs : Visitor) (b : list byte) (p : Parser) :
  major (cur p) = majorArr -> execStep vs b p = stepArray vs b p.
Proof. intros E. unfold execStep. rewrite E. reflexivity. Qed.

(** The run over the leading byte of an array of small integers and its
    elements, up to the bytes that follow. *)
Lemma array_run (hd c1 : byte) (l rest : list byte) (k : nat) :
  byteZ hd = 128 + len (c1 :: l) -> len (c1 :: l) < 24 ->
  Forall (fun c => byteZ c < 24) (c1 :: l) ->
  exists q,
    run accept_all (2 + length l + k) NewParser (hd :: (c1 :: l) ++ rest)
    = run accept_all k q rest
    /\ trace q = OnArrayStart (len (c1 :: l)) AnyType
                 :: uint8_events (c1 :: l)
    /\ forall x b,
         execStep accept_all (x :: b) q
         = Done (set_trace (trace q ++ [OnArrayFinished]) NewParser,
                 x :: b, true, None).
Proof.
  intros Hhd Hlen Hs.
  set (N := len (c1 :: l)) in *.
  assert (HN : N = 1 + len l) by (unfold N, len; cbn [length]; lia).
  pose proof (len_nonneg l) as H0.
  destruct (head_array hd ltac:(lia)) as [Hmj Hmn].
  assert (Hmn' : Z.land (byteZ hd) minorMask = N) by lia.
  inversion Hs as [|? ? Hc1 Hs']; subst.
  set (p1 := lpush N (push (mkState stStartArr stStart)
                        (push (mkState majorArr stStart) NewParser))).
  assert (H1 : execStep accept_all (hd :: (c1 :: l) ++ rest) NewParser
               = Done (p1, (c1 :: l) ++ rest, false, None)).
  { rewrite (execStep_value accept_all) by reflexivity.
    unfold stepValue. cbv zeta. rewrite Hmj, Hmn'.
    change (majorArr =? majorUint) with false.
    change (majorArr =? majorNeg) with false.
    change ((majorArr =? majorBytes) || (majorArr =? majorText)) with false.
    change ((majorArr =? majorArr) || (majorArr =? majorMap)) with true.
    cbv iota. unfold initSub.
    destruct (Z.eqb_spec N lenIndef) as [E|_]; [unfold lenIndef in E; lia|].
    destruct (Z.ltb_spec N len8b) as [_|E];
      [reflexivity | unfold len8b in E; lia]. }
  set (p2 := set_lenCur (N - 1)
               (set_trace [OnArrayStart N AnyType; OnUint8 (byteZ c1)]
                  (pop p1))).
  assert (H2 : execStep accept_all (c1 :: l ++ rest) p1
               = Done (p2, l ++ rest, false, None)).
  { rewrite execStep_startArr by reflexivity.
    unfold startThen, emit, accept_all at 1.
    rewrite <- execStep_arr by reflexivity.
    rewrite array_element;
      [reflexivity | reflexivity | | exact Hc1].
    change (lenCur (pop (set_trace _ p1))) with N. lia. }
  exists (after_elements l p2).
  split; [|split].
  - cbn [Nat.add app].
    rewrite (run_step accept_all _ _ _ _ _ _ _ _ H1).
    rewrite (run_step accept_all _ _ _ _ _ _ _ _ H2).
    apply array_elements; [reflexivity | | exact Hs'].
    change (lenCur p2) with (N - 1). lia.
  - reflexivity.
  - intros x b. rewrite execStep_arr by reflexivity.
    unfold stepArray, stepAggregate.
    change (lenCur (after_elements l p2)) with (N - 1 - len l).
    replace (N - 1 - len l) with 0 by lia.
    change (0 =? 0) with true. cbv iota.
    unfold emit, accept_all at 1. reflexivity.
Qed.

(** X20. A definite-length array of 1 to 23 integers below 24, with a
    visitor that accepts every event.  When the leading byte and the
    elements have been fed, the array start event and one uint8 event per
    element have been delivered, but not the array end event: the count
    reaching zero is only noticed by the next step, and a step needs a
    byte.  When one more byte follows, the array end event is delivered
    first, then the byte is decoded as the next top-level value, and the
    parser is back in its initial state. *)
Theorem array_end_is_deferred (hd c1 : byte) (l : list byte) (n : nat) :
  byteZ hd = 128 + len (c1 :: l) -> len (c1 :: l) < 24 ->
  Forall (fun c => byteZ c < 24) (c1 :: l) ->
  (exists r,
     feed accept_all (2 + length l + n) NewParser (hd :: c1 :: l) = Done r
     /\ ret r = None
     /\ trace (st r)
        = OnArrayStart (len (c1 :: l)) AnyType :: uint8_events (c1 :: l))
  /\ (forall c', byteZ c' < 24 ->
      exists r,
        feed accept_all (4 + length l + n) NewParser
          (hd :: (c1 :: l) ++ [c']) = Done r
        /\ ret r = None
        /\ st r
           = set_trace
               (OnArrayStart (len (c1 :: l)) AnyType
                :: uint8_events (c1 :: l)
                ++ [OnArrayFinished; OnUint8 (byteZ c')]) NewParser).
Proof.
  intros Hhd Hlen Hs. split.
  - destruct (array_run hd c1 l [] 0 Hhd Hlen Hs) as (q & Hrun & Ht & _).
    rewrite app_nil_r, run_nil in Hrun.
    destruct (feed_of_run accept_all (2 + length l + n) _ _ _ _ Hrun
                ltac:(lia)) as (r & Hr & Hx).
    exists r. injection Hx as Hst Hret. rewrite Hst. auto.
  - intros c' Hc'.
    destruct (array_run hd c1 l [c'] 2 Hhd Hlen Hs) as (q & Hrun & Ht & Hq).
    rewrite (run_step accept_all _ _ _ _ _ _ _ _ (Hq c' [])) in Hrun.
    assert (H4 : execStep accept_all [c']
                   (set_trace (trace q ++ [OnArrayFinished]) NewParser)
                 = Done (set_trace
                           ((trace q ++ [OnArrayFinished])
                            ++ [OnUint8 (byteZ c')]) NewParser,
                         [], true, None)).
    { rewrite (execStep_value accept_all) by reflexivity.
      rewrite (stepValue_small_uint accept_all) by assumption.
      reflexivity. }
    rewrite (run_step accept_all _ _ _ _ _ _ _ _ H4), run_nil in Hrun.
    destruct (feed_of_run accept_all (4 + length l + n) _ _ _ _ Hrun
                ltac:(lia)) as (r & Hr & Hx).
    exists r. injection Hx as Hst Hret. rewrite Hst, Ht.
    split; [exact Hr|]. split; [exact Hret|].
    rewrite <- app_assoc. reflexivity.
Qed.

(** ** Indefinite-length arrays *)

Lemma execStep_indefArr (vs : Visitor) (b : list byte) (p : Parser) :
  major (cur p) = stIndefArr ->
  execStep vs b p = stepIndef vs OnArrayFinished (stepValue vs) b p.
Proof. intros E. unfold execStep. rewrite E. reflexivity. Qed.

Lemma execStep_startIndefArr (vs : Visitor) (b : list byte) (p : Parser) :
  major (cur p) = stStartIndefArr ->
  execStep vs b p
  = startThen vs (OnArrayStart (-1) AnyType)
      (stepIndef vs OnArrayFinished (stepValue vs)) b p.
Proof. intros E. unfold execStep. rewrite E. reflexivity. Qed.

Lemma small_not_break (c : byte) :
  byteZ c < 24 -> (byteZ c =? codeBreak) = false.
Proof.
  intros H. apply Z.eqb_neq. unfold codeBreak. lia.
Qed.

Lemma indef_element (c : byte) (b : list byte) (p : Parser) :
  major (cur p) = stIndefArr -> byteZ c < 24 ->
  execStep accept_all (c :: b) p
  = Done (set_trace (trace p ++ [OnUint8 (byteZ c)]) p, b, true, None).
Proof.
  intros Hm Hc. rewrite execStep_indefArr by assumption.
  unfold stepIndef. rewrite small_not_break by assumption.
  rewrite (stepValue_small_uint accept_all) by assumption.
  unfold simpleValue, emit, accept_all at 1, onValue.
  change (cur (set_trace _ p)) with (cur p). rewrite Hm. reflexivity.
Qed.

Lemma indef_elements (l : list byte) :
  forall p rest k,
  major (cur p) = stIndefArr -> Forall (fun c => byteZ c < 24) l ->
  run accept_all (length l + k) p (l ++ rest)
  = run accept_all k (set_trace (trace p ++ uint8_events l) p) rest.
Proof.
  induction l as [|c l IH]; intros p rest k Hm Hs.
  - cbn [app length Nat.add uint8_events map]. rewrite app_nil_r.
    now destruct p.
  - inversion Hs as [|? ? Hc Hs']; subst. cbn [app length Nat.add].
    rewrite (run_step accept_all _ _ _ _ _ _ _ _
               (indef_element c (l ++ rest) p Hm Hc)).
    rewrite IH by assumption.
    cbn [trace set_trace uint8_events map]. rewrite <- app_assoc.
    reflexivity.
Qed.

(** X21. An indefinite-length array of integers below 24, with a visitor
    that accepts every event: the leading byte 0x9F, any number of such
    elements and the break byte 0xFF deliver the array start event with the
    length -1, one uint8 event per element and the array end event, which
    here is delivered at once with the break byte; the parser is then back
    in its initial state. *)
Theorem indefinite_array (l : list byte) (n : nat) :
  Forall (fun c => byteZ c < 24) l ->
  exists r,
    feed accept_all (2 + length l + n) NewParser (x9f :: l ++ [xff])
    = Done r
    /\ ret r = None
    /\ st r = set_trace
                (OnArrayStart (-1) AnyType :: uint8_events l
                 ++ [OnArrayFinished]) NewParser.
Proof.
  intros Hs.
  set (p1 := push (mkState stStartIndefArr stStart)
               (push (mkState stIndefArr stStart) NewParser)).
  set (q := set_trace [OnArrayStart (-1) AnyType]
              (push (mkState stIndefArr stStart) NewParser)).
  assert (H1 : execStep accept_all (x9f :: l ++ [xff]) NewParser
               = Done (p1, l ++ [xff], false, None)) by reflexivity.
  assert (H2 : forall b, execStep accept_all b p1 = execStep accept_all b q).
  { intros b. rewrite execStep_startIndefArr by reflexivity.
    rewrite (execStep_indefArr accept_all b q) by reflexivity.
    reflexivity. }
  assert (H3 : forall k, run accept_all (S k) p1 (l ++ [xff])
                         = run accept_all (S k) q (l ++ [xff])).
  { intros k. destruct (l ++ [xff]) as [|c b] eqn:E;
      [destruct l; discriminate E|].
    now rewrite !run_S, H2. }
  assert (H4 : execStep accept_all [xff]
                 (set_trace (trace q ++ uint8_events l) q)
               = Done (set_trace
                         (OnArrayStart (-1) AnyType :: uint8_events l
                          ++ [OnArrayFinished]) NewParser,
                       [], true, None)).
  { rewrite execStep_indefArr by reflexivity. reflexivity. }
  assert (Hrun : run accept_all (2 + length l) NewParser (x9f :: l ++ [xff])
                 = Done (set_trace
                           (OnArrayStart (-1) AnyType :: uint8_events l
                            ++ [OnArrayFinished]) NewParser, None)).
  { cbn [Nat.add]. rewrite (run_step accept_all _ _ _ _ _ _ _ _ H1).
    rewrite H3. replace (S (length l)) with (length l + 1)%nat by lia.
    rewrite indef_elements by (reflexivity || assumption).
    rewrite (run_step accept_all _ _ _ _ _ _ _ _ H4). apply run_nil. }
  destruct (feed_of_run accept_all (2 + length l + n) _ _ _ _ Hrun
              ltac:(lia)) as (r & Hr & Hx).
  exists r. injection Hx as Hst Hret. auto.
Qed.

(** ** Maps *)

Lemma execStep_startMap (vs : Visitor) (b : list byte) (p : Parser) :
  major (cur p) = stStartMap ->
  execStep vs b p
  = startThen vs (OnObjectStart (lenCur p) AnyType) (stepMap vs) b p.
Proof. intros E. unfold execStep. rewrite E. reflexivity. Qed.

Lemma execStep_map (vs : Visitor) (b : list byte) (p : Parser) :
  major (cur p) = majorMap -> execStep vs b p = stepMap vs b p.
Proof. intros E. unfold execStep. rewrite E. reflexivity. Qed.

Lemma execStep_key (vs : Visitor) (b : list byte) (p : Parser) :
  major (cur p) = stKey -> execStep vs b p = stepKey vs b p.
Proof. intros E. unfold execStep. rewrite E. reflexivity. Qed.

Lemma execStep_elem (vs : Visitor) (b : list byte) (p : Parser) :
  major (cur p) = stElem -> execStep vs b p = stepValue vs b (pop p).
Proof. intros E. unfold execStep. rewrite E. reflexivity. Qed.

Lemma collect_fresh_prefix (s rest : list byte) (p : Parser) :
  buffer p = [] -> collect (s ++ rest) (len s) p = Done (p, rest, Some s).
Proof.
  intros Hb. pose proof (len_nonneg s) as H0.
  pose proof (len_nonneg rest) as H1.
  unfold collect. rewrite Hb. unfold collectFresh. rewrite len_app.
  destruct (Z.leb_spec (len s) (len s + len rest)) as [_|?]; [|lia].
  destruct (Z.ltb_spec (len s) 0) as [?|_]; [lia|].
  replace (Z.to_nat (len s)) with (length s) by (unfold len; lia).
  rewrite skipn_app, firstn_app, Nat.sub_diag, skipn_all, firstn_all.
  cbn [skipn firstn app]. rewrite app_nil_r. reflexivity.
Qed.

(** The run over a map with one entry, a text key of 1 to 23 bytes and an
    integer below 24, up to the bytes that follow. *)
Lemma map_run (kh : byte) (s : list byte) (v : byte) (rest : list byte)
  (k : nat) :
  byteZ kh = 96 + len s -> 0 < len s < 24 -> byteZ v < 24 ->
  exists q,
    run accept_all (4 + k) NewParser (xa1 :: kh :: s ++ v :: rest)
    = run accept_all k q rest
    /\ trace q = [OnObjectStart 1 AnyType; OnKeyRef s; OnUint8 (byteZ v)]
    /\ forall x b,
         execStep accept_all (x :: b) q
         = Done (set_trace (trace q ++ [OnObjectFinished]) NewParser,
                 x :: b, true, None).
Proof.
  intros Hkh Hl Hv.
  destruct (head_text kh ltac:(lia)) as [Hmj Hmn].
  assert (Hmn' : Z.land (byteZ kh) minorMask = len s) by lia.
  set (p1 := lpush 1 (push (mkState stStartMap stStart)
                        (push (mkState majorMap stStart) NewParser))).
  assert (H1 : execStep accept_all (xa1 :: kh :: s ++ v :: rest) NewParser
               = Done (p1, kh :: s ++ v :: rest, false, None))
    by reflexivity.
  set (p2 := lpush (len s)
               (push (mkState stKey stStart)
                  (pop (set_trace [OnObjectStart 1 AnyType] p1)))).
  assert (H2 : execStep accept_all (kh :: s ++ v :: rest) p1
               = Done (p2, s ++ v :: rest, false, None)).
  { rewrite execStep_startMap by reflexivity.
    unfold startThen, emit, accept_all at 1, stepMap, stepAggregate.
    change (lenCur (pop _) =? 0) with false. cbv iota.
    unfold initMapKey. cbv zeta. rewrite Hmj, Hmn'.
    change (negb (majorText =? majorText)) with false. cbv iota.
    destruct (Z.eqb_spec (len s) lenIndef) as [E|_];
      [unfold lenIndef in E; lia|].
    unfold initByteSeq.
    destruct (Z.ltb_spec (len s) len8b) as [_|E];
      [reflexivity | unfold len8b in E; lia]. }
  set (p3 := set_cur (mkState stElem stStart)
               (lpop (set_trace [OnObjectStart 1 AnyType; OnKeyRef s] p2))).
  assert (H3 : execStep accept_all (s ++ v :: rest) p2
               = Done (p3, v :: rest, false, None)).
  { rewrite execStep_key by reflexivity. unfold stepKey.
    change (lenCur p2) with (len s).
    rewrite collect_fresh_prefix by reflexivity. reflexivity. }
  set (q := set_lenCur 0
              (set_trace [OnObjectStart 1 AnyType; OnKeyRef s;
                          OnUint8 (byteZ v)] (pop p3))).
  assert (H4 : execStep accept_all (v :: rest) p3
               = Done (q, rest, false, None)).
  { rewrite execStep_elem by reflexivity.
    rewrite (stepValue_small_uint accept_all) by assumption.
    reflexivity. }
  exists q. split; [|split].
  - cbn [Nat.add].
    rewrite (run_step accept_all _ _ _ _ _ _ _ _ H1).
    rewrite (run_step accept_all _ _ _ _ _ _ _ _ H2).
    assert (Hne : s <> [])
      by (apply payload_nonempty with (w := len s); [reflexivity | lia]).
    destruct s as [|c0 s0]; [now contradiction Hne|].
    rewrite (run_step accept_all _ _ _ _ _ _ _ _ H3).
    rewrite (run_step accept_all _ _ _ _ _ _ _ _ H4). reflexivity.
  - reflexivity.
  - intros x b. rewrite execStep_map by reflexivity. reflexivity.
Qed.

(** X22. A map with one entry, with a visitor that accepts every event:
    the leading byte 0xA1, a text key of 1 to 23 bytes and an integer below
    24 deliver the object start event with the length 1, the key reference
    event carrying the bytes of the key and the uint8 event; as for an
    array, the object end event is not delivered before one more byte is
    fed, and it is then delivered before that byte is decoded. *)
Theorem map_with_one_entry (kh : byte) (s : list byte) (v : byte) (n : nat) :
  byteZ kh = 96 + len s -> 0 < len s < 24 -> byteZ v < 24 ->
  (exists r,
     feed accept_all (4 + n) NewParser (xa1 :: kh :: s ++ [v]) = Done r
     /\ ret r = None
     /\ trace (st r)
        = [OnObjectStart 1 AnyType; OnKeyRef s; OnUint8 (byteZ v)])
  /\ (forall c', byteZ c' < 24 ->
      exists r,
        feed accept_all (6 + n) NewParser (xa1 :: kh :: s ++ [v; c'])
        = Done r
        /\ ret r = None
        /\ st r
           = set_trace
               [OnObjectStart 1 AnyType; OnKeyRef s; OnUint8 (byteZ v);
                OnObjectFinished; OnUint8 (byteZ c')] NewParser).
Proof.
  intros Hkh Hl Hv. split.
  - destruct (map_run kh s v [] 0 Hkh Hl Hv) as (q & Hrun & Ht & _).
    rewrite run_nil in Hrun.
    destruct (feed_of_run accept_all (4 + n) _ _ _ _ Hrun ltac:(lia))
      as (r & Hr & Hx).
    exists r. injection Hx as Hst Hret. rewrite Hst. auto.
  - intros c' Hc'.
    destruct (map_run kh s v [c'] 2 Hkh Hl Hv) as (q & Hrun & Ht & Hq).
    rewrite (run_step accept_all _ _ _ _ _ _ _ _ (Hq c' [])) in Hrun.
    assert (H6 : execStep accept_all [c']
                   (set_trace (trace q ++ [OnObjectFinished]) NewParser)
                 = Done (set_trace
                           ((trace q ++ [OnObjectFinished])
                            ++ [OnUint8 (byteZ c')]) NewParser,
                         [], true, None)).
    { rewrite (execStep_value accept_all) by reflexivity.
      rewrite (stepValue_small_uint accept_all) by assumption.
      reflexivity. }
    rewrite (run_step accept_all _ _ _ _ _ _ _ _ H6), run_nil in Hrun.
    destruct (feed_of_run accept_all (6 + n) _ _ _ _ Hrun ltac:(lia))
      as (r & Hr & Hx).
    exists r. injection Hx as Hst Hret. rewrite Hst, Ht.
    split; [exact Hr|]. split; [exact Hret | reflexivity].
Qed.

(** X23. The key of a map entry must be a text string: after the leading
    byte of a map with a non-zero count below 24, a byte whose major type
    is not text makes a new parser deliver the object start event and
    return the error asking for a text key. *)
Theorem map_key_must_be_text (mh c : byte) (rest : list byte) (n : nat) :
  160 < byteZ mh < 184 -> Z.land (byteZ c) majorMask <> majorText ->
  exists r,
    feed accept_all (2 + n) NewParser (mh :: c :: rest) = Done r
    /\ ret r = Some errTextKeyRequired
    /\ trace (st r) = [OnObjectStart (byteZ mh - 160) AnyType].
Proof.
  intros [Hm1 Hm2] Hc.
  assert (Hrun : exists q,
    run accept_all 2 NewParser (mh :: c :: rest)
    = Done (q, Some errTextKeyRequired)
    /\ trace q = [OnObjectStart (byteZ mh - 160) AnyType]).
  { assert (Hk : (Z.land (byteZ c) majorMask =? majorText) = false)
      by now apply Z.eqb_neq.
    destruct mh; vm_compute in Hm1, Hm2; try discriminate;
      (erewrite run_step by reflexivity);
      (erewrite run_step
         by (rewrite execStep_startMap by reflexivity;
             unfold startThen, emit, accept_all at 1, stepMap,
               stepAggregate;
             cbn [lenCur pop lpush push set_state set_length set_trace
                    length_ pstate lengthStack_push lcurrent NewParser];
             match goal with
             | |- context [?a =? 0] => change (a =? 0) with false
             end; cbv iota;
             unfold initMapKey; cbv zeta; rewrite Hk; reflexivity));
      eexists; split; reflexivity. }
  destruct Hrun as (q & Hrun & Ht).
  destruct (feed_of_run accept_all (2 + n) 2 _ _ _ Hrun ltac:(lia))
    as (r & Hr & Hx).
  exists r. injection Hx as Hst Hret. rewrite Hst. auto.
Qed.

Lemma binary_chunk_invariance_witness :
  exists F0, forall F', (F0 <= F')%nat ->
  exists r',
    feed_all accept_all F' NewParser [[x19; x01]; [x02]] = Done r'
    /\ ret r' = None /\ trace (st r') = [OnUint16 258].
Proof.
  edestruct (binary_chunk_invariance accept_all [[x19; x01]; [x02]] 2)
    as [F0 HF]; [vm_compute; reflexivity | reflexivity |].
  exists F0. intros F' Hle.
  destruct (HF F' Hle) as (r' & H1 & H2 & _ & H4).
  exists r'. split; [exact H1|]. split; [exact H2 | exact H4].
Defined.

Lemma carry_buffer_invariant_witness :
  exists r,
    feed accept_all 2 NewParser [x19; x01] = Done r
    /\ buffer (st r) = [x01]
    /\ pending (st r) = Some 2.
Proof.
  eexists. split; [vm_compute; reflexivity|].
  split; [reflexivity|].
  destruct (carry_buffer_invariant accept_all) as [Hnew Hkeep].
  destruct (Hkeep 2%nat NewParser [x19; x01] _ Hnew eq_refl eq_refl)
    as [_ [Hb | (c & Hc & _)]].
  - discriminate Hb.
  - reflexivity.
Defined.

Lemma immediate_integers_witness :
  (exists r,
     feed accept_all 1 NewParser [x17] = Done r
     /\ st r = set_trace [OnUint8 23] NewParser /\ ret r = None)
  /\ (exists r,
        feed accept_all 1 NewParser [x37] = Done r
        /\ st r = set_trace [OnInt8 (-24)] NewParser /\ ret r = None).
Proof.
  split.
  - apply (proj1 (immediate_integers accept_all x17 0)).
    vm_compute. reflexivity.
  - apply (proj2 (immediate_integers accept_all x37 0)).
    vm_compute. split; [discriminate | reflexivity].
Defined.

Lemma unsigned_integers_witness :
  exists r,
    feed accept_all 2 NewParser [x19; x01; x02] = Done r
    /\ trace (st r) = [OnUint16 258].
Proof.
  destruct (unsigned_integers accept_all [x01; x02] 0 x19 2 OnUint16)
    as (_ & r & H1 & H2 & _);
    [cbn [In]; right; left; reflexivity | reflexivity |].
  exists r. split; [exact H1 | exact H2].
Defined.

Lemma negative_integers_witness :
  exists r,
    feed accept_all 2 NewParser [x38; x80] = Done r
    /\ trace (st r) = [OnInt8 127].
Proof.
  destruct (negative_integers accept_all [x80] 0 x38 1 OnInt8)
    as (r & H1 & H2 & _);
    [cbn [In]; left; reflexivity | reflexivity |].
  exists r. split; [exact H1 | exact H2].
Defined.

Lemma short_text_string_witness :
  exists r,
    feed accept_all 2 NewParser (x63 :: bytes "abc") = Done r
    /\ trace (st r) = [OnStringRef (bytes "abc")]
    /\ lenCur (st r) = 3.
Proof.
  destruct (short_text_string accept_all x63 (bytes "abc") 0)
    as (r & H1 & H2 & H3 & H4);
    [reflexivity | vm_compute; split; reflexivity |].
  exists r. split; [exact H1|]. split; [exact H2|].
  rewrite (H4 H3). reflexivity.
Defined.

Lemma short_byte_string_witness :
  exists r,
    feed accept_all 2 NewParser [x42; x01; x02] = Done r
    /\ trace (st r)
       = [OnArrayStart 2 ByteType; OnByte x01; OnByte x02; OnArrayFinished].
Proof.
  destruct (short_byte_string x42 [x01; x02] 0) as (r & H1 & _ & H3);
    [reflexivity | vm_compute; split; reflexivity |].
  exists r. split; [exact H1|]. rewrite H3. reflexivity.
Defined.

Lemma rejected_leading_bytes_witness :
  feed accept_all 1 NewParser [xc1; x00]
  = Done (mkResult NewParser [xc1; x00] (Some errTODO))
  /\ feed accept_all 1 NewParser [x5f]
     = Done (mkResult NewParser [x5f] (Some errIndefByteSeq))
  /\ feed accept_all 1 NewParser [xf9]
     = Done (mkResult NewParser [xf9] (Some errTODO))
  /\ feed accept_all 1 NewParser [xff]
     = Done (mkResult NewParser [xff] (Some errInvalidCode)).
Proof.
  split; [|split; [|split]].
  - apply (proj1 (rejected_leading_bytes accept_all xc1 [x00] 0)).
    vm_compute. split; [discriminate | reflexivity].
  - apply (proj1 (proj2 (rejected_leading_bytes accept_all x5f [] 0))).
    left. reflexivity.
  - apply (proj1 (proj2 (proj2
             (rejected_leading_bytes accept_all xf9 [] 0)))).
    reflexivity.
  - apply (proj2 (proj2 (proj2
             (rejected_leading_bytes accept_all xff [] 0)))).
    right. right. vm_compute. discriminate.
Defined.

Lemma reserved_length_codes_never_return_witness :
  feed accept_all 1000 NewParser [x1c; x00] = OutOfFuel.
Proof.
  apply reserved_length_codes_never_return.
  - vm_compute. reflexivity.
  - vm_compute. discriminate.
  - intros _. vm_compute. reflexivity.
  - discriminate.
Defined.

Lemma numBytes_is_payload_size_witness :
  numBytes 24 = 1 /\ numBytes 27 = 8 /\ numBytes 23 = 0.
Proof.
  split; [|split].
  - apply (proj1 (numBytes_is_payload_size x18)). reflexivity.
  - apply (proj1 (proj2 (numBytes_is_payload_size x1b))). reflexivity.
  - apply (proj2 (proj2 (numBytes_is_payload_size x17))).
    vm_compute. reflexivity.
Defined.

Lemma array_end_is_deferred_witness :
  (exists r,
     feed accept_all 3 NewParser [x82; x01; x02] = Done r
     /\ ret r = None
     /\ trace (st r)
        = [OnArrayStart 2 AnyType; OnUint8 1; OnUint8 2])
  /\ (exists r,
        feed accept_all 5 NewParser [x82; x01; x02; x03] = Done r
        /\ ret r = None
        /\ trace (st r)
           = [OnArrayStart 2 AnyType; OnUint8 1; OnUint8 2;
              OnArrayFinished; OnUint8 3]).
Proof.
  assert (Hs : Forall (fun c => byteZ c < 24) [x01; x02]).
  { repeat constructor. }
  destruct (array_end_is_deferred x82 x01 [x02] 0 eq_refl eq_refl Hs)
    as [(r & H1 & H2 & H3) H].
  split.
  - exists r. repeat split; assumption.
  - destruct (H x03 eq_refl) as (r' & G1 & G2 & G3).
    exists r'. split; [exact G1|]. split; [exact G2|].
    rewrite G3. reflexivity.
Defined.

Lemma indefinite_array_witness :
  exists r,
    feed accept_all 4 NewParser [x9f; x01; x02; xff] = Done r
    /\ ret r = None
    /\ trace (st r)
       = [OnArrayStart (-1) AnyType; OnUint8 1; OnUint8 2; OnArrayFinished].
Proof.
  assert (Hs : Forall (fun c => byteZ c < 24) [x01; x02]).
  { repeat constructor. }
  destruct (indefinite_array [x01; x02] 0 Hs) as (r & H1 & H2 & H3).
  exists r. split; [exact H1|]. split; [exact H2|]. rewrite H3. reflexivity.
Defined.

Lemma map_with_one_entry_witness :
  (exists r,
     feed accept_all 4 NewParser (xa1 :: x62 :: bytes "id" ++ [x07]) = Done r
     /\ ret r = None
     /\ trace (st r)
        = [OnObjectStart 1 AnyType; OnKeyRef (bytes "id"); OnUint8 7])
  /\ (exists r,
        feed accept_all 6 NewParser (xa1 :: x62 :: bytes "id" ++ [x07; x00])
        = Done r
        /\ ret r = None
        /\ trace (st r)
           = [OnObjectStart 1 AnyType; OnKeyRef (bytes "id"); OnUint8 7;
              OnObjectFinished; OnUint8 0]).
Proof.
  destruct (map_with_one_entry x62 (bytes "id") x07 0 eq_refl
              ltac:(vm_compute; split; reflexivity) eq_refl) as [A B].
  split; [exact A|].
  destruct (B x00 eq_refl) as (r & H1 & H2 & H3).
  exists r. split; [exact H1|]. split; [exact H2|]. rewrite H3. reflexivity.
Defined.

Lemma map_key_must_be_text_witness :
  exists r,
    feed accept_all 2 NewParser [xa1; x01; x02] = Done r
    /\ ret r = Some errTextKeyRequired
    /\ trace (st r) = [OnObjectStart 1 AnyType].
Proof.
  apply (map_key_must_be_text xa1 x01 [x02] 0).
  - vm_compute. split; reflexivity.
  - vm_compute. discriminate.
Defined.

End CborlExtras.

(** * Properties shared by the two decoders *)

(** C2, at the failing inputs. An error returned by a call does not put
    either decoder into its failed state: after the text decoder has
    returned the unknown-character error for [x], and after the binary
    decoder has returned the unsupported-feature error for a tag byte, the
    next call decodes its fragment, delivers an event and returns no
    error. *)
Theorem errors_do_not_latch (n : nat) :
  (exists p1 p2,
     Json.Write accept_all Json.noFloat Json.unquote Json.NewParser
       (bytes "x") = Done (p1, 0, Some errUnknownChar)
     /\ Json.currentState p1 = Json.startState
     /\ Json.Write accept_all Json.noFloat Json.unquote p1 (bytes "1 ")
        = Done (p2, 2, None)
     /\ Json.trace p2 = [OnInt64 1])
  /\ (exists p1 p2,
        Cborl.Write accept_all (2 + n) Cborl.NewParser [xc0]
        = Done (p1, 0, Some errTODO)
        /\ Cborl.major (Cborl.cur p1) = Cborl.stValue
        /\ Cborl.Write accept_all (2 + n) p1 [x01] = Done (p2, 1, None)
        /\ Cborl.trace p2 = [OnUint8 1]).
Proof.
  split.
  - eexists _, _. split; [vm_compute; reflexivity|].
    split; [reflexivity|]. split; [vm_compute; reflexivity|]. reflexivity.
  - eexists _, _. split; [vm_compute; reflexivity|].
    split; [reflexivity|]. split; [vm_compute; reflexivity|]. reflexivity.
Qed.
